(** * CurveSim network connector ([curvesim/network/web3.py])

    A shallow embedding of the on-chain data connector: the explorer query
    with its back-off loop ([explorer]), the ABI fetch ([ABI]), contract
    binding ([contract]), the underlying-coin resolver
    ([_underlying_coin_address]) and its batch form
    ([underlying_coin_addresses]).

    The coroutines are written as programs over the effects they perform
    (dictionary allocation and update, HTTP requests, sleeping, web3 calls);
    a world record answers the external effects.  Python floats are IEEE
    binary64 values, modelled by Rocq's primitive floats.

    The second part embeds the bonding curve tool
    ([curvesim/tools/bonding_curve.py]): [bonding_curve] and
    [_plot_bonding_curve], over a pool object, numpy and matplotlib that
    are given by an environment. *)

From Stdlib Require Import ZArith Floats DecimalString.
From stdpp Require Import gmap strings list.

Set Default Proof Using "Type".

(** ** Python values *)

(** The fragment of Python's object universe the module touches: [None],
    strings and lists (an ABI is handed around as a JSON string or as a
    parsed list). *)
#[warnings="-register-all"]
Inductive pyval : Type :=
| VNone
| VStr (s : string)
| VList (l : list pyval).

Abbreviation dict := (gmap string pyval).

(** Truth value testing, as used by [abi or ...]. *)
Definition truthy (v : pyval) : bool :=
  match v with
  | VNone => false
  | VStr s => match s with EmptyString => false | _ => true end
  | VList l => match l with [] => false | _ => true end
  end.

(** [os.environ.get(name)] yields a string or [None]. *)
Definition of_env (v : option string) : pyval :=
  match v with Some s => VStr s | None => VNone end.

(** Exceptions.  An exception raised inside the HTTP layer or web3 is
    [External] and carries its class name and message; the other
    constructors are the exceptions the module's own statements raise
    ([raise ValueError(...)], a missing key in [r["result"]], a missing
    method, an unbound local). *)
Record foreign : Type := Foreign { f_class : string; f_msg : string }.

Inductive exn : Type :=
| ValueError (msg : string)
| KeyError (key : string)
| AttributeError (attr : string)
| UnboundLocalError (name : string)
| External (e : foreign).

Definition exn_class (e : exn) : string :=
  match e with
  | ValueError _ => "ValueError"
  | KeyError _ => "KeyError"
  | AttributeError _ => "AttributeError"
  | UnboundLocalError _ => "UnboundLocalError"
  | External f => f_class f
  end.

(** ** Floats: [round(x, ndigits)] *)

(** Quotient of [a / b] rounded to the nearest integer, ties to even. *)
Definition round_half_even_div (a b : Z) : Z :=
  let q := (a / b)%Z in
  let r := (a mod b)%Z in
  match (2 * r ?= b)%Z with
  | Lt => q
  | Gt => (q + 1)%Z
  | Eq => if Z.even q then q else (q + 1)%Z
  end.

(** CPython's [float.__round__] with [ndigits >= 0]: the exact value of [x]
    is rounded to [ndigits] decimals (ties to even) and the decimal is
    converted back to the nearest binary64 value.  Infinities and NaN round
    to themselves, a zero result keeps the sign of [x]. *)
Definition py_round (x : float) (ndigits : nat) : float :=
  let scale := Z.to_pos (10 ^ Z.of_nat ndigits) in
  match Prim2SF x with
  | S754_finite s m e =>
      let n := match e with
               | Zneg p => round_half_even_div (Z.pos m * Z.pos scale) (Z.pow_pos 2 p)
               | _ => (Z.pos m * Z.pos scale * 2 ^ e)%Z
               end in
      match n with
      | Zpos n' =>
          SF2Prim (SFdiv prec emax (S754_finite s n' 0) (S754_finite false scale 0))
      | _ => if s then (-0)%float else 0%float
      end
  | _ => x
  end.

(** ** Effects and programs *)

(** Dictionaries are mutable objects: a program holds references into a
    store of dictionaries. *)
Abbreviation ref := nat.

(** A web3 contract object is determined by the address and ABI it was
    built from. *)
Record contract_obj : Type := Contract { c_address : string; c_abi : pyval }.

Inductive eff : Type -> Type :=
| NewDict (d : dict) : eff ref
| DictUpdate (r : ref) (other : dict) : eff unit
| HttpGet (url : string) (params : ref) : eff dict
| Sleep (t : float) : eff unit
| EthContract (address : string) (abi : pyval) : eff contract_obj
| Dir (c : contract_obj) : eff (list string)
| Call (c : contract_obj) (fn : string) : eff pyval.

(** A coroutine body: it returns, raises, performs an effect and goes on
    with the answer, or is still inside its [while True] loop when the
    unrolling bound is reached ([Spin]). *)
Inductive prog (A : Type) : Type :=
| Ret (a : A)
| Raise (e : exn)
| Spin
| Vis {X : Type} (e : eff X) (k : X -> prog A).

Arguments Ret {A} a.
Arguments Raise {A} e.
Arguments Spin {A}.
Arguments Vis {A X} e k.

Fixpoint bind {A B : Type} (p : prog A) (f : A -> prog B) : prog B :=
  match p with
  | Ret a => f a
  | Raise e => Raise e
  | Spin => Spin
  | Vis e k => Vis e (fun x => bind (k x) f)
  end.

Definition trigger {X : Type} (e : eff X) : prog X := Vis e Ret.

Declare Scope prog_scope.
Delimit Scope prog_scope with prog.
Notation "x <- p ;; q" := (bind p (fun x => q))
  (at level 100, p at next level, right associativity) : prog_scope.
Notation "p ;;; q" := (bind p (fun _ => q))
  (at level 100, right associativity) : prog_scope.
Open Scope prog_scope.

(** ** The module *)

Definition ETHERSCAN_URL : string := "https://api.etherscan.io/api".

(** [r[key]] on a dictionary. *)
Definition getitem (r : dict) (key : string) : prog pyval :=
  match r !! key with
  | Some v => Ret v
  | None => Raise (KeyError key)
  end.

(** [v.startswith(p)]: only strings have the method. *)
Definition startswith (v : pyval) (p : string) : prog bool :=
  match v with
  | VStr s => Ret (String.prefix p s)
  | _ => Raise (AttributeError "startswith")
  end.

(** The initial wait, the binary64 value of the literal [0.2]. *)
Definition t_wait0 : float := 0x1.999999999999ap-3%float.

(** The dictionary literal [p] of [ABI]. *)
Definition abi_query (address : string) : dict :=
  <[ "module" := VStr "contract" ]>
  (<[ "action" := VStr "getabi" ]>
  (<[ "address" := VStr address ]> ∅)).

(** What [underlying_coin_addresses] is called with: one address (a [str])
    or an iterable of addresses. *)
Inductive addresses_arg : Type :=
| AStr (a : string)
| AIter (l : list string).

(** What a coroutine awaits: another coroutine, run in place, or
    [gather] of its tasks. *)
Inductive awaited : Type :=
| AwaitCoro (p : prog pyval)
| AwaitGather (tasks : list (prog pyval)).

Section Connector.

(** [ETHERSCAN_API_KEY = os.environ.get("ETHERSCAN_API_KEY")] *)
Variable ETHERSCAN_API_KEY : option string.

(** Each function takes, before its own arguments, the bound [fuel] on the
    rounds of the [while True] loop that are followed in every call of
    [explorer] it makes. *)

(** The [while True] loop of [explorer], unrolled at most [fuel] times. *)
Fixpoint explorer_loop (fuel : nat) (params : ref) (t_wait : float) : prog pyval :=
  match fuel with
  | O => Spin
  | S fuel' =>
      r <- trigger (HttpGet ETHERSCAN_URL params) ;;
      result <- getitem r "result" ;;
      limited <- startswith result "Max rate limit reached" ;;
      if (limited : bool) then
        trigger (Sleep t_wait) ;;;
        explorer_loop fuel' params (py_round (t_wait * 1.5) 2)
      else Ret result
  end.

Definition explorer (fuel : nat) (params : ref) : prog pyval :=
  trigger (DictUpdate params {[ "apikey" := of_env ETHERSCAN_API_KEY ]}) ;;;
  explorer_loop fuel params t_wait0.

Definition ABI (fuel : nat) (address : string) : prog pyval :=
  p <- trigger (NewDict (abi_query address)) ;;
  abi <- explorer fuel p ;;
  Ret abi.

(** [contract(address, abi=None)] *)
Definition contract (fuel : nat) (address : string) (abi : pyval) : prog contract_obj :=
  abi <- (if truthy abi then Ret abi else ABI fuel address) ;;
  c <- trigger (EthContract address abi) ;;
  Ret c.

Definition fns : list string := ["upgradeToAndCall"; "underlying"; "token"].

Definition AAVE_PROXY : string := "0x1C050bCa8BAbe53Ef769d0d2e411f556e1a27E7B".

(** The [for i, fn in enumerate(fns)] loop: [i] is the running index,
    [rest] what is left of [fns], [cur] the value [fn] is bound to when
    the iteration starts.  A loop that runs out leaves [fn] as it was. *)
Fixpoint probe (c : contract_obj) (address : string) (n_fns : Z)
    (i : Z) (rest : list string) (cur : option string) : prog string :=
  match rest with
  | [] =>
      match cur with
      | Some fn => Ret fn
      | None => Raise (UnboundLocalError "fn")
      end
  | fn :: rest' =>
      names <- trigger (Dir c) ;;
      if bool_decide (fn ∈ names) then Ret fn
      else if (i =? n_fns)%Z then
        Raise (ValueError ("Could not find underlying token for " +:+ address))
      else probe c address n_fns (i + 1) rest' (Some fn)
  end.

Definition _underlying_coin_address (fuel : nat) (address : string) : prog pyval :=
  c <- contract fuel address VNone ;;
  let n_fns := (Z.of_nat (length fns) - 1)%Z in
  fn <- probe c address n_fns 0 fns None ;;
  cfn <- (if String.eqb fn "upgradeToAndCall" then
            abi <- ABI fuel AAVE_PROXY ;;
            c' <- contract fuel address abi ;;
            Ret (c', "UNDERLYING_ASSET_ADDRESS")
          else Ret (c, fn)) ;;
  address' <- trigger (Call (fst cfn) (snd cfn)) ;;
  Ret address'.

(** [underlying_coin_addresses]: the value awaited becomes [addrs], which
    is returned as it is.  The [for] loop appends one coroutine per
    address to [tasks]. *)
Definition underlying_coin_addresses (fuel : nat) (addresses : addresses_arg) : awaited :=
  match addresses with
  | AStr a => AwaitCoro (_underlying_coin_address fuel a)
  | AIter l =>
      let tasks :=
        fold_left (fun tasks address => tasks ++ [_underlying_coin_address fuel address]) l []
      in AwaitGather tasks
  end.

End Connector.

(** ** The world and the execution of programs *)

(** The external services.  The explorer and the chain client may keep
    state of their own ([St]): an answer can depend on what was asked before
    and on the time slept.  Building a contract object and listing its
    functions involve no network traffic. *)
Record World (St : Type) : Type := {
  http_get : St -> string -> dict -> (foreign + dict) * St;
  elapse : St -> float -> St;
  eth_contract : string -> pyval -> option foreign;
  functions_dir : contract_obj -> list string;
  eth_call : St -> contract_obj -> string -> (foreign + pyval) * St
}.

Arguments http_get {St} _ _ _ _.
Arguments elapse {St} _ _ _.
Arguments eth_contract {St} _ _ _.
Arguments functions_dir {St} _ _.
Arguments eth_call {St} _ _ _ _.

(** What an execution lets the outside observe, in order. *)
Inductive label : Type :=
| LHttp (url : string) (params : dict)
| LSleep (t : float)
| LContract (address : string) (abi : pyval)
| LDir (c : contract_obj)
| LCall (c : contract_obj) (fn : string).

(** The store of dictionaries together with the state of the world. *)
Record mstate (St : Type) : Type := MState { heap : list dict; wst : St }.

Arguments MState {St} heap wst.
Arguments heap {St} _.
Arguments wst {St} _.

(** One effect: the answer (or the exception raised instead), the new
    state and what was observed.  [d.update(other)] lets the entries of
    [other] win; a request sends the dictionary as it is in the store at
    that moment. *)
Definition raised {X : Type} (a : foreign + X) : exn + X :=
  match a with inl f => inl (External f) | inr x => inr x end.

Definition handle {St X : Type} (w : World St) (e : eff X) (st : mstate St)
    : (exn + X) * mstate St * list label :=
  match e in eff X return (exn + X) * mstate St * list label with
  | NewDict d =>
      (inr (length (heap st)), MState (heap st ++ [d]) (wst st), [])
  | DictUpdate r other =>
      (inr tt, MState (alter (fun d => other ∪ d) r (heap st)) (wst st), [])
  | HttpGet url r =>
      let d := default ∅ (heap st !! r) in
      let a := http_get w (wst st) url d in
      (raised (fst a), MState (heap st) (snd a), [LHttp url d])
  | Sleep t =>
      (inr tt, MState (heap st) (elapse w (wst st) t), [LSleep t])
  | EthContract address abi =>
      (match eth_contract w address abi with
       | Some f => inl (External f)
       | None => inr (Contract address abi)
       end, st, [LContract address abi])
  | Dir c => (inr (functions_dir w c), st, [LDir c])
  | Call c fn =>
      let a := eth_call w (wst st) c fn in
      (raised (fst a), MState (heap st) (snd a), [LCall c fn])
  end.

Inductive result (A : Type) : Type :=
| Returned (a : A)
| Raised (e : exn)
| Pending.

Arguments Returned {A} a.
Arguments Raised {A} e.
Arguments Pending {A}.

(** Running a coroutine on its own, to the end. *)
Fixpoint run {St A : Type} (w : World St) (p : prog A) (st : mstate St)
    : result A * mstate St * list label :=
  match p with
  | Ret a => (Returned a, st, [])
  | Raise e => (Raised e, st, [])
  | Spin => (Pending, st, [])
  | Vis e k =>
      let '(a, st', tr) := handle w e st in
      match a with
      | inl x => (Raised x, st', tr)
      | inr x => let '(r, st'', tr') := run w (k x) st' in (r, st'', tr ++ tr')
      end
  end.

(** Sequencing of executions: what [run] does at a [bind]. *)
Definition andthen {St A B : Type} (x : result A * mstate St * list label)
    (f : A -> mstate St -> result B * mstate St * list label)
    : result B * mstate St * list label :=
  match x with
  | (Returned a, st', tr) => let '(r, st'', tr') := f a st' in (r, st'', tr ++ tr')
  | (Raised e, st', tr) => (Raised e, st', tr)
  | (Pending, st', tr) => (Pending, st', tr)
  end.

(** The result of an effect that may have raised. *)
Definition to_result {A : Type} (a : exn + A) : result A :=
  match a with inl e => Raised e | inr x => Returned x end.

Definition outcome {St A : Type} (x : result A * mstate St * list label) : result A :=
  fst (fst x).
Definition final {St A : Type} (x : result A * mstate St * list label) : mstate St :=
  snd (fst x).
Definition trace {St A : Type} (x : result A * mstate St * list label) : list label :=
  snd x.

(** ** [asyncio.gather] *)

(** A task is a coroutine together with the dictionaries it has created;
    the module never hands a dictionary from one coroutine to another. *)
Abbreviation task := (prog pyval * list dict)%type.

(** One turn of a task: it performs its next effect.  A finished task, and
    one whose loop bound is used up, stay as they are.  (asyncio switches
    tasks only where a coroutine awaits something that suspends it; a turn
    here is a single effect, so the schedules include asyncio's.) *)
Definition step_task {St : Type} (w : World St) (t : task) (s : St)
    : task * St * list label :=
  match fst t with
  | Vis e k =>
      let '(a, st', tr) := handle w e (MState (snd t) s) in
      ((match a with inl x => Raise x | inr x => k x end, heap st'), wst st', tr)
  | _ => (t, s, [])
  end.

(** The values of the tasks, when every one of them has returned. *)
Fixpoint all_returned (ts : list task) : option (list pyval) :=
  match ts with
  | [] => Some []
  | (Ret v, _) :: ts' => option_map (cons v) (all_returned ts')
  | _ :: ts' => None
  end.

(** Awaiting [gather] of the tasks under a schedule, the list of the tasks that get
    the successive turns.  The values come back in the order of [tasks]
    once all have returned; the first exception raised by any task is
    raised to the awaiting coroutine at once; [Pending] when the schedule
    ends before that. *)
Fixpoint gather {St : Type} (w : World St) (sched : list nat) (ts : list task) (s : St)
    : result (list pyval) * St * list label :=
  match all_returned ts with
  | Some vs => (Returned vs, s, [])
  | None =>
      match sched with
      | [] => (Pending, s, [])
      | i :: sched' =>
          match ts !! i with
          | Some t =>
              let '(t', s', tr) := step_task w t s in
              match fst t' with
              | Raise e => (Raised e, s', tr)
              | _ =>
                  let '(r, s'', tr') := gather w sched' (<[i := t']> ts) s' in
                  (r, s'', tr ++ tr')
              end
          | None => gather w sched' ts s
          end
      end
  end.

(** Awaiting: a coroutine runs in place, on the caller's store; gathered
    coroutines start as tasks with no dictionaries of their own. *)
Definition await {St : Type} (w : World St) (sched : list nat) (a : awaited) (st : mstate St)
    : result pyval * mstate St * list label :=
  match a with
  | AwaitCoro p => run w p st
  | AwaitGather tasks =>
      let '(r, s', tr) := gather w sched (map (fun p => (p, [])) tasks) (wst st) in
      (match r with
       | Returned vs => Returned (VList vs)
       | Raised e => Raised e
       | Pending => Pending
       end, MState (heap st) s', tr)
  end.

(** The number of turns a task needs to finish: one per effect, and one to
    raise for a coroutine that raises before any effect. *)
Fixpoint turns {St A : Type} (w : World St) (p : prog A) (st : mstate St) : nat :=
  match p with
  | Ret _ => 0
  | Raise _ => 1
  | Spin => 0
  | Vis e k =>
      let '(a, st', _) := handle w e st in
      match a with
      | inl _ => 1
      | inr x => match k x with Raise _ => 1 | _ => S (turns w (k x) st') end
      end
  end.

(** A world without memory: what the explorer and the chain answer depends
    on the question only. *)
Definition stateless {St : Type} (w : World St) : Prop :=
  (∀ s s' url d, fst (http_get w s url d) = fst (http_get w s' url d)) ∧
  (∀ s s' c fn, fst (eth_call w s c fn) = fst (eth_call w s' c fn)).

(** An explorer that may throttle: an answer is the one due for the request
    ([ans]) or reports rate limiting; the chain answers by the question
    only. *)
Definition rate_limited (a : foreign + dict) : Prop :=
  ∃ resp res, a = inr resp ∧ resp !! "result" = Some (VStr res) ∧
              String.prefix "Max rate limit reached" res = true.

Definition settled {St : Type} (w : World St) (ans : string -> dict -> foreign + dict)
    : Prop :=
  (∀ s url d, fst (http_get w s url d) = ans url d ∨
              rate_limited (fst (http_get w s url d))) ∧
  (∀ s s' c fn, fst (eth_call w s c fn) = fst (eth_call w s' c fn)).

(** [ends w p h r h']: started with the store [h], the coroutine [p] cannot
    end otherwise than with [r] (and, when it returns, the store [h']),
    whatever the states the world goes through; it may only still be
    running. *)
Fixpoint ends {St A : Type} (w : World St) (p : prog A) (h : list dict)
    (r : result A) (h' : list dict) : Prop :=
  match p with
  | Ret a => r = Returned a ∧ h' = h
  | Raise e => r = Raised e
  | Spin => True
  | Vis e k =>
      ∀ s, let '(a, st', _) := handle w e (MState h s) in
           match a with
           | inl x => r = Raised x
           | inr x => ends w (k x) (heap st') r h'
           end
  end.

(** A coroutine whose every execution ends the way any one of them does. *)
Definition faithful {St A : Type} (w : World St) (p : prog A) : Prop :=
  ∀ st, outcome (run w p st) ≠ Pending →
        ends w p (heap st) (outcome (run w p st)) (heap (final (run w p st))).

(** The effects that are answered the same whenever they are performed,
    when the chain has no memory: all but the explorer's. *)
Definition quiet {X : Type} (e : eff X) : Prop :=
  match e with HttpGet _ _ => False | _ => True end.

(** What one round of the loop of [explorer] makes of an answer: the way
    the loop ends, or nothing when it goes round again. *)
Definition one_round (a : foreign + dict) : option (result pyval) :=
  match a with
  | inl f => Some (Raised (External f))
  | inr resp =>
      match resp !! "result" with
      | None => Some (Raised (KeyError "result"))
      | Some (VStr res) =>
          if String.prefix "Max rate limit reached" res then None
          else Some (Returned (VStr res))
      | Some _ => Some (Raised (AttributeError "startswith"))
      end
  end.

(** What a task would return or raise if it ran on its own from here, and
    the turns it would take, seen from the world state [s0]. *)
Definition task_outcome {St : Type} (w : World St) (s0 : St) (t : task) : result pyval :=
  outcome (run w (fst t) (MState (snd t) s0)).

Definition task_turns {St : Type} (w : World St) (s0 : St) (t : task) : nat :=
  turns w (fst t) (MState (snd t) s0).

(** Nesting depth of a value. *)
Fixpoint depth (v : pyval) : nat :=
  match v with
  | VList l => S (foldr (fun x n => Nat.max (depth x) n) 0 l)
  | _ => 0
  end.

(** Two executions that differ at most in their stores. *)
Definition same_but_heap {St A : Type} (x y : result A * mstate St * list label) : Prop :=
  outcome x = outcome y ∧ wst (final x) = wst (final y) ∧ trace x = trace y.

(** ** Reading traces *)

Definition requests (tr : list label) : list (string * dict) :=
  omap (fun l => match l with LHttp url d => Some (url, d) | _ => None end) tr.

Definition sleeps (tr : list label) : list float :=
  omap (fun l => match l with LSleep t => Some t | _ => None end) tr.

Definition bindings (tr : list label) : list contract_obj :=
  omap (fun l => match l with LContract a abi => Some (Contract a abi) | _ => None end) tr.

Definition probes (tr : list label) : list contract_obj :=
  omap (fun l => match l with LDir c => Some c | _ => None end) tr.

Definition calls (tr : list label) : list (contract_obj * string) :=
  omap (fun l => match l with LCall c fn => Some (c, fn) | _ => None end) tr.

(** Time slept in all, accumulated in floating point. *)
Definition total_wait (ts : list float) : float := fold_left PrimFloat.add ts 0%float.

(** The waits of [explorer]: each is the previous one times 1.5, rounded
    to two decimals. *)
Fixpoint waits (k : nat) (t : float) : list float :=
  match k with
  | O => []
  | S k' => t :: waits k' (py_round (t * 1.5) 2)
  end.

(** The terms [round(t * 1.5^i, 2)] for [i < k], each rounded on its own. *)
Fixpoint float_pow (x : float) (i : nat) : float :=
  match i with
  | O => 1%float
  | S i' => (x * float_pow x i')%float
  end.

Definition geometric_terms (k : nat) (t : float) : list float :=
  map (fun i => py_round (t * float_pow 1.5 i) 2) (seq 0 k).

(** Labels of explorer traffic. *)
Definition is_net (l : label) : Prop :=
  match l with LHttp _ _ | LSleep _ => True | _ => False end.

(** The request [ABI] sends: its query, updated with the key. *)
Definition abi_request (key : option string) (address : string) : dict :=
  {[ "apikey" := of_env key ]} ∪ abi_query address.

(** The trace of a query that went round its loop once per wait of [ws]:
    each round is a request followed by the wait. *)
Definition rounds (d : dict) (ws : list float) : list label :=
  flat_map (fun t => [LHttp ETHERSCAN_URL d; LSleep t]) ws.

(** A string that is not the rate-limit notice. *)
Definition unthrottled (v : pyval) : Prop :=
  ∃ res, v = VStr res ∧ String.prefix "Max rate limit reached" res = false.

(** What awaiting the gather of a single coroutine gives when the coroutine
    ends with [r]. *)
Definition gathered_alone (r : result pyval) : result pyval :=
  match r with
  | Returned v => Returned (VList [v])
  | Raised e => Raised e
  | Pending => Pending
  end.

(** ** Example worlds *)

(** An explorer answer whose [result] field is [res]. *)
Definition answer (res : string) : foreign + dict := inr {[ "result" := VStr res ]}.

(** A world whose explorer hands out the answers of a script one after the
    other, whatever is asked, and has no chain behind it. *)
Definition scripted : World (list (foreign + dict)) := {|
  http_get s url d :=
    match s with
    | a :: s' => (a, s')
    | [] => (inl (Foreign "ConnectionError" "no answer"), [])
    end;
  elapse s t := s;
  eth_contract address abi := None;
  functions_dir c := [];
  eth_call s c fn := (inl (Foreign "ConnectionError" "no provider"), s)
|}.

(** An explorer that is down: every answer is the rate-limit notice. *)
Definition throttled : World unit := {|
  http_get s url d := (answer "Max rate limit reached", s);
  elapse s t := s;
  eth_contract address abi := None;
  functions_dir c := [];
  eth_call s c fn := (inl (Foreign "ConnectionError" "no provider"), s)
|}.

(** A chain without state for the examples.  The explorer knows the ABI of
    three lending tokens and answers [proxy_abi] for the Aave proxy
    implementation; an ABI is a name here, [demo_dir] lists its functions.
    [0xAAA] has [underlying] (and [token]), [0xBBB] is an upgradeable proxy,
    [0xFFF] a proxy whose own ABI lists the functions of its implementation
    too, [0xTTT] has [token] only; any other address has no verified
    source. *)
Definition demo_abi (proxy_abi : string) (address : string) : string :=
  if String.eqb address "0xAAA" then "abi-AAA"
  else if String.eqb address "0xBBB" then "abi-BBB"
  else if String.eqb address "0xFFF" then "abi-FFF"
  else if String.eqb address "0xTTT" then "abi-TTT"
  else if String.eqb address AAVE_PROXY then proxy_abi
  else "Contract source code not verified".

Definition demo_dir (abi : pyval) : list string :=
  match abi with
  | VStr s =>
      if String.eqb s "abi-AAA" then ["balanceOf"; "token"; "underlying"]
      else if String.eqb s "abi-BBB" then ["admin"; "upgradeTo"; "upgradeToAndCall"]
      else if String.eqb s "abi-FFF" then
        ["UNDERLYING_ASSET_ADDRESS"; "admin"; "upgradeToAndCall"]
      else if String.eqb s "abi-TTT" then ["balanceOf"; "token"]
      else if String.eqb s "abi-aave" then ["UNDERLYING_ASSET_ADDRESS"; "balanceOf"]
      else []
  | _ => []
  end.

Definition demo_call (c : contract_obj) (fn : string) : foreign + pyval :=
  if bool_decide (fn ∈ demo_dir (c_abi c)) then
    if String.eqb (c_address c) "0xAAA" then inr (VStr "0xCCC")
    else if String.eqb (c_address c) "0xBBB" then inr (VStr "0xDDD")
    else if String.eqb (c_address c) "0xFFF" then inr (VStr "0x999")
    else inr (VStr "0x111")
  else inl (Foreign "ABIFunctionNotFound" fn).

Definition demo (proxy_abi : string) : World unit := {|
  http_get s url d :=
    (match d !! "address" with
     | Some (VStr a) => answer (demo_abi proxy_abi a)
     | _ => answer "Error! Missing Or invalid Action name"
     end, s);
  elapse s t := s;
  eth_contract address abi := None;
  functions_dir c := demo_dir (c_abi c);
  eth_call s c fn := (demo_call c fn, s)
|}.

(** The same chain behind an explorer that throttles every other request
    it receives. *)
Definition flaky (proxy_abi : string) : World nat := {|
  http_get n url d :=
    (if Nat.even n then answer "Max rate limit reached"
     else fst (http_get (demo proxy_abi) tt url d), S n);
  elapse n t := n;
  eth_contract address abi := None;
  functions_dir c := demo_dir (c_abi c);
  eth_call n c fn := (demo_call c fn, n)
|}.

(** * The bonding curve tool ([curvesim/tools/bonding_curve.py]) *)

Module BondingCurve.

(** Numbers: Python ints and binary64 floats (Python's and numpy's). *)
Inductive value : Type :=
| Int (z : Z)
| Float (f : float).

(** The exceptions of the module's own statements: the [raise TypeError],
    indexing a list out of range, unpacking a sequence of the wrong length,
    a missing dictionary key, iterating what is not iterable.  What the
    pool, the arithmetic of the values, numpy or matplotlib raise is
    [External]. *)
Inductive exn : Type :=
| TypeError (msg : string)
| IndexError (msg : string)
| ValueError (msg : string)
| KeyError (key : nat * nat)
| External (e : foreign).

(** What [plt.subplots] hands back as [axs]: one [Axes] object, or an
    array of them. *)
Inductive axes : Type :=
| Axes (id : nat)
| AxesArray (ids : list nat).

(** The calls made on the pool, numpy and matplotlib, as observed. *)
Inductive event : Type :=
| CallXp
| CallD
| CallGetY (i j : nat) (x : Z) (xp : list value)
| CallLinspace (start : Z) (stop : value) (num : Z)
| CallSubplots (nrows ncols : nat)
| CallPlot (ax : axes) (xs ys : list value)
| CallScatter (ax : axes) (x y : value)
| CallSetXlabel (ax : axes) (label : string)
| CallSetYlabel (ax : axes) (label : string)
| CallShow.

(** The pool object and the libraries.  The pool and matplotlib keep state
    ([St]); the [isinstance] tests depend on the class of the pool only;
    the operators [*], [/] and [int] are those of the classes of the
    values; [linspace_round a b n] stands for
    [linspace(a, b, n).round()]. *)
Record Env (St : Type) : Type := {
  is_CurvePool : bool;
  is_CurveMetaPool : bool;
  is_CurveRaiPool : bool;
  is_CurveCryptoPool : bool;
  type_repr : string;
  pool_n : St -> foreign + Z;
  pool_xp : St -> (foreign + list value) * St;
  pool_D_call : St -> (foreign + value) * St;
  pool_D : St -> foreign + value;
  pool_get_y : nat -> nat -> Z -> list value -> St -> (foreign + value) * St;
  pool_price_scale : St -> foreign + list value;
  pool_coin_names : St -> foreign + list string;
  mul : value -> value -> foreign + value;
  truediv : value -> value -> foreign + value;
  to_int : value -> foreign + Z;
  linspace_round : Z -> value -> Z -> foreign + list value;
  plt : event -> St -> (foreign + axes) * St
}.

Arguments is_CurvePool {St} _.
Arguments is_CurveMetaPool {St} _.
Arguments is_CurveRaiPool {St} _.
Arguments is_CurveCryptoPool {St} _.
Arguments type_repr {St} _.
Arguments pool_n {St} _ _.
Arguments pool_xp {St} _ _.
Arguments pool_D_call {St} _ _.
Arguments pool_D {St} _ _.
Arguments pool_get_y {St} _ _ _ _ _ _.
Arguments pool_price_scale {St} _ _.
Arguments pool_coin_names {St} _ _.
Arguments mul {St} _ _ _.
Arguments truediv {St} _ _ _.
Arguments to_int {St} _ _.
Arguments linspace_round {St} _ _ _ _.
Arguments plt {St} _ _ _.

(** A computation: from a state to a value or an exception, the new
    state and the calls made. *)
Definition M (St A : Type) : Type := St -> (exn + A) * St * list event.

Definition ret {St A : Type} (a : A) : M St A := fun s => (inr a, s, []).

Definition raise {St A : Type} (e : exn) : M St A := fun s => (inl e, s, []).

Definition bind {St A B : Type} (m : M St A) (f : A -> M St B) : M St B :=
  fun s =>
    match m s with
    | (inr a, s', tr) => let '(r, s'', tr') := f a s' in (r, s'', tr ++ tr')
    | (inl e, s', tr) => (inl e, s', tr)
    end.

Declare Scope curve_scope.
Delimit Scope curve_scope with curve.
Notation "x <- p ;; q" := (bind p (fun x => q)) : curve_scope.
Notation "p ;;; q" := (bind p (fun _ => q)) : curve_scope.
Local Open Scope curve_scope.

Definition external {A : Type} (a : foreign + A) : exn + A :=
  match a with inl f => inl (External f) | inr x => inr x end.

(** An operation without state, an attribute of the pool, a call. *)
Definition lift {St A : Type} (a : foreign + A) : M St A := fun s => (external a, s, []).

Definition read {St A : Type} (f : St -> foreign + A) : M St A :=
  fun s => (external (f s), s, []).

Definition call {St A : Type} (f : St -> (foreign + A) * St) (ev : event) : M St A :=
  fun s => (external (fst (f s)), snd (f s), [ev]).

(** A call of a function without state, observed. *)
Definition note {St A : Type} (a : foreign + A) (ev : event) : M St A :=
  fun s => (external a, s, [ev]).

(** [l[i]]: a negative index counts from the end. *)
Definition getitem {St A : Type} (l : list A) (i : Z) : M St A :=
  let k := if (i <? 0)%Z then (Z.of_nat (length l) + i)%Z else i in
  match (if (k <? 0)%Z then None else l !! Z.to_nat k) with
  | Some x => ret x
  | None => raise (IndexError "list index out of range")
  end.

(** A [for] loop that appends one result per element. *)
Fixpoint for_each {St A B : Type} (f : A -> M St B) (l : list A) : M St (list B) :=
  match l with
  | [] => ret []
  | a :: l' => b <- f a ;; bs <- for_each f l' ;; ret (b :: bs)
  end.

(** A [for] loop run for its effects. *)
Fixpoint for_do {St A : Type} (f : A -> M St unit) (l : list A) : M St unit :=
  match l with
  | [] => ret tt
  | a :: l' => f a ;;; for_do f l'
  end.

(** [itertools.combinations(iterable, r)]: the [r]-length subsequences,
    in lexicographic order of positions. *)
Fixpoint combinations {A : Type} (l : list A) (r : nat) : list (list A) :=
  match r with
  | O => [[]]
  | S r' =>
      match l with
      | [] => []
      | x :: l' => map (cons x) (combinations l' r') ++ combinations l' r
      end
  end.

(** [range(n)] *)
Definition range (n : Z) : list nat := seq 0 (Z.to_nat n).

(** [a, b = t] *)
Definition unpack2 {St A : Type} (t : list A) : M St (A * A) :=
  match t with
  | [a; b] => ret (a, b)
  | [] | [_] =>
      raise (ValueError ("not enough values to unpack (expected 2, got "
                         +:+ NilZero.string_of_uint (Nat.to_uint (length t)) +:+ ")"))
  | _ => raise (ValueError "too many values to unpack (expected 2)")
  end.

(** Dictionaries keyed by pairs of coin indices, in insertion order. *)
Definition dict (V : Type) : Type := list ((nat * nat) * V).

Fixpoint setitem {V : Type} (d : dict V) (k : nat * nat) (v : V) : dict V :=
  match d with
  | [] => [(k, v)]
  | (k', v') :: d' =>
      if decide (k' = k) then (k, v) :: d' else (k', v') :: setitem d' k v
  end.

Fixpoint lookup_key {V : Type} (d : dict V) (k : nat * nat) : option V :=
  match d with
  | [] => None
  | (k', v') :: d' => if decide (k' = k) then Some v' else lookup_key d' k
  end.

Definition keys {V : Type} (d : dict V) : list (nat * nat) := map fst d.

Definition getkey {St V : Type} (d : dict V) (k : nat * nat) : M St V :=
  match lookup_key d k with
  | Some v => ret v
  | None => raise (KeyError k)
  end.

Definition D_UNIT : Z := 10 ^ 18.

(** A bonding curve and the point of the current reserves. *)
Definition curve : Type := list (value * value).

Section Tool.
Context {St : Type} (pool : Env St).

(** [isinstance(pool, STABLESWAP)], where
    [STABLESWAP = CurvePool | CurveMetaPool | CurveRaiPool], and
    [isinstance(pool, CRYPTOSWAP)], where [CRYPTOSWAP = CurveCryptoPool]. *)
Definition STABLESWAP : bool :=
  is_CurvePool pool || is_CurveMetaPool pool || is_CurveRaiPool pool.

Definition CRYPTOSWAP : bool := is_CurveCryptoPool pool.

(** [v * D_UNIT / pool.price_scale[k - 1]] *)
Definition to_coin_units (k : nat) (v : value) : M St value :=
  scaled <- lift (mul pool v (Int D_UNIT)) ;;
  price_scale <- read (pool_price_scale pool) ;;
  price <- getitem price_scale (Z.of_nat k - 1) ;;
  lift (truediv pool scaled price).

(** The conversion applied to the two coordinates of a point, the same
    for the points of the curve and for the current point. *)
Definition convert (i j : nat) (x y : value) : M St (value * value) :=
  if CRYPTOSWAP then
    x <- (if (0 <? i)%nat then to_coin_units i x else ret x) ;;
    y <- (if (0 <? j)%nat then to_coin_units j y else ret y) ;;
    ret (x, y)
  else ret (x, y).

(** The body of [for x in xs]. *)
Definition point (i j : nat) (xp : list value) (x : value) : M St (value * value) :=
  x_int <- lift (to_int pool x) ;;
  y <- call (pool_get_y pool i j x_int xp) (CallGetY i j x_int xp) ;;
  x <- lift (truediv pool x (Int D_UNIT)) ;;
  y <- lift (truediv pool y (Int D_UNIT)) ;;
  convert i j x y.

(** The body of [for (i, j) in combos]. *)
Definition pair_body (D truncate : value) (resolution : Z) (xp : list value)
    (i j : nat) (acc : dict curve * dict (value * value))
    : M St (dict curve * dict (value * value)) :=
  product <- lift (mul pool D truncate) ;;
  truncated_D <- lift (to_int pool product) ;;
  x_limit <- call (pool_get_y pool j i truncated_D xp) (CallGetY j i truncated_D xp) ;;
  xs <- note (linspace_round pool truncated_D x_limit resolution)
          (CallLinspace truncated_D x_limit resolution) ;;
  curve <- for_each (point i j xp) xs ;;
  let pair_to_curve := setitem (fst acc) (i, j) curve in
  xp_i <- getitem xp (Z.of_nat i) ;;
  current_x <- lift (truediv pool xp_i (Int D_UNIT)) ;;
  xp_j <- getitem xp (Z.of_nat j) ;;
  current_y <- lift (truediv pool xp_j (Int D_UNIT)) ;;
  current <- convert i j current_x current_y ;;
  ret (pair_to_curve, setitem (snd acc) (i, j) current).

Fixpoint for_pairs (body : nat -> nat -> dict curve * dict (value * value)
                           -> M St (dict curve * dict (value * value)))
    (combos : list (list nat)) (acc : dict curve * dict (value * value))
    : M St (dict curve * dict (value * value)) :=
  match combos with
  | [] => ret acc
  | t :: combos' =>
      ij <- unpack2 t ;;
      acc' <- body (fst ij) (snd ij) acc ;;
      for_pairs body combos' acc'
  end.

(** [xs, ys = zip(...)] on the unpacked curve: its points transposed. *)
Definition unzip (c : curve) : M St (list value * list value) :=
  match c with
  | [] => raise (ValueError "not enough values to unpack (expected 2, got 0)")
  | _ => ret (map fst c, map snd c)
  end.

(** Iterating over [axs]. *)
Definition iterate (a : axes) : M St (list axes) :=
  match a with
  | AxesArray ids => ret (map Axes ids)
  | Axes _ => raise (TypeError "'Axes' object is not iterable")
  end.

Definition plt_call (ev : event) : M St unit :=
  call (plt pool ev) ev ;;; ret tt.

Definition _plot_bonding_curve (pair_to_curve : dict curve)
    (current_points : dict (value * value)) (labels : list string) (xp : list value)
    : M St unit :=
  let n := length pair_to_curve in
  axs <- call (plt pool (CallSubplots 1 n)) (CallSubplots 1 n) ;;
  axs <- (if (n =? 1)%nat then ret [axs] else iterate axs) ;;
  for_do (fun pair_ax =>
      let pair := fst pair_ax in
      let ax := snd pair_ax in
      curve <- getkey pair_to_curve pair ;;
      xs_ys <- unzip curve ;;
      plt_call (CallPlot ax (fst xs_ys) (snd xs_ys)) ;;;
      let i := fst pair in
      let j := snd pair in
      x_y <- getkey current_points (i, j) ;;
      plt_call (CallScatter ax (fst x_y) (snd x_y)) ;;;
      label_i <- getitem labels (Z.of_nat i) ;;
      plt_call (CallSetXlabel ax label_i) ;;;
      label_j <- getitem labels (Z.of_nat j) ;;
      plt_call (CallSetYlabel ax label_j))
    (zip (keys pair_to_curve) axs) ;;;
  plt_call CallShow.

(** [f"Coin {str(label)}"] *)
Definition coin_label (label : nat) : string :=
  "Coin " +:+ NilZero.string_of_uint (Nat.to_uint label).

(** The body of [bonding_curve] up to [if plot:]; it leaves
    [pair_to_curve], [current_points] and [xp]. *)
Definition curves (truncate : option value) (resolution : Z)
    : M St (dict curve * dict (value * value) * list value) :=
  combos <- (if is_CurveMetaPool pool then ret [[0; 1]]
             else n <- read (pool_n pool) ;; ret (combinations (range n) 2)) ;;
  xp <- call (pool_xp pool) CallXp ;;
  D_truncate <-
    (if STABLESWAP then
       D <- call (pool_D_call pool) CallD ;;
       ret (D, default (Float 0x1.0624dd2f1a9fcp-11) truncate)
     else if CRYPTOSWAP then
       D <- read (pool_D pool) ;;
       ret (D, default (Float 1) truncate)
     else
       raise (TypeError ("Bonding curve calculation not supported for "
                         +:+ type_repr pool))) ;;
  dicts <- for_pairs (pair_body (fst D_truncate) (snd D_truncate) resolution xp)
             combos ([], []) ;;
  ret (dicts, xp).

Definition bonding_curve (truncate : option value) (resolution : Z) (plot : bool)
    : M St (dict curve) :=
  computed <- curves truncate resolution ;;
  let pair_to_curve := fst (fst computed) in
  let current_points := snd (fst computed) in
  let xp := snd computed in
  (if plot then
     labels <- read (pool_coin_names pool) ;;
     labels <- (match labels with
                | [] => n <- read (pool_n pool) ;; ret (map coin_label (range n))
                | _ => ret labels
                end) ;;
     _plot_bonding_curve pair_to_curve current_points labels xp
   else ret tt) ;;;
  ret pair_to_curve.

End Tool.

Definition outcome {St A : Type} (x : (exn + A) * St * list event) : exn + A := fst (fst x).
Definition final {St A : Type} (x : (exn + A) * St * list event) : St := snd (fst x).
Definition trace {St A : Type} (x : (exn + A) * St * list event) : list event := snd x.

(** ** Reading results and traces *)

(** The pairs [(i, j)] with [i < j < n], in lexicographic order. *)
Definition index_pairs (n : Z) : list (nat * nat) :=
  flat_map (fun i => map (pair i) (seq (S i) (Z.to_nat n - S i))) (range n).

(** A pair of indices as the tuple [combinations] yields. *)
Definition as_tuple (p : nat * nat) : list nat := [fst p; snd p].

(** The calls of [get_y], of [linspace] and of matplotlib in a trace. *)
Definition get_y_calls (tr : list event) : list (nat * nat * Z * list value) :=
  omap (fun ev => match ev with CallGetY i j x xp => Some (i, j, x, xp) | _ => None end) tr.

Definition is_plt (ev : event) : bool :=
  match ev with
  | CallXp | CallD | CallGetY _ _ _ _ | CallLinspace _ _ _ => false
  | _ => true
  end.

Definition plotted (tr : list event) : list (list value * list value) :=
  omap (fun ev => match ev with CallPlot _ xs ys => Some (xs, ys) | _ => None end) tr.

Definition scattered (tr : list event) : list (value * value) :=
  omap (fun ev => match ev with CallScatter _ x y => Some (x, y) | _ => None end) tr.

Definition xlabels (tr : list event) : list string :=
  omap (fun ev => match ev with CallSetXlabel _ l => Some l | _ => None end) tr.

Definition ylabels (tr : list event) : list string :=
  omap (fun ev => match ev with CallSetYlabel _ l => Some l | _ => None end) tr.

Definition subplot_calls (tr : list event) : list (nat * nat) :=
  omap (fun ev => match ev with CallSubplots r c => Some (r, c) | _ => None end) tr.

(** A curve as [plot] is given it: the first coordinates, and the second. *)
Definition transposed (c : curve) : list value * list value := (map fst c, map snd c).

(** What a computation guarantees: [Q] of the value and the calls made
    when it returns, [E] of the exception when it raises, [T] of every
    call made either way. *)
Definition spec {St A : Type} (m : M St A) (Q : A -> list event -> Prop)
    (E : exn -> Prop) (T : event -> Prop) : Prop :=
  forall s, match outcome (m s) with
            | inr a => Q a (trace (m s))
            | inl e => E e
            end /\ Forall T (trace (m s)).

(** matplotlib's convention for [plt.subplots(1, n)]: one [Axes] for one
    column, an array of [n] of them for more. *)
Definition squeezes {St : Type} (pool : Env St) : Prop :=
  forall s n, match fst (plt pool (CallSubplots 1 n) s) with
              | inr (Axes _) => n = 1
              | inr (AxesArray ids) => n <> 1 /\ length ids = n
              | inl _ => True
              end.

(** An execution that comes after the calls [pre]. *)
Definition after {St A : Type} (pre : list event) (x : (exn + A) * St * list event)
    : (exn + A) * St * list event :=
  (outcome x, final x, pre ++ trace x).

(** The dictionary after the entries of [kvs] have been set, in order. *)
Definition set_all {V : Type} (d : dict V) (kvs : list ((nat * nat) * V)) : dict V :=
  fold_left (fun d kv => setitem d (fst kv) (snd kv)) kvs d.

Section Reading.
Context {St : Type} (pool : Env St).

(** The pairs the loop goes through, from the state [s] on. *)
Definition pairs_of (s : St) : foreign + list (nat * nat) :=
  if is_CurveMetaPool pool then inr [(0, 1)]
  else match pool_n pool s with
       | inl f => inl f
       | inr n => inr (index_pairs n)
       end.

(** The number of coins the loop ranges over. *)
Definition coins (s : St) : nat :=
  if is_CurveMetaPool pool then 2
  else match pool_n pool s with inr n => Z.to_nat n | inl _ => 0 end.

(** [truncate], or its default. *)
Definition truncate_or_default (truncate : option value) : value :=
  default (Float (if STABLESWAP pool then 0x1.0624dd2f1a9fcp-11 else 1)) truncate.

(** The loop over the pairs [ps], together with the [xp] that goes with
    its result. *)
Definition loop (truncate : option value) (resolution : Z) (ps : list (nat * nat))
    (xp : list value) (D : value)
    : M St (dict curve * dict (value * value) * list value) :=
  dicts <- for_pairs (pair_body pool D (truncate_or_default truncate) resolution xp)
             (map as_tuple ps) ([], []) ;;
  ret (dicts, xp).

(** The calls made before the loop. *)
Definition preamble : list event :=
  CallXp :: (if STABLESWAP pool then [CallD] else []).

(** What [if plot:] runs. *)
Definition plot_branch (computed : dict curve * dict (value * value) * list value)
    : M St unit :=
  labels <- read (pool_coin_names pool) ;;
  labels <- (match labels with
             | [] => n <- read (pool_n pool) ;; ret (map coin_label (range n))
             | _ => ret labels
             end) ;;
  _plot_bonding_curve pool (fst (fst computed)) (snd (fst computed)) labels (snd computed).

(** Where [D] comes from: [pool.D()] for a stableswap pool, the attribute
    [pool.D] for a cryptoswap pool; [s2] is the state the loop starts in. *)
Definition D_source (s : St) (D : value) (s2 : St) : Prop :=
  let s1 := snd (pool_xp pool s) in
  if STABLESWAP pool
  then fst (pool_D_call pool s1) = inr D /\ s2 = snd (pool_D_call pool s1)
  else CRYPTOSWAP pool = true /\ pool_D pool s1 = inr D /\ s2 = s1.

(** Indexing [xp] and [price_scale] for the pair [(i, j)] cannot fail, or
    an [IndexError] is allowed for. *)
Definition safe (E : exn -> Prop) (xp : list value) (i j : nat) : Prop :=
  (forall msg, E (IndexError msg)) \/
  (i < length xp /\ j < length xp /\
   (CRYPTOSWAP pool = true ->
    forall s scale, pool_price_scale pool s = inr scale ->
                    i <= length scale /\ j <= length scale)).

(** A curve with as many points as a call of [linspace] gave samples. *)
Definition sampled (resolution : Z) (c : curve) : Prop :=
  exists a b xs, linspace_round pool a b resolution = inr xs /\ length c = length xs.

End Reading.

(** ** An example pool *)

(** Python's arithmetic on ints and floats: an int is converted to the
    nearest float, the quotient of two ints is the float nearest to the
    exact quotient, [int] truncates towards zero. *)
Definition nearest_float (z : Z) : float :=
  SF2Prim (binary_normalize prec emax z 0 false).

Definition as_float (v : value) : foreign + float :=
  match v with
  | Float f => inr f
  | Int z =>
      if is_infinity (nearest_float z)
      then inl (Foreign "OverflowError" "int too large to convert to float")
      else inr (nearest_float z)
  end.

Definition py_mul (a b : value) : foreign + value :=
  match a, b with
  | Int x, Int y => inr (Int (x * y))
  | _, _ =>
      match as_float a, as_float b with
      | inr x, inr y => inr (Float (x * y))
      | inl e, _ | _, inl e => inl e
      end
  end.

Definition py_truediv (a b : value) : foreign + value :=
  match a, b with
  | Int x, Int y =>
      match x, y with
      | _, Z0 => inl (Foreign "ZeroDivisionError" "division by zero")
      | Z0, _ => inr (Float (if (y <? 0)%Z then (-0)%float else 0%float))
      | _, _ =>
          let q := SF2Prim (SFdiv prec emax
                              (S754_finite (x <? 0)%Z (Z.to_pos (Z.abs x)) 0)
                              (S754_finite (y <? 0)%Z (Z.to_pos (Z.abs y)) 0)) in
          if is_infinity q
          then inl (Foreign "OverflowError" "integer division result too large for a float")
          else inr (Float q)
      end
  | _, _ =>
      match as_float a, as_float b with
      | inr x, inr y =>
          if is_zero y then inl (Foreign "ZeroDivisionError" "float division by zero")
          else inr (Float (x / y))
      | inl e, _ | _, inl e => inl e
      end
  end.

Definition py_int (v : value) : foreign + Z :=
  match v with
  | Int z => inr z
  | Float f =>
      match Prim2SF f with
      | S754_zero _ => inr 0%Z
      | S754_finite s m e =>
          let a := match e with
                   | Zneg p => (Z.pos m / Z.pow_pos 2 p)%Z
                   | _ => (Z.pos m * 2 ^ e)%Z
                   end in
          inr (if s then (- a)%Z else a)
      | S754_infinity _ =>
          inl (Foreign "OverflowError" "cannot convert float infinity to integer")
      | S754_nan => inl (Foreign "ValueError" "cannot convert float NaN to integer")
      end
  end.

(** Evenly spaced samples from [start] to [stop], both included, each
    rounded to the nearest integer (ties to even). *)
Definition samples (start : Z) (stop : value) (num : Z) : foreign + list value :=
  if (num <? 0)%Z
  then inl (Foreign "ValueError" "Number of samples must be non-negative")
  else
    match as_float (Int start), as_float stop with
    | inr a, inr b =>
        let n := Z.to_nat num in
        let step := ((b - a) / nearest_float (num - 1))%float in
        inr (map (fun k =>
                    Float (py_round (if (0 <? k)%nat && (k =? n - 1)%nat then b
                                     else (nearest_float (Z.of_nat k) * step + a)%float)
                             0))
               (seq 0 n))
    | inl e, _ | _, inl e => inl e
    end.

(** A constant-product pool: putting the balance of coin [i] at [x] leaves
    [xp[i] * xp[j] // x] of coin [j]. *)
Definition product_get_y (i j : nat) (x : Z) (xp : list value) : foreign + value :=
  match xp !! i, xp !! j with
  | Some (Int a), Some (Int b) =>
      if (x =? 0)%Z
      then inl (Foreign "ZeroDivisionError" "integer division or modulo by zero")
      else inr (Int (a * b / x))
  | _, _ => inl (Foreign "IndexError" "list index out of range")
  end.

(** matplotlib, as far as it matters here: [subplots(1, n)] gives one
    [Axes] for [n = 1], an array of [n] for more, and refuses [n = 0]. *)
Definition figure (ev : event) : foreign + axes :=
  match ev with
  | CallSubplots _ 0 =>
      inl (Foreign "ValueError" "Number of columns must be a positive integer, not 0")
  | CallSubplots _ 1 => inr (Axes 0)
  | CallSubplots _ n => inr (AxesArray (seq 0 n))
  | _ => inr (Axes 0)
  end.

(** The example pool: of the class [CurveCryptoPool] when [crypto], of
    [CurvePool] otherwise, with the given balances, price scale and coin
    names.  Its state counts the calls of [get_y]. *)
Definition example (crypto : bool) (balances price_scale : list Z) (names : list string)
    : Env nat := {|
  is_CurvePool := negb crypto;
  is_CurveMetaPool := false;
  is_CurveRaiPool := false;
  is_CurveCryptoPool := crypto;
  type_repr := "<class 'Pool'>";
  pool_n s := inr (Z.of_nat (length balances));
  pool_xp s := (inr (map Int balances), s);
  pool_D_call s := (inr (Int (foldr Z.add 0%Z balances)), s);
  pool_D s := inr (Int (foldr Z.add 0%Z balances));
  pool_get_y i j x xp s := (product_get_y i j x xp, S s);
  pool_price_scale s := inr (map Int price_scale);
  pool_coin_names s := inr names;
  mul := py_mul;
  truediv := py_truediv;
  to_int := py_int;
  linspace_round := samples;
  plt ev s := (figure ev, s)
|}.

(** An object that is no pool of a known class. *)
Definition stranger : Env unit := {|
  is_CurvePool := false;
  is_CurveMetaPool := false;
  is_CurveRaiPool := false;
  is_CurveCryptoPool := false;
  type_repr := "<class 'dict'>";
  pool_n s := inr 3%Z;
  pool_xp s := (inr [], s);
  pool_D_call s := (inl (Foreign "AttributeError" "D"), s);
  pool_D s := inl (Foreign "AttributeError" "D");
  pool_get_y i j x xp s := (inl (Foreign "AttributeError" "get_y"), s);
  pool_price_scale s := inl (Foreign "AttributeError" "price_scale");
  pool_coin_names s := inl (Foreign "AttributeError" "coin_names");
  mul := py_mul;
  truediv := py_truediv;
  to_int := py_int;
  linspace_round := samples;
  plt ev s := (figure ev, s)
|}.

(** Constant-product pools of two and of three coins, of one thousand
    units each. *)
Definition two_coins : Env nat :=
  example false [1000 * 10 ^ 18; 1000 * 10 ^ 18]%Z [] [].

Definition three_coins : Env nat :=
  example false [1000 * 10 ^ 18; 1000 * 10 ^ 18; 1000 * 10 ^ 18]%Z [] [].

End BondingCurve.

(** * Properties *)

(** ** Rounding *)

(** [round] on values that are exactly representable rounds ties to even;
    on the others the binary value decides, as in CPython
    ([round(2.675, 2)] is [2.67]); the sign of zero is kept. *)
#[warnings="-inexact-float"]
Example py_round_examples :
  py_round 0.125 2 = 0.12%float ∧
  py_round 0.375 2 = 0.38%float ∧
  py_round 2.675 2 = 2.67%float ∧
  py_round (-0.001) 2 = (-0)%float ∧
  py_round infinity 2 = infinity.
Proof. repeat split; vm_compute; reflexivity. Qed.

(** The first waits of [explorer]. *)
#[warnings="-inexact-float"]
Example waits_examples :
  waits 7 t_wait0 = [0.2; 0.3; 0.45; 0.68; 1.02; 1.53; 2.29]%float.
Proof. vm_compute. reflexivity. Qed.

(** ** Running programs *)

(** Membership in a one-label trace. *)
Ltac single_label :=
  cbn; let H := fresh in intros H; apply list_elem_of_singleton in H; by simplify_eq.

Section Run.
Context {St : Type} (w : World St).

Lemma run_bind {A B : Type} (p : prog A) (f : A -> prog B) (st : mstate St) :
  run w (bind p f) st = andthen (run w p st) (fun a st' => run w (f a) st').
Proof.
  unfold andthen. revert st. induction p as [a|e| |X e k IH]; intros st; simpl.
  - destruct (run w (f a) st) as [[r st''] tr']. reflexivity.
  - reflexivity.
  - reflexivity.
  - destruct (handle w e st) as [[[x|x] st'] tr]; [reflexivity|].
    rewrite IH. destruct (run w (k x) st') as [[[a|e'|] st''] tr']; try reflexivity.
    destruct (run w (f a) st'') as [[r st3] tr3]. by rewrite app_assoc.
Qed.

(** One round of the [while True] loop of [explorer]. *)
Lemma explorer_loop_S (fuel : nat) (r : ref) (t : float) (st : mstate St) :
  run w (explorer_loop (S fuel) r t) st =
  let d := default ∅ (heap st !! r) in
  let a := http_get w (wst st) ETHERSCAN_URL d in
  let st1 := MState (heap st) (snd a) in
  match fst a with
  | inl f => (Raised (External f), st1, [LHttp ETHERSCAN_URL d])
  | inr resp =>
      match resp !! "result" with
      | None => (Raised (KeyError "result"), st1, [LHttp ETHERSCAN_URL d])
      | Some (VStr res) =>
          if String.prefix "Max rate limit reached" res then
            let '(r', st', tr') :=
              run w (explorer_loop fuel r (py_round (t * 1.5) 2))
                (MState (heap st) (elapse w (snd a) t)) in
            (r', st', LHttp ETHERSCAN_URL d :: LSleep t :: tr')
          else (Returned (VStr res), st1, [LHttp ETHERSCAN_URL d])
      | Some _ => (Raised (AttributeError "startswith"), st1, [LHttp ETHERSCAN_URL d])
      end
  end.
Proof.
  cbn [explorer_loop trigger bind run handle].
  destruct (http_get w (wst st) ETHERSCAN_URL (default ∅ (heap st !! r)))
    as [[f|resp] s']; cbn [fst snd raised]; [reflexivity|].
  unfold getitem. destruct (resp !! "result") as [[|res|l]|]; cbn; try reflexivity.
  destruct (String.prefix _ res); cbn; [|reflexivity].
  destruct (run w (explorer_loop fuel r _) _) as [[r' st'] tr']. reflexivity.
Qed.

(** The loop leaves the store alone. *)
Lemma explorer_loop_heap (fuel : nat) (r : ref) (t : float) (st : mstate St) :
  heap (final (run w (explorer_loop fuel r t) st)) = heap st.
Proof.
  revert t st. induction fuel as [|fuel IH]; intros t st; [reflexivity|].
  rewrite explorer_loop_S. cbv zeta.
  destruct (fst (http_get w _ _ _)) as [f|resp]; [reflexivity|].
  destruct (resp !! "result") as [[|res|l]|]; try reflexivity.
  destruct (String.prefix _ res); [|reflexivity].
  specialize (IH (py_round (t * 1.5) 2)
                (MState (heap st) (elapse w (snd (http_get w (wst st) ETHERSCAN_URL
                   (default ∅ (heap st !! r)))) t))).
  destruct (run w (explorer_loop fuel r _) _) as [[r' st'] tr']. exact IH.
Qed.

(** Every request of the loop sends the dictionary [params] refers to. *)
Lemma explorer_loop_requests (fuel : nat) (r : ref) (t : float) (st : mstate St) :
  ∀ url p, LHttp url p ∈ trace (run w (explorer_loop fuel r t) st) →
           url = ETHERSCAN_URL ∧ p = default ∅ (heap st !! r).
Proof.
  revert t st. induction fuel as [|fuel IH]; intros t st url p.
  - cbn. by intros ?%elem_of_nil.
  - rewrite explorer_loop_S. cbv zeta.
    destruct (fst (http_get w _ _ _)) as [f|resp].
    { single_label. }
    destruct (resp !! "result") as [[|res|l]|]; try single_label.
    destruct (String.prefix _ res); [|single_label].
    specialize (IH (py_round (t * 1.5) 2)
                  (MState (heap st) (elapse w (snd (http_get w (wst st) ETHERSCAN_URL
                     (default ∅ (heap st !! r)))) t)) url p).
    destruct (run w (explorer_loop fuel r _) _) as [[r' st'] tr']. cbn in *.
    rewrite !elem_of_cons. intros [H|[H|H]]; [by simplify_eq|done|by apply IH].
Qed.

(** The loop talks to the explorer and sleeps, nothing else. *)
Lemma explorer_loop_net (fuel : nat) (r : ref) (t : float) (st : mstate St) :
  Forall is_net (trace (run w (explorer_loop fuel r t) st)).
Proof.
  revert t st. induction fuel as [|fuel IH]; intros t st; [by constructor|].
  rewrite explorer_loop_S. cbv zeta.
  destruct (fst (http_get w _ _ _)) as [f|resp]; [by repeat constructor|].
  destruct (resp !! "result") as [[|res|l]|]; try by repeat constructor.
  destruct (String.prefix _ res); [|by repeat constructor].
  specialize (IH (py_round (t * 1.5) 2)
                (MState (heap st) (elapse w (snd (http_get w (wst st) ETHERSCAN_URL
                   (default ∅ (heap st !! r)))) t))).
  destruct (run w (explorer_loop fuel r _) _) as [[r' st'] tr'].
  by repeat constructor.
Qed.

Lemma net_no_bindings (tr : list label) : Forall is_net tr → bindings tr = [].
Proof. induction 1 as [|[] tr H _ IH]; cbn in *; done. Qed.

Lemma net_no_probes (tr : list label) : Forall is_net tr → probes tr = [].
Proof. induction 1 as [|[] tr H _ IH]; cbn in *; done. Qed.

Lemma net_no_calls (tr : list label) : Forall is_net tr → calls tr = [].
Proof. induction 1 as [|[] tr H _ IH]; cbn in *; done. Qed.

End Run.

(** ** The explorer client *)

Section Explorer.
Context {St : Type} (w : World St).
Variable ETHERSCAN_API_KEY : option string.

Lemma explorer_run (fuel : nat) (r : ref) (st : mstate St) :
  run w (explorer ETHERSCAN_API_KEY fuel r) st =
  run w (explorer_loop fuel r t_wait0)
    (MState (alter (fun d => {[ "apikey" := of_env ETHERSCAN_API_KEY ]} ∪ d) r (heap st))
            (wst st)).
Proof.
  unfold explorer. cbn [trigger bind run handle].
  by destruct (run w _ _) as [[r' st'] tr'].
Qed.

(** C9. [explorer] changes the caller's own dictionary: after the call
    (however it ends) the dictionary [params] refers to has the entry
    ["apikey"] set to the key, every other entry is as before, no other
    dictionary has changed, and every request was sent with the entry
    already in place. *)
Theorem explorer_updates_params (fuel : nat) (params : ref) (st : mstate St) (d : dict) :
  heap st !! params = Some d →
  let x := run w (explorer ETHERSCAN_API_KEY fuel params) st in
  ∃ d', heap (final x) !! params = Some d' ∧
        d' !! "apikey" = Some (of_env ETHERSCAN_API_KEY) ∧
        (∀ k, k ≠ "apikey" → d' !! k = d !! k) ∧
        (∀ r, r ≠ params → heap (final x) !! r = heap st !! r) ∧
        (∀ url p, LHttp url p ∈ trace x → p = d').
Proof.
  intros Hd x. exists (<["apikey" := of_env ETHERSCAN_API_KEY]> d).
  subst x. rewrite explorer_run.
  split_and!.
  - rewrite explorer_loop_heap. cbn. rewrite list_lookup_alter_eq, Hd. cbn.
    by rewrite insert_union_singleton_l.
  - apply lookup_insert_eq.
  - intros k Hk. by rewrite lookup_insert_ne.
  - intros r Hr. rewrite explorer_loop_heap. cbn. by rewrite list_lookup_alter_ne.
  - intros url p [_ ->]%explorer_loop_requests. cbn.
    rewrite list_lookup_alter_eq, Hd. cbn. by rewrite insert_union_singleton_l.
Qed.

(** C8. When every answer of the explorer reports rate limiting, the
    query goes on for ever: whatever the number of rounds observed, it has
    neither returned nor raised by then, having sent a request and slept
    in each of them. *)
Theorem explorer_retries_forever (fuel : nat) (params : ref) (st : mstate St) :
  (∀ s url d, rate_limited (fst (http_get w s url d))) →
  let x := run w (explorer ETHERSCAN_API_KEY fuel params) st in
  outcome x = Pending ∧
  length (requests (trace x)) = fuel ∧
  length (sleeps (trace x)) = fuel.
Proof.
  intros Hlim x. subst x. rewrite explorer_run.
  generalize t_wait0. generalize (MState
    (alter (fun d => {[ "apikey" := of_env ETHERSCAN_API_KEY ]} ∪ d) params (heap st)) (wst st)).
  induction fuel as [|fuel IH]; intros st' t; [done|].
  rewrite explorer_loop_S. cbv zeta.
  destruct (Hlim (wst st') ETHERSCAN_URL (default ∅ (heap st' !! params)))
    as (resp & res & -> & -> & ->).
  specialize (IH (MState (heap st') (elapse w (snd (http_get w (wst st') ETHERSCAN_URL
                   (default ∅ (heap st' !! params)))) t)) (py_round (t * 1.5) 2)).
  destruct (run w (explorer_loop fuel params _) _) as [[r' st''] tr'].
  cbn in *. destruct IH as (? & ? & ?). auto.
Qed.

End Explorer.

(** *** Back-off *)

Lemma explorer_loop_scripted (limited : list (foreign + dict)) (resp : dict) (res : string)
    (rest : list (foreign + dict)) (fuel : nat) (params : ref) (t : float) (h : list dict) :
  Forall rate_limited limited →
  resp !! "result" = Some (VStr res) →
  String.prefix "Max rate limit reached" res = false →
  length limited < fuel →
  let x := run scripted (explorer_loop fuel params t)
             (MState h (limited ++ inr resp :: rest)) in
  outcome x = Returned (VStr res) ∧
  sleeps (trace x) = waits (length limited) t ∧
  length (requests (trace x)) = S (length limited) ∧
  wst (final x) = rest.
Proof.
  intros Hlim Hresp Hres. revert fuel t.
  induction Hlim as [|a limited Ha _ IH]; intros fuel t Hfuel;
    (destruct fuel as [|fuel]; [cbn in Hfuel; lia|]); rewrite explorer_loop_S; cbn.
  - rewrite Hresp, Hres. done.
  - destruct Ha as (resp0 & res0 & -> & -> & ->).
    specialize (IH fuel (py_round (t * 1.5) 2) ltac:(cbn in Hfuel; lia)).
    cbn in IH.
    destruct (run scripted (explorer_loop fuel params _) _) as [[r' st'] tr'].
    cbn in *. destruct IH as (? & ? & ? & ?). split_and!; congruence.
Qed.

(** C4, as the code has it.  After [k] rate-limited answers followed by
    one that is not, [explorer] returns the [result] field of that last
    answer, having sent [k + 1] requests and slept [k] times: first 0.2,
    then each time the previous wait times 1.5 rounded to two decimals
    (the rounded value is what gets multiplied next).  The time slept in
    all is the sum of these waits. *)
Theorem explorer_backoff (ETHERSCAN_API_KEY : option string)
    (limited : list (foreign + dict)) (resp : dict) (res : string)
    (rest : list (foreign + dict)) (fuel : nat) (params : ref) (h : list dict) :
  Forall rate_limited limited →
  resp !! "result" = Some (VStr res) →
  String.prefix "Max rate limit reached" res = false →
  length limited < fuel →
  let x := run scripted (explorer ETHERSCAN_API_KEY fuel params)
             (MState h (limited ++ inr resp :: rest)) in
  outcome x = Returned (VStr res) ∧
  sleeps (trace x) = waits (length limited) t_wait0 ∧
  total_wait (sleeps (trace x)) = total_wait (waits (length limited) t_wait0) ∧
  length (requests (trace x)) = S (length limited) ∧
  wst (final x) = rest.
Proof.
  intros Hlim Hresp Hres Hfuel x. subst x. rewrite explorer_run. cbn [heap wst].
  destruct (explorer_loop_scripted limited resp res rest fuel params t_wait0
              (alter (fun d => {[ "apikey" := of_env ETHERSCAN_API_KEY ]} ∪ d) params h)
              Hlim Hresp Hres Hfuel) as (H1 & H2 & H3 & H4).
  split_and!; try done. by rewrite H2.
Qed.

(** The fifth wait is 1.02 (0.68 times 1.5), where 0.2 times 1.5^4 rounds
    to 1.01: after five rate-limited answers the time slept is not the sum
    of the terms [round(0.2 * 1.5^i, 2)]. *)
Lemma explorer_backoff_not_geometric :
  let x := run scripted (explorer None 6 0)
             (MState [∅] (replicate 5 (answer "Max rate limit reached")
                          ++ [answer "ok"])) in
  outcome x = Returned (VStr "ok") ∧
  sleeps (trace x) ≠ geometric_terms 5 t_wait0 ∧
  total_wait (sleeps (trace x)) ≠ total_wait (geometric_terms 5 t_wait0).
Proof.
  split_and!.
  - vm_compute. reflexivity.
  - intros H. apply (f_equal (map Prim2SF)) in H. vm_compute in H. discriminate.
  - intros H. apply (f_equal Prim2SF) in H. vm_compute in H. discriminate.
Qed.

(** ** Binding a contract *)

Section Contract.
Context {St : Type} (w : World St).
Variable ETHERSCAN_API_KEY : option string.

Lemma run_bind_Ret {A : Type} (p : prog A) (st : mstate St) :
  run w (x <- p ;; Ret x) st = run w p st.
Proof.
  rewrite run_bind. unfold andthen.
  destruct (run w p st) as [[[a|e|] st'] tr]; try reflexivity.
  cbn. by rewrite app_nil_r.
Qed.

Local Abbreviation abi_request := (abi_request ETHERSCAN_API_KEY).

Lemma ABI_run (fuel : nat) (address : string) (st : mstate St) :
  run w (ABI ETHERSCAN_API_KEY fuel address) st =
  run w (explorer_loop fuel (length (heap st)) t_wait0)
    (MState (heap st ++ [abi_request address]) (wst st)).
Proof.
  unfold ABI. cbn [trigger bind run handle].
  change (bind (Ret ?x) ?f) with (f x). cbv beta.
  rewrite run_bind_Ret, explorer_run. cbn [heap wst].
  replace (alter _ (length (heap st)) (heap st ++ [abi_query address]))
    with (heap st ++ [abi_request address]).
  - by destruct (run w _ _) as [[r' st'] tr'].
  - rewrite <- (Nat.add_0_r (length (heap st))). by rewrite alter_app_r.
Qed.

(** With at least one round of the loop, [ABI] starts with its request. *)
Lemma ABI_trace_head (fuel : nat) (address : string) (st : mstate St) :
  0 < fuel →
  ∃ tr, trace (run w (ABI ETHERSCAN_API_KEY fuel address) st) =
        LHttp ETHERSCAN_URL (abi_request address) :: tr.
Proof.
  intros Hfuel. rewrite ABI_run. destruct fuel as [|fuel]; [lia|].
  rewrite explorer_loop_S. cbn [heap wst]. cbv zeta.
  rewrite list_lookup_middle by done. cbn [default].
  destruct (fst (http_get w _ _ _)) as [f|resp]; [by eexists|].
  destruct (resp !! "result") as [[|res|l]|]; try by eexists.
  destruct (String.prefix _ res); [|by eexists].
  destruct (run w (explorer_loop fuel _ _) _) as [[r' st'] tr']. by eexists.
Qed.

Lemma contract_run (fuel : nat) (address : string) (abi : pyval) (st : mstate St) :
  run w (contract ETHERSCAN_API_KEY fuel address abi) st =
  if truthy abi then
    (match eth_contract w address abi with
     | Some f => Raised (External f)
     | None => Returned (Contract address abi)
     end, st, [LContract address abi])
  else
    match run w (ABI ETHERSCAN_API_KEY fuel address) st with
    | (Returned abi', st', tr) =>
        (match eth_contract w address abi' with
         | Some f => Raised (External f)
         | None => Returned (Contract address abi')
         end, st', tr ++ [LContract address abi'])
    | (Raised e, st', tr) => (Raised e, st', tr)
    | (Pending, st', tr) => (Pending, st', tr)
    end.
Proof.
  unfold contract. rewrite run_bind. unfold andthen. destruct (truthy abi).
  - cbn. by destruct (eth_contract w address abi).
  - destruct (run w (ABI _ _ _) st) as [[[abi'|e|] st'] tr]; try reflexivity.
    cbn. by destruct (eth_contract w address abi').
Qed.

Lemma falsy_cases (abi : pyval) :
  truthy abi = false ↔ abi = VNone ∨ abi = VStr "" ∨ abi = VList [].
Proof.
  split.
  - destruct abi as [|[|a s]|[|v l]]; cbn; intros; try discriminate; auto.
  - intros [->|[->| ->]]; reflexivity.
Qed.

(** C10. [contract] queries the explorer exactly when the [abi] argument
    is falsy, that is [None] (also the default), the empty string or the
    empty list.  A truthy [abi] is bound as supplied and nothing else
    happens; a falsy one, present or not, is replaced by the ABI fetched
    for the address, the first thing done being the request for it. *)
Theorem contract_fetches_iff_falsy (fuel : nat) (address : string) (abi : pyval)
    (st : mstate St) :
  0 < fuel →
  let x := run w (contract ETHERSCAN_API_KEY fuel address abi) st in
  (requests (trace x) ≠ [] ↔ truthy abi = false) ∧
  (truthy abi = false ↔ abi = VNone ∨ abi = VStr "" ∨ abi = VList []) ∧
  (truthy abi = true →
     trace x = [LContract address abi] ∧ final x = st ∧
     outcome x = match eth_contract w address abi with
                 | Some f => Raised (External f)
                 | None => Returned (Contract address abi)
                 end) ∧
  (truthy abi = false →
     (∃ tr, trace x = LHttp ETHERSCAN_URL (abi_request address) :: tr) ∧
     (∀ c, outcome x = Returned c →
           ∃ fetched, outcome (run w (ABI ETHERSCAN_API_KEY fuel address) st)
                        = Returned fetched ∧
                      c = Contract address fetched ∧
                      bindings (trace x) = [c])).
Proof.
  intros Hfuel x. subst x. rewrite contract_run.
  destruct (ABI_trace_head fuel address st Hfuel) as [tr0 Htr0].
  assert (Hb := net_no_bindings _ (explorer_loop_net w fuel (length (heap st)) t_wait0
    (MState (heap st ++ [abi_request address]) (wst st)))).
  split_and!.
  - destruct (truthy abi); [cbn; split; [done|discriminate]|].
    split; [done|intros _].
    destruct (run w (ABI _ _ _) st) as [[[abi'|e|] st'] tr];
      cbn in Htr0; subst tr; cbn; discriminate.
  - apply falsy_cases.
  - intros ->. done.
  - intros ->. split.
    + destruct (run w (ABI _ _ _) st) as [[[abi'|e|] st'] tr];
        cbn in Htr0; subst tr; cbn; by eexists.
    + intros c. rewrite <- ABI_run in Hb.
      destruct (run w (ABI _ _ _) st) as [[[abi'|e|] st'] tr]; cbn; try discriminate.
      destruct (eth_contract w address abi'); [discriminate|].
      intros [= <-]. exists abi'. split_and!; try done.
      unfold bindings in *. cbn in Hb. rewrite omap_app, Hb. done.
Qed.

End Contract.

(** ** The resolver *)

Section Resolver.
Context {St : Type} (w : World St).
Variable ETHERSCAN_API_KEY : option string.

Local Abbreviation resolve := (_underlying_coin_address ETHERSCAN_API_KEY).

(** One iteration of the probing loop. *)
Lemma probe_cons (c : contract_obj) (address : string) (n_fns i : Z)
    (fn : string) (rest : list string) (cur : option string) (st : mstate St) :
  run w (probe c address n_fns i (fn :: rest) cur) st =
  if bool_decide (fn ∈ functions_dir w c) then (Returned fn, st, [LDir c])
  else if (i =? n_fns)%Z then
    (Raised (ValueError ("Could not find underlying token for " +:+ address)), st,
     [LDir c])
  else
    let '(r, st', tr) := run w (probe c address n_fns (i + 1) rest (Some fn)) st in
    (r, st', LDir c :: tr).
Proof.
  cbn [probe trigger bind run handle].
  destruct (bool_decide _); [reflexivity|]. destruct (i =? n_fns)%Z; reflexivity.
Qed.

(** The probing loop over the three candidates. *)
Lemma probe_fns_run (c : contract_obj) (address : string) (st : mstate St) :
  run w (probe c address 2 0 fns None) st =
  let names := functions_dir w c in
  if bool_decide ("upgradeToAndCall" ∈ names) then
    (Returned "upgradeToAndCall", st, [LDir c])
  else if bool_decide ("underlying" ∈ names) then
    (Returned "underlying", st, [LDir c; LDir c])
  else if bool_decide ("token" ∈ names) then
    (Returned "token", st, [LDir c; LDir c; LDir c])
  else
    (Raised (ValueError ("Could not find underlying token for " +:+ address)), st,
     [LDir c; LDir c; LDir c]).
Proof.
  unfold fns. rewrite !probe_cons. cbn.
  repeat case_bool_decide; reflexivity.
Qed.

(** In general: a candidate found in the listing after [pre], none of
    which is there, is selected after one listing per candidate tried;
    what comes after it in the list is not looked at. *)
Lemma probe_first_match (c : contract_obj) (address : string) (n_fns i : Z)
    (pre : list string) (fn : string) (post : list string) (cur : option string)
    (st : mstate St) :
  Forall (fun x => x ∉ functions_dir w c) pre →
  fn ∈ functions_dir w c →
  (i + Z.of_nat (length pre) <= n_fns)%Z →
  run w (probe c address n_fns i (pre ++ fn :: post) cur) st =
  (Returned fn, st, replicate (S (length pre)) (LDir c)).
Proof.
  intros Hpre Hfn. revert i cur.
  induction Hpre as [|x pre Hx _ IH]; intros i cur Hi;
    cbn [app]; rewrite probe_cons.
  - by rewrite bool_decide_true.
  - rewrite bool_decide_false by done.
    destruct (Z.eqb_spec i n_fns) as [->|_]; [cbn in Hi; lia|].
    rewrite IH by (cbn in Hi; lia). reflexivity.
Qed.

Lemma ABI_net (fuel : nat) (address : string) (st : mstate St) :
  Forall is_net (trace (run w (ABI ETHERSCAN_API_KEY fuel address) st)).
Proof. rewrite ABI_run. apply explorer_loop_net. Qed.

(** Binding a contract lists nothing and calls nothing. *)
Lemma contract_quiet (fuel : nat) (address : string) (abi : pyval) (st : mstate St) :
  let x := run w (contract ETHERSCAN_API_KEY fuel address abi) st in
  probes (trace x) = [] ∧ calls (trace x) = [].
Proof.
  cbv zeta. rewrite contract_run. destruct (truthy abi); [done|].
  pose proof (ABI_net fuel address st) as Hnet.
  destruct (run w (ABI _ _ _) st) as [[[abi'|e|] st'] tr]; cbn in *;
    unfold probes, calls; rewrite ?omap_app;
    fold (probes tr); fold (calls tr);
    rewrite ?net_no_probes, ?net_no_calls by done; done.
Qed.

(** The accessor call that ends a resolution. *)
Lemma call_run (c : contract_obj) (fn : string) (st : mstate St) :
  run w (address' <- trigger (Call c fn) ;; Ret address') st =
  (to_result (raised (fst (eth_call w (wst st) c fn))),
   MState (heap st) (snd (eth_call w (wst st) c fn)), [LCall c fn]).
Proof.
  cbn. by destruct (eth_call w (wst st) c fn) as [[f|v] s'].
Qed.

(** The resolver, step by step. *)
Lemma resolve_run (fuel : nat) (address : string) (st : mstate St) :
  run w (resolve fuel address) st =
  andthen (run w (contract ETHERSCAN_API_KEY fuel address VNone) st) (fun c st1 =>
  andthen (run w (probe c address 2 0 fns None) st1) (fun fn st2 =>
  if String.eqb fn "upgradeToAndCall" then
    andthen (run w (ABI ETHERSCAN_API_KEY fuel AAVE_PROXY) st2) (fun abi st3 =>
    andthen (run w (contract ETHERSCAN_API_KEY fuel address abi) st3) (fun c' st4 =>
    run w (a <- trigger (Call c' "UNDERLYING_ASSET_ADDRESS") ;; Ret a) st4))
  else run w (a <- trigger (Call c fn) ;; Ret a) st2)).
Proof.
  unfold _underlying_coin_address. rewrite run_bind.
  destruct (run w (contract _ _ _ _) st) as [[[c|e|] st1] tr1];
    cbn [andthen]; try reflexivity.
  cbv zeta. change (Z.of_nat (length fns) - 1)%Z with 2%Z. rewrite run_bind.
  destruct (run w (probe _ _ _ _ _ _) st1) as [[[fn|e|] st2] tr2];
    cbn [andthen]; try reflexivity.
  rewrite run_bind. destruct (String.eqb fn "upgradeToAndCall").
  - rewrite run_bind.
    destruct (run w (ABI _ _ _) st2) as [[[abi|e|] st3] tr3];
      cbn [andthen]; try reflexivity.
    rewrite run_bind.
    destruct (run w (contract _ _ _ _) st3) as [[[c'|e|] st4] tr4];
      cbn [andthen]; try reflexivity.
    cbn [run fst snd app andthen]. rewrite call_run. by rewrite <- !app_assoc.
  - cbn [run andthen fst snd app]. by rewrite call_run.
Qed.

Lemma calls_app (tr tr' : list label) : calls (tr ++ tr') = calls tr ++ calls tr'.
Proof. apply omap_app. Qed.

Lemma calls_probe (c : contract_obj) (tr : list label) : calls (LDir c :: tr) = calls tr.
Proof. reflexivity. Qed.

Lemma probes_app (tr tr' : list label) : probes (tr ++ tr') = probes tr ++ probes tr'.
Proof. apply omap_app. Qed.

(** The module's statements raise no [ValueError] while querying the
    explorer or binding a contract. *)
Lemma explorer_loop_raises (fuel : nat) (r : ref) (t : float) (st : mstate St) (e : exn) :
  outcome (run w (explorer_loop fuel r t) st) = Raised e → ∀ msg, e ≠ ValueError msg.
Proof.
  revert t st. induction fuel as [|fuel IH]; intros t st; [discriminate|].
  rewrite explorer_loop_S. cbv zeta.
  destruct (fst (http_get w _ _ _)) as [f|resp]; [by intros [= <-]|].
  destruct (resp !! "result") as [[|res|l]|]; try by intros [= <-].
  destruct (String.prefix _ res); [|discriminate].
  specialize (IH (py_round (t * 1.5) 2)
                (MState (heap st) (elapse w (snd (http_get w (wst st) ETHERSCAN_URL
                   (default ∅ (heap st !! r)))) t))).
  by destruct (run w (explorer_loop fuel r _) _) as [[r' st'] tr'].
Qed.

Lemma ABI_raises (fuel : nat) (address : string) (st : mstate St) (e : exn) :
  outcome (run w (ABI ETHERSCAN_API_KEY fuel address) st) = Raised e →
  ∀ msg, e ≠ ValueError msg.
Proof. rewrite ABI_run. apply explorer_loop_raises. Qed.

Lemma contract_raises (fuel : nat) (address : string) (abi : pyval) (st : mstate St)
    (e : exn) :
  outcome (run w (contract ETHERSCAN_API_KEY fuel address abi) st) = Raised e →
  ∀ msg, e ≠ ValueError msg.
Proof.
  rewrite contract_run. destruct (truthy abi).
  - cbn. destruct (eth_contract w address abi); [by intros [= <-]|discriminate].
  - pose proof (ABI_raises fuel address st) as HA.
    destruct (run w (ABI _ _ _) st) as [[[abi'|e'|] st'] tr]; cbn in *;
      [|by intros [= <-]; apply HA|discriminate].
    destruct (eth_contract w address abi'); [by intros [= <-]|discriminate].
Qed.

Lemma call_raises {A : Type} (a : foreign + A) (e : exn) :
  to_result (raised a) = Raised e → ∀ msg, e ≠ ValueError msg.
Proof. destruct a; [by intros [= <-]|discriminate]. Qed.

(** A resolution calls at most one accessor, and exactly one when it
    returns. *)
Lemma resolve_calls (fuel : nat) (address : string) (st : mstate St) :
  let x := run w (resolve fuel address) st in
  length (calls (trace x)) ≤ 1 ∧
  (∀ v, outcome x = Returned v → length (calls (trace x)) = 1).
Proof.
  cbv zeta. rewrite resolve_run.
  pose proof (contract_quiet fuel address VNone st) as [_ Hq1].
  assert (Hfin : ∀ (r : result pyval) (cs : list (contract_obj * string)),
    (cs = [] ∧ (∀ v, r ≠ Returned v)) ∨ length cs = 1 →
    length cs ≤ 1 ∧ (∀ v, r = Returned v → length cs = 1)).
  { intros r cs [[-> Hr]|Hcs]; (split; [cbn; lia|]); [|done].
    intros v Hv. by destruct (Hr v). }
  destruct (run w (contract _ _ _ _) st) as [[[c|e|] st1] tr1];
    cbn [andthen]; cbn [trace snd] in Hq1;
    [|apply Hfin; left; by cbn [trace outcome fst snd]..].
  rewrite probe_fns_run. cbv zeta.
  repeat case_bool_decide; cbn [andthen String.eqb Ascii.eqb Bool.eqb];
    rewrite ?call_run; cbn [trace outcome fst snd];
    rewrite ?calls_app, ?Hq1;
    try (apply Hfin; by right); try (apply Hfin; by left).
  pose proof (net_no_calls _ (ABI_net fuel AAVE_PROXY st1)) as Hq2.
  destruct (run w (ABI _ _ _) st1) as [[[abi|e|] st3] tr3];
    cbn [andthen]; cbn [trace snd] in Hq2; cbn [trace outcome fst snd];
    rewrite ?calls_app, ?Hq1, ?Hq2; try (apply Hfin; by left).
  pose proof (contract_quiet fuel address abi st3) as [_ Hq3].
  destruct (run w (contract _ _ _ _) st3) as [[[c'|e|] st4] tr4];
    cbn [andthen]; cbn [trace snd] in Hq3; rewrite ?call_run; cbn [trace outcome fst snd];
    rewrite ?calls_app, ?Hq1, ?Hq2, ?Hq3;
    try (apply Hfin; by right); try (apply Hfin; by left).
Qed.

(** C1. The candidates are tried in the order [upgradeToAndCall],
    [underlying], [token], one listing of the contract's functions per
    candidate tried, and the first one found is selected.  With
    [underlying] and [token] both present (and no [upgradeToAndCall]) the
    accessor called is [underlying], after two listings; with [token]
    alone it is [token], after three; with [upgradeToAndCall] present
    there is a single listing, and no other candidate is looked at or
    called afterwards. *)
Theorem candidate_priority (fuel : nat) (address : string) (st st1 : mstate St)
    (c : contract_obj) (tr1 : list label) :
  run w (contract ETHERSCAN_API_KEY fuel address VNone) st = (Returned c, st1, tr1) →
  let names := functions_dir w c in
  let x := run w (resolve fuel address) st in
  ("upgradeToAndCall" ∈ names →
     ∃ tr, trace x = tr1 ++ LDir c :: tr ∧ probes tr = [] ∧
           ∀ c' fn, (c', fn) ∈ calls (trace x) → fn = "UNDERLYING_ASSET_ADDRESS") ∧
  ("upgradeToAndCall" ∉ names → "underlying" ∈ names →
     trace x = tr1 ++ [LDir c; LDir c; LCall c "underlying"] ∧
     calls (trace x) = [(c, "underlying")] ∧
     outcome x = to_result (raised (fst (eth_call w (wst st1) c "underlying")))) ∧
  ("upgradeToAndCall" ∉ names → "underlying" ∉ names → "token" ∈ names →
     trace x = tr1 ++ [LDir c; LDir c; LDir c; LCall c "token"] ∧
     calls (trace x) = [(c, "token")] ∧
     outcome x = to_result (raised (fst (eth_call w (wst st1) c "token")))).
Proof.
  intros Hc names x. subst names x. rewrite resolve_run.
  pose proof (contract_quiet fuel address VNone st) as [_ Hq1].
  rewrite Hc in Hq1 |- *. cbn [trace snd] in Hq1. cbn [andthen].
  rewrite probe_fns_run. cbv zeta. split_and!.
  - intros Hup. rewrite bool_decide_true by done.
    cbn [andthen String.eqb Ascii.eqb Bool.eqb].
    pose proof (ABI_net fuel AAVE_PROXY st1) as Hnet.
    destruct (run w (ABI _ _ _) st1) as [[[abi|e|] st3] tr3];
      cbn [andthen trace snd] in *.
    2,3: (eexists; split; [reflexivity|]); split; [by apply net_no_probes|];
      intros c' fn; rewrite calls_app, Hq1; cbn [app]; rewrite calls_probe;
      rewrite net_no_calls by done; by intros ?%elem_of_nil.
    pose proof (contract_quiet fuel address abi st3) as [Hp3 Hq3].
    destruct (run w (contract _ _ _ _) st3) as [[[c'|e|] st4] tr4];
      cbn [andthen trace snd] in *; rewrite ?call_run; cbn [trace snd app];
      (eexists; split; [reflexivity|]);
      rewrite ?calls_app, ?calls_probe, ?probes_app, ?calls_app, ?Hq1, ?Hp3, ?Hq3,
        ?(net_no_probes _ Hnet), ?(net_no_calls _ Hnet); cbn;
      (split; [done|]); intros c'' fn.
    + by intros [= _ ->]%list_elem_of_singleton.
    + by intros ?%elem_of_nil.
    + by intros ?%elem_of_nil.
  - intros Hup Hun. rewrite bool_decide_false, bool_decide_true by done.
    cbn [andthen String.eqb Ascii.eqb Bool.eqb]. rewrite call_run.
    cbn [trace outcome fst snd app]. by rewrite calls_app, Hq1.
  - intros Hup Hun Htok.
    rewrite !bool_decide_false, bool_decide_true by done.
    cbn [andthen String.eqb Ascii.eqb Bool.eqb]. rewrite call_run.
    cbn [trace outcome fst snd app]. by rewrite calls_app, Hq1.
Qed.

(** C6. Once the contract is bound, the resolver raises its own
    [ValueError] exactly when the contract has none of the three
    candidates; the message names the address, the three listings are all
    that happened since the binding, and no accessor has been called. *)
Theorem resolution_error_iff (fuel : nat) (address : string) (st st1 : mstate St)
    (c : contract_obj) (tr1 : list label) :
  run w (contract ETHERSCAN_API_KEY fuel address VNone) st = (Returned c, st1, tr1) →
  let names := functions_dir w c in
  let x := run w (resolve fuel address) st in
  let none :=
    ("upgradeToAndCall" ∉ names) ∧ ("underlying" ∉ names) ∧ ("token" ∉ names) in
  ((∃ msg, outcome x = Raised (ValueError msg)) ↔ none) ∧
  (none →
     outcome x = Raised (ValueError ("Could not find underlying token for " +:+ address)) ∧
     trace x = tr1 ++ [LDir c; LDir c; LDir c] ∧
     calls (trace x) = [] ∧
     final x = st1).
Proof.
  intros Hc names x none. subst names x none. rewrite resolve_run.
  pose proof (contract_quiet fuel address VNone st) as [_ Hq1].
  rewrite Hc in Hq1 |- *. cbn [trace snd] in Hq1. cbn [andthen].
  rewrite probe_fns_run. cbv zeta.
  assert (Hraise : ∀ (r : result pyval) (P : Prop),
    (∀ e, r = Raised e → ∀ msg, e ≠ ValueError msg) → ¬ P →
    ((∃ msg, r = Raised (ValueError msg)) ↔ P)).
  { intros r P Hr HP. split; [intros [msg Hmsg]|done]. by destruct (Hr _ Hmsg msg). }
  split.
  - repeat case_bool_decide; cbn [andthen String.eqb Ascii.eqb Bool.eqb].
    + apply Hraise; [|by intros (? & ? & ?)].
      pose proof (ABI_raises fuel AAVE_PROXY st1) as HA.
      destruct (run w (ABI _ _ _) st1) as [[[abi|e|] st3] tr3];
        cbn [andthen outcome fst] in *; [|by intros e' [= <-]; apply HA|done].
      pose proof (contract_raises fuel address abi st3) as HC.
      destruct (run w (contract _ _ _ _) st3) as [[[c'|e|] st4] tr4];
        cbn [andthen outcome fst] in *; [|by intros e' [= <-]; apply HC|done].
      rewrite call_run. cbn [outcome fst]. apply call_raises.
    + apply Hraise; [|by intros (? & ? & ?)]. rewrite call_run. apply call_raises.
    + apply Hraise; [|by intros (? & ? & ?)]. rewrite call_run. apply call_raises.
    + cbn [outcome fst]. split; [done|]. by eexists.
  - intros (Hup & Hun & Htok). rewrite !bool_decide_false by done.
    cbn [andthen outcome trace final fst snd]. split_and!; try done.
    by rewrite calls_app, Hq1.
Qed.

(** C2, as the code has it.  When [upgradeToAndCall] is the candidate
    found and the ABI fetched for the Aave proxy address is truthy, the
    resolver binds the input address again with that ABI and calls
    [UNDERLYING_ASSET_ADDRESS] on the new contract object, whatever the
    ABI of the contract itself holds besides [upgradeToAndCall]; this is
    the only accessor called. *)
Theorem proxy_override (fuel : nat) (address : string) (st st1 st2 : mstate St)
    (c : contract_obj) (tr1 tr2 : list label) (abi : pyval) :
  run w (contract ETHERSCAN_API_KEY fuel address VNone) st = (Returned c, st1, tr1) →
  "upgradeToAndCall" ∈ functions_dir w c →
  run w (ABI ETHERSCAN_API_KEY fuel AAVE_PROXY) st1 = (Returned abi, st2, tr2) →
  truthy abi = true →
  eth_contract w address abi = None →
  let x := run w (resolve fuel address) st in
  let c' := Contract address abi in
  trace x = tr1 ++ LDir c :: tr2
              ++ [LContract address abi; LCall c' "UNDERLYING_ASSET_ADDRESS"] ∧
  calls (trace x) = [(c', "UNDERLYING_ASSET_ADDRESS")] ∧
  outcome x =
    to_result (raised (fst (eth_call w (wst st2) c' "UNDERLYING_ASSET_ADDRESS"))) ∧
  (∃ tr, tr2 = LHttp ETHERSCAN_URL (abi_request ETHERSCAN_API_KEY AAVE_PROXY) :: tr).
Proof.
  intros Hc Hup Habi Htruthy Hbind x c'. subst x c'. rewrite resolve_run.
  pose proof (contract_quiet fuel address VNone st) as [_ Hq1].
  pose proof (net_no_calls _ (ABI_net fuel AAVE_PROXY st1)) as Hq2.
  assert (0 < fuel) as Hfuel.
  { destruct fuel; [|lia]. rewrite ABI_run in Habi. discriminate. }
  destruct (ABI_trace_head w ETHERSCAN_API_KEY fuel AAVE_PROXY st1 Hfuel) as [tr Htr].
  rewrite Hc in Hq1 |- *. rewrite Habi in Hq2, Htr. cbn [trace snd] in Hq1, Hq2, Htr.
  cbn [andthen]. rewrite probe_fns_run. cbv zeta.
  rewrite bool_decide_true by done. cbn [andthen String.eqb Ascii.eqb Bool.eqb].
  rewrite Habi. cbn [andthen]. rewrite contract_run, Htruthy, Hbind.
  cbn [andthen]. rewrite call_run. cbn [trace outcome fst snd app wst].
  split_and!; [done| |done|by eexists].
  by rewrite !calls_app, Hq1, calls_probe, calls_app, Hq2.
Qed.

End Resolver.

(** When the explorer answers the empty string for the Aave proxy address,
    [contract] takes the empty ABI for a missing one and fetches the ABI of
    the input address once more.  For [0xFFF], whose own ABI lists
    [UNDERLYING_ASSET_ADDRESS] next to [upgradeToAndCall], the resolution
    returns, and the accessor was called on a contract object bound to the
    contract's own ABI, not to the ABI fetched for the proxy address. *)
Lemma proxy_override_empty_abi :
  let w := demo "" in
  let st := MState [] tt in
  let x := run w (_underlying_coin_address None 1 "0xFFF") st in
  (∃ c st1 tr1,
     run w (contract None 1 "0xFFF" VNone) st = (Returned c, st1, tr1) ∧
     "upgradeToAndCall" ∈ functions_dir w c ∧
     outcome (run w (ABI None 1 AAVE_PROXY) st1) = Returned (VStr "")) ∧
  outcome x = Returned (VStr "0x999") ∧
  calls (trace x) = [(Contract "0xFFF" (VStr "abi-FFF"), "UNDERLYING_ASSET_ADDRESS")] ∧
  calls (trace x) ≠ [(Contract "0xFFF" (VStr ""), "UNDERLYING_ASSET_ADDRESS")].
Proof.
  split_and!.
  - exists (Contract "0xFFF" (VStr "abi-FFF")), (MState [abi_request None "0xFFF"] tt),
      [LHttp ETHERSCAN_URL (abi_request None "0xFFF"); LContract "0xFFF" (VStr "abi-FFF")].
    split_and!; [vm_compute; reflexivity|compute_done|vm_compute; reflexivity].
  - vm_compute. reflexivity.
  - vm_compute. reflexivity.
  - vm_compute. discriminate.
Qed.

(** ** The batch resolver *)

Lemma not_self_wrapped (v : pyval) : v ≠ VList [v].
Proof.
  intros H. apply (f_equal depth) in H. cbn in H. lia.
Qed.

Section Batch.
Context {St : Type} (w : World St).
Variable ETHERSCAN_API_KEY : option string.

Local Abbreviation resolve := (_underlying_coin_address ETHERSCAN_API_KEY).
Local Abbreviation resolve_many := (underlying_coin_addresses ETHERSCAN_API_KEY).

(** C7. Called with a single address (a string), the batch resolver is
    the resolver: same result, same final state, same trace, whatever
    the schedule, since nothing is gathered; a value returned is the
    resolver's value itself, not a list holding it. *)
Theorem scalar_pass_through (fuel : nat) (a : string) (sched : list nat)
    (st : mstate St) :
  await w sched (resolve_many fuel (AStr a)) st = run w (resolve fuel a) st ∧
  (∀ v, outcome (run w (resolve fuel a) st) = Returned v →
        outcome (await w sched (resolve_many fuel (AStr a)) st) = Returned v ∧
        outcome (await w sched (resolve_many fuel (AStr a)) st) ≠ Returned (VList [v])).
Proof.
  split; [reflexivity|]. intros v Hv. cbn [resolve_many underlying_coin_addresses await].
  rewrite Hv. split; [done|]. intros [= H]. by apply not_self_wrapped in H.
Qed.

End Batch.

(** ** Gathering in a world without memory *)

Section Gather.
Context {St : Type} (w : World St).
Hypothesis Hw : stateless w.

Lemma handle_stateless {X : Type} (e : eff X) (h : list dict) (s s' : St) :
  (handle w e (MState h s)).1.1 = (handle w e (MState h s')).1.1 ∧
  heap (handle w e (MState h s)).1.2 = heap (handle w e (MState h s')).1.2 ∧
  (handle w e (MState h s)).2 = (handle w e (MState h s')).2.
Proof using Hw.
  destruct Hw as [Hh Hc].
  destruct e; cbn; rewrite ?(Hh s s'), ?(Hc s s'); done.
Qed.

(** A coroutine behaves the same from any state of the world. *)
Lemma run_stateless {A : Type} (p : prog A) (h : list dict) (s s' : St) :
  outcome (run w p (MState h s)) = outcome (run w p (MState h s')) ∧
  heap (final (run w p (MState h s))) = heap (final (run w p (MState h s'))) ∧
  trace (run w p (MState h s)) = trace (run w p (MState h s')).
Proof using Hw.
  revert h s s'. induction p as [a|e| |X e k IH]; intros h s s'; try done.
  cbn [run]. pose proof (handle_stateless e h s s') as He.
  destruct (handle w e (MState h s)) as [[a [h1 s1]] tr1].
  destruct (handle w e (MState h s')) as [[a' [h2 s2]] tr2].
  cbn in He. destruct He as (<- & <- & <-).
  destruct a as [x|x]; [done|].
  specialize (IH x h1 s1 s2).
  destruct (run w (k x) (MState h1 s1)) as [[r1 st1] t1].
  destruct (run w (k x) (MState h1 s2)) as [[r2 st2] t2].
  cbn in *. destruct IH as (-> & -> & ->). done.
Qed.

Lemma turns_stateless {A : Type} (p : prog A) (h : list dict) (s s' : St) :
  turns w p (MState h s) = turns w p (MState h s').
Proof using Hw.
  revert h s s'. induction p as [a|e| |X e k IH]; intros h s s'; try done.
  cbn [turns]. pose proof (handle_stateless e h s s') as He.
  destruct (handle w e (MState h s)) as [[a [h1 s1]] tr1].
  destruct (handle w e (MState h s')) as [[a' [h2 s2]] tr2].
  cbn in He. destruct He as (<- & <- & <-).
  destruct a as [x|x]; [done|]. by rewrite (IH x h1 s1 s2).
Qed.

(** One turn of a task changes neither what it will end with nor, but for
    the turn taken, how long it needs. *)
Lemma step_task_spec (t : task) (s s0 : St) :
  let t' := (step_task w t s).1.1 in
  task_outcome w s0 t' = task_outcome w s0 t ∧
  match t.1 with
  | Vis _ _ =>
      task_turns w s0 t = match t'.1 with Raise _ => 1 | _ => S (task_turns w s0 t') end
  | _ => t' = t
  end.
Proof using Hw.
  destruct t as [[a|e| |X e k] h]; try done.
  unfold task_outcome, task_turns, step_task. cbn [fst snd run turns].
  pose proof (handle_stateless e h s s0) as He.
  destruct (handle w e (MState h s)) as [[a [h1 s1]] tr1].
  destruct (handle w e (MState h s0)) as [[a' [h2 s2]] tr2].
  cbn in He. destruct He as (<- & <- & <-). cbn [fst snd heap].
  destruct a as [x|x]; [done|].
  pose proof (run_stateless (k x) h1 s0 s2) as (Ho & _ & _).
  rewrite (turns_stateless (k x) h1 s2 s0).
  destruct (run w (k x) (MState h1 s2)) as [[r2 st2] t2].
  cbn in *. split; [done|]. by destruct (k x).
Qed.

Lemma gather_unfold (sched : list nat) (ts : list task) (s : St) :
  gather w sched ts s =
  match all_returned ts with
  | Some vs => (Returned vs, s, [])
  | None =>
      match sched with
      | [] => (Pending, s, [])
      | i :: sched' =>
          match ts !! i with
          | Some t =>
              let '(t', s', tr) := step_task w t s in
              match fst t' with
              | Raise e => (Raised e, s', tr)
              | _ =>
                  let '(r, s'', tr') := gather w sched' (<[i := t']> ts) s' in
                  (r, s'', tr ++ tr')
              end
          | None => gather w sched' ts s
          end
      end
  end.
Proof. by destruct sched. Qed.

Lemma all_returned_spec (ts : list task) (vs : list pyval) :
  all_returned ts = Some vs ↔ Forall2 (fun t v => t.1 = Ret v) ts vs.
Proof.
  revert vs. induction ts as [|[p h] ts IH]; intros vs; cbn.
  - split; [intros [= <-]; constructor|by intros ->%Forall2_nil_inv_l].
  - split.
    + destruct p as [v| | |]; try discriminate.
      destruct (all_returned ts) as [vs'|]; [|discriminate].
      intros [= <-]. constructor; [done|]. by apply IH.
    + intros (v & vs' & Hp & Hts & ->)%Forall2_cons_inv_l. cbn in Hp. subst p.
      apply IH in Hts. by rewrite Hts.
Qed.

Lemma all_returned_lookup (ts : list task) (vs : list pyval) (i : nat) (t : task) :
  all_returned ts = Some vs → ts !! i = Some t → ∃ v, t.1 = Ret v.
Proof.
  intros Hall%all_returned_spec Hi.
  destruct (Forall2_lookup_l _ _ _ _ _ Hall Hi) as (v & _ & Hv). by exists v.
Qed.

(** Putting back a task that ends as the one it replaces. *)
Lemma Forall2_insert_back (P : task → pyval → Prop) (ts : list task) (vs : list pyval)
    (i : nat) (t t' : task) :
  ts !! i = Some t → (∀ v, P t' v → P t v) →
  Forall2 P (<[i := t']> ts) vs → Forall2 P ts vs.
Proof.
  intros Hi Ht H. apply Forall2_same_length_lookup. split.
  - apply Forall2_length in H. by rewrite length_insert in H.
  - intros j t1 v Hj Hv. destruct (decide (i = j)) as [<-|Hne].
    + simplify_eq. apply Ht.
      eapply Forall2_lookup_lr; [exact H| |exact Hv].
      apply list_lookup_insert_eq. by eapply lookup_lt_Some.
    + eapply Forall2_lookup_lr; [exact H| |exact Hv].
      by rewrite list_lookup_insert_ne.
Qed.

Section Reference.
Variable s0 : St.

(** A gather that returns hands back, position by position, what the
    tasks return on their own. *)
Lemma gather_returned (sched : list nat) (ts : list task) (s : St) (vs : list pyval) :
  (gather w sched ts s).1.1 = Returned vs →
  Forall2 (fun t v => task_outcome w s0 t = Returned v) ts vs.
Proof using Hw.
  revert ts s. induction sched as [|i sched IH]; intros ts s;
    rewrite gather_unfold; destruct (all_returned ts) as [vs0|] eqn:Hall.
  1,3: intros [= <-]; apply all_returned_spec in Hall;
       eapply Forall2_impl; [exact Hall|]; intros [p h] v; cbn; by intros ->.
  - discriminate.
  - destruct (ts !! i) as [t|] eqn:Hi; [|apply IH].
    pose proof (step_task_spec t s s0) as [Hout _].
    destruct (step_task w t s) as [[t' s'] tr]. cbn [fst] in Hout.
    specialize (IH (<[i:=t']> ts) s').
    destruct (gather w sched (<[i:=t']> ts) s') as [[r s''] tr'].
    assert (r = Returned vs →
            Forall2 (fun t v => task_outcome w s0 t = Returned v) ts vs) as Hrec.
    { intros ->. apply (Forall2_insert_back _ ts vs i t t' Hi); [|by apply IH].
      intros v. by rewrite Hout. }
    destruct (t'.1); [exact Hrec|discriminate|exact Hrec..].
Qed.

(** A gather that raises raises what one of its tasks raises on its
    own. *)
Lemma gather_raised (sched : list nat) (ts : list task) (s : St) (e : exn) :
  (gather w sched ts s).1.1 = Raised e →
  ∃ j t, ts !! j = Some t ∧ task_outcome w s0 t = Raised e.
Proof using Hw.
  revert ts s. induction sched as [|i sched IH]; intros ts s;
    rewrite gather_unfold; destruct (all_returned ts) as [vs0|] eqn:Hall;
    try discriminate.
  destruct (ts !! i) as [t|] eqn:Hi; [|apply IH].
  pose proof (step_task_spec t s s0) as [Hout _].
  destruct (step_task w t s) as [[t' s'] tr]. cbn [fst] in Hout.
  specialize (IH (<[i:=t']> ts) s').
  destruct (gather w sched (<[i:=t']> ts) s') as [[r s''] tr'].
  assert (Hrec : r = Raised e → ∃ j t0, ts !! j = Some t0 ∧ task_outcome w s0 t0 = Raised e).
  { intros ->. destruct IH as (j & t0 & Hj & Ht0); [done|].
    destruct (decide (i = j)) as [<-|Hne].
    - rewrite list_lookup_insert_eq in Hj by (by eapply lookup_lt_Some).
      simplify_eq. exists i, t. by rewrite <- Hout.
    - rewrite list_lookup_insert_ne in Hj by done. by exists j, t0. }
  destruct (t'.1) as [v|e'| |X e0 k] eqn:Ht'; cbn [fst]; try exact Hrec.
  intros [= ->]. exists i, t. split; [done|]. rewrite <- Hout.
  unfold task_outcome. by rewrite Ht'.
Qed.

(** A task that needs no turn has returned or is stuck in its loop. *)
Lemma no_turns (t : task) :
  task_turns w s0 t = 0 →
  (∃ v, t.1 = Ret v) ∨ task_outcome w s0 t = Pending.
Proof.
  destruct t as [[v|e| |X e k] h]; unfold task_turns, task_outcome; cbn [fst snd turns].
  - intros _. left. by exists v.
  - discriminate.
  - intros _. by right.
  - destruct (handle w e (MState h s0)) as [[[x|x] st'] tr]; [discriminate|].
    by destruct (k x).
Qed.

Lemma count_occ_other (i j : nat) (sched : list nat) :
  i ≠ j → count_occ Nat.eq_dec (i :: sched) j = count_occ Nat.eq_dec sched j.
Proof. intros Hne. by apply count_occ_cons_neq. Qed.

(** A turn of a task that will return. *)
Lemma step_returning (t : task) (s : St) (v : pyval) :
  task_outcome w s0 t = Returned v →
  let t' := (step_task w t s).1.1 in
  task_outcome w s0 t' = Returned v ∧
  (∀ e, t'.1 ≠ Raise e) ∧
  (∀ n, task_turns w s0 t ≤ S n → task_turns w s0 t' ≤ n).
Proof using Hw.
  intros Ht t'. destruct (step_task_spec t s s0) as [Hout Hstep]. fold t' in Hout, Hstep.
  assert (Hnr : ∀ e, t'.1 ≠ Raise e).
  { intros e He. rewrite <- Hout in Ht. unfold task_outcome in Ht.
    rewrite He in Ht. done. }
  split_and!; [by rewrite Hout|done|].
  intros n Hn. destruct (t.1) as [v'|e| |X e k] eqn:Hp.
  - rewrite Hstep. unfold task_turns. rewrite Hp. cbn. lia.
  - unfold task_outcome in Ht. rewrite Hp in Ht. done.
  - unfold task_outcome in Ht. rewrite Hp in Ht. done.
  - rewrite Hstep in Hn. destruct (t'.1) as [v'|e'| |Y e' k'] eqn:Hp'; try lia.
    by destruct (Hnr e').
Qed.

(** A turn of a task that will raise: it raises now or is one turn
    closer to it. *)
Lemma step_raising (t : task) (s : St) (e : exn) :
  task_outcome w s0 t = Raised e →
  let t' := (step_task w t s).1.1 in
  task_outcome w s0 t' = Raised e ∧
  ((∃ e', t'.1 = Raise e') ∨
   (∀ n, task_turns w s0 t ≤ S n → task_turns w s0 t' ≤ n)).
Proof using Hw.
  intros Ht t'. destruct (step_task_spec t s s0) as [Hout Hstep]. fold t' in Hout, Hstep.
  split; [by rewrite Hout|].
  destruct (t.1) as [v'|e0| |X e0 k] eqn:Hp.
  - unfold task_outcome in Ht. rewrite Hp in Ht. done.
  - left. exists e0. by rewrite Hstep.
  - unfold task_outcome in Ht. rewrite Hp in Ht. done.
  - destruct (t'.1) as [v'|e1| |Y e1 k1] eqn:Hp'; [right|left; by exists e1|right..];
      intros n Hn; lia.
Qed.

(** When every task returns on its own and the schedule gives each the
    turns it needs, the gather returns their values in the order of the
    tasks. *)
Lemma gather_complete (sched : list nat) (ts : list task) (s : St) (vs : list pyval) :
  Forall2 (fun t v => task_outcome w s0 t = Returned v) ts vs →
  (∀ i t, ts !! i = Some t → task_turns w s0 t ≤ count_occ Nat.eq_dec sched i) →
  (gather w sched ts s).1.1 = Returned vs.
Proof using Hw.
  revert ts s. induction sched as [|i sched IH]; intros ts s Hvs Hturns;
    rewrite gather_unfold; destruct (all_returned ts) as [vs0|] eqn:Hall.
  1,3: cbn; f_equal; apply all_returned_spec in Hall;
       apply list_eq_same_length with (length ts);
       [by eapply eq_sym, Forall2_length|by eapply eq_sym, Forall2_length|];
       intros j v0 v Hj Hv0 Hv;
       destruct (lookup_lt_is_Some_2 ts j Hj) as [[p h] Ht];
       pose proof (Forall2_lookup_lr _ _ _ _ _ _ Hall Ht Hv0) as Hp;
       pose proof (Forall2_lookup_lr _ _ _ _ _ _ Hvs Ht Hv) as Ho;
       cbn in Hp; subst p; unfold task_outcome in Ho; cbn in Ho; congruence.
  - exfalso. assert (Forall2 (fun t v => t.1 = Ret v) ts vs) as Hret.
    { eapply Forall2_same_length_lookup_2; [by eapply Forall2_length|].
      intros j t v Hj Hv. pose proof (Forall2_lookup_lr _ _ _ _ _ _ Hvs Hj Hv) as Ho.
      specialize (Hturns j t Hj). cbn in Hturns.
      destruct (no_turns t) as [[v' Hv']|Hp]; [lia| |congruence].
      destruct t as [p h]. cbn in Hv'. subst p.
      unfold task_outcome in Ho. cbn in Ho |- *. congruence. }
    apply all_returned_spec in Hret. congruence.
  - destruct (ts !! i) as [t|] eqn:Hi.
    2: { apply IH; [done|]. intros j t Hj. specialize (Hturns j t Hj).
         rewrite count_occ_other in Hturns by congruence. done. }
    destruct (Forall2_lookup_l _ _ _ _ _ Hvs Hi) as (v & Hv & Ht).
    destruct (step_returning t s v Ht) as (Hout & Hnr & Hless).
    destruct (step_task w t s) as [[t' s'] tr]. cbn [fst] in Hout, Hnr, Hless.
    assert (Hrec : (gather w sched (<[i:=t']> ts) s').1.1 = Returned vs).
    { apply IH.
      - eapply Forall2_same_length_lookup_2.
        { rewrite length_insert. by eapply Forall2_length. }
        intros j t1 v1 Hj Hv1. destruct (decide (i = j)) as [<-|Hne].
        + rewrite list_lookup_insert_eq in Hj by (by eapply lookup_lt_Some).
          injection Hj as <-. congruence.
        + rewrite list_lookup_insert_ne in Hj by done.
          exact (Forall2_lookup_lr _ _ _ _ _ _ Hvs Hj Hv1).
      - intros j t1 Hj. destruct (decide (i = j)) as [<-|Hne].
        + rewrite list_lookup_insert_eq in Hj by (by eapply lookup_lt_Some).
          injection Hj as <-. apply Hless. specialize (Hturns i t Hi).
          by rewrite count_occ_cons_eq in Hturns.
        + rewrite list_lookup_insert_ne in Hj by done.
          specialize (Hturns j t1 Hj).
          by rewrite count_occ_other in Hturns. }
    destruct (gather w sched (<[i:=t']> ts) s') as [[r s''] tr'].
    cbn [fst] in Hrec. subst r.
    destruct (t'.1) as [v'|e'| |X e0 k] eqn:Ht'; try done.
    by destruct (Hnr e').
Qed.

(** When a task raises on its own and gets the turns it needs, the
    gather raises, whatever the other tasks do. *)
Lemma gather_fails (sched : list nat) (ts : list task) (s : St)
    (i : nat) (t : task) (e : exn) :
  ts !! i = Some t →
  task_outcome w s0 t = Raised e →
  task_turns w s0 t ≤ count_occ Nat.eq_dec sched i →
  ∃ e', (gather w sched ts s).1.1 = Raised e'.
Proof using Hw.
  revert ts s t. induction sched as [|j sched IH]; intros ts s t Hi Ht Hturns;
    rewrite gather_unfold; destruct (all_returned ts) as [vs0|] eqn:Hall.
  1,3: exfalso; destruct (all_returned_lookup _ _ _ _ Hall Hi) as [v Hv];
       destruct t as [p h]; cbn in Hv; subst p; discriminate.
  - exfalso. destruct (no_turns t) as [[v Hv]|Hp]; [cbn in Hturns; lia| |congruence].
    destruct t as [p h]; cbn in Hv; subst p; discriminate.
  - destruct (ts !! j) as [tj|] eqn:Hj.
    2: { eapply IH; [done..|]. by rewrite count_occ_other in Hturns by congruence. }
    assert (Hrec : ∀ tj' s', (j = i → (∃ e', tj'.1 = Raise e') ∨
                              task_turns w s0 tj' ≤ count_occ Nat.eq_dec sched i) →
                   (j = i → task_outcome w s0 tj' = Raised e) →
                   (∃ e', tj'.1 = Raise e') ∨
                   ∃ e', (gather w sched (<[j:=tj']> ts) s').1.1 = Raised e').
    { intros tj' s' Hcase Ho. destruct (decide (j = i)) as [->|Hne].
      - destruct (Hcase eq_refl) as [?|Hle]; [by left|right].
        apply (IH _ _ tj'); [|by apply Ho|done].
        apply list_lookup_insert_eq. by eapply lookup_lt_Some.
      - right. apply (IH _ _ t); [by rewrite list_lookup_insert_ne|done|].
        by rewrite count_occ_other in Hturns. }
    specialize (Hrec (step_task w tj s).1.1 (step_task w tj s).1.2).
    pose proof (step_raising tj s e) as Hsr. cbv zeta in Hsr.
    destruct (step_task w tj s) as [[tj' s'] tr]. cbn [fst snd] in Hrec, Hsr.
    destruct Hrec as [[e' He']|[e' He']].
    + intros ->. simplify_eq.
      destruct (Hsr Ht) as (_ & [?|Hless]); [by left|right].
      apply Hless. by rewrite count_occ_cons_eq in Hturns.
    + intros ->. simplify_eq. by destruct (Hsr Ht) as (? & _).
    + rewrite He'. by eexists.
    + destruct (gather w sched (<[j:=tj']> ts) s') as [[r s''] tr'].
      cbn [fst] in He'. subst r. destruct (tj'.1); by eexists.
Qed.

(** The first task to raise decides: when task [i] raises at its last turn
    in [pre ++ [i]] and no other task that raises has had all its turns
    within [pre], the gather raises the exception of task [i]. *)
Lemma gather_first_failure (pre post : list nat) (ts : list task) (s : St)
    (i : nat) (t : task) (e : exn) :
  ts !! i = Some t →
  task_outcome w s0 t = Raised e →
  task_turns w s0 t = S (count_occ Nat.eq_dec pre i) →
  (∀ j tj e', j ≠ i → ts !! j = Some tj → task_outcome w s0 tj = Raised e' →
              count_occ Nat.eq_dec pre j < task_turns w s0 tj) →
  (gather w (pre ++ i :: post) ts s).1.1 = Raised e.
Proof using Hw.
  revert ts s t. induction pre as [|j pre IH]; intros ts s t Hi Ht Hturns Hothers;
    rewrite gather_unfold; destruct (all_returned ts) as [vs0|] eqn:Hall;
    try (exfalso; destruct (all_returned_lookup _ _ _ _ Hall Hi) as [v Hv];
         destruct t as [p h]; cbn in Hv; subst p; discriminate).
  - cbn [app]. rewrite Hi.
    pose proof (step_raising t s e Ht) as Hsr. cbv zeta in Hsr.
    destruct (step_task w t s) as [[t' s'] tr]. cbn [fst snd] in Hsr.
    destruct Hsr as (Ht' & [[e' He']|Hless]).
    + rewrite He'. unfold task_outcome in Ht'. rewrite He' in Ht'. cbn in Ht'.
      by injection Ht' as ->.
    + exfalso. specialize (Hless 0). cbn in Hturns.
      destruct (no_turns t') as [[v Hv]|Hp]; [lia| |congruence].
      unfold task_outcome in Ht'. rewrite Hv in Ht'. discriminate.
  - cbn [app]. destruct (ts !! j) as [tj|] eqn:Hj.
    2: { apply (IH _ _ t); [done..| |].
         - rewrite count_occ_other in Hturns by congruence. done.
         - intros k tk e' Hk Htk Hek. specialize (Hothers k tk e' Hk Htk Hek).
           rewrite count_occ_other in Hothers by congruence. done. }
    pose proof (step_task_spec tj s s0) as [Hout Hstep].
    destruct (step_task w tj s) as [[tj' s'] tr]. cbn [fst] in Hout, Hstep.
    assert (Hinv : task_outcome w s0 tj = task_outcome w s0 tj' ∧
                   (∀ e', task_outcome w s0 tj = Raised e' →
                          1 < task_turns w s0 tj →
                          (∀ e'', tj'.1 ≠ Raise e'') ∧
                          task_turns w s0 tj = S (task_turns w s0 tj'))).
    { split; [done|]. intros e' He' Hgt. destruct (tj.1) as [v|e0| |X e0 k] eqn:Hp.
      - unfold task_outcome in He'. rewrite Hp in He'. done.
      - unfold task_turns in Hgt. rewrite Hp in Hgt. cbn in Hgt. lia.
      - unfold task_outcome in He'. rewrite Hp in He'. done.
      - destruct (tj'.1) as [v|e1| |Y e1 k1] eqn:Hp'; try lia; done. }
    destruct Hinv as [_ Hinv].
    destruct (decide (j = i)) as [->|Hne].
    + simplify_eq. rewrite count_occ_cons_eq in Hturns by done.
      destruct (Hinv e Ht ltac:(lia)) as [Hnr Hs].
      assert ((gather w (pre ++ i :: post) (<[i:=tj']> ts) s').1.1 = Raised e) as Hrec.
      { apply (IH _ _ tj').
        - apply list_lookup_insert_eq. by eapply lookup_lt_Some.
        - by rewrite Hout.
        - lia.
        - intros k tk e' Hk Htk Hek. rewrite list_lookup_insert_ne in Htk by done.
          specialize (Hothers k tk e' Hk Htk Hek).
          rewrite count_occ_other in Hothers by done. done. }
      destruct (gather w (pre ++ i :: post) (<[i:=tj']> ts) s') as [[r s''] tr'].
      cbn [fst] in Hrec. subst r.
      destruct (tj'.1) as [v|e1| |Y e1 k1] eqn:Hp'; try done. by destruct (Hnr e1).
    + assert (∀ e', task_outcome w s0 tj = Raised e' →
                    (∀ e'', tj'.1 ≠ Raise e'') ∧
                    count_occ Nat.eq_dec pre j < task_turns w s0 tj') as Hj'.
      { intros e' He'. specialize (Hothers j tj e' Hne Hj He').
        rewrite count_occ_cons_eq in Hothers by done.
        destruct (Hinv e' He' ltac:(lia)) as [Hnr Hs]. split; [done|lia]. }
      assert (∀ e'', tj'.1 ≠ Raise e'') as Hnr.
      { intros e'' He''. destruct (Hj' e'') as [Hnr _]; [|by destruct (Hnr e'')].
        rewrite <- Hout. unfold task_outcome. by rewrite He''. }
      assert ((gather w (pre ++ i :: post) (<[j:=tj']> ts) s').1.1 = Raised e) as Hrec.
      { apply (IH _ _ t).
        - by rewrite list_lookup_insert_ne.
        - done.
        - by rewrite count_occ_other in Hturns.
        - intros k tk e' Hk Htk Hek. destruct (decide (j = k)) as [<-|Hjk].
          + rewrite list_lookup_insert_eq in Htk by (by eapply lookup_lt_Some).
            injection Htk as <-. apply (Hj' e'). by rewrite <- Hout.
          + rewrite list_lookup_insert_ne in Htk by done.
            specialize (Hothers k tk e' Hk Htk Hek).
            rewrite count_occ_other in Hothers by done. done. }
      destruct (gather w (pre ++ i :: post) (<[j:=tj']> ts) s') as [[r s''] tr'].
      cbn [fst] in Hrec. subst r.
      destruct (tj'.1) as [v|e1| |Y e1 k1] eqn:Hp'; try done. by destruct (Hnr e1).
Qed.

End Reference.

End Gather.

(** ** Resolving alone: the store does not matter *)

Section Alone.
Context {St : Type} (w : World St).
Variable ETHERSCAN_API_KEY : option string.

Local Abbreviation resolve := (_underlying_coin_address ETHERSCAN_API_KEY).

Lemma andthen_same {A B : Type} (x y : result A * mstate St * list label)
    (f g : A → mstate St → result B * mstate St * list label) :
  same_but_heap x y →
  (∀ a st st', wst st = wst st' → same_but_heap (f a st) (g a st')) →
  same_but_heap (andthen x f) (andthen y g).
Proof.
  destruct x as [[[a|e|] st] tr], y as [[[a'|e'|] st'] tr'];
    intros (Ho & Hs & Ht); cbn in Ho, Hs, Ht; simplify_eq; try done.
  intros Hf. specialize (Hf a' st st' Hs). cbn [andthen].
  destruct (f a' st) as [[r1 st1] tr1], (g a' st') as [[r2 st2] tr2].
  destruct Hf as (Ho & Hs' & Ht). cbn in *. by subst.
Qed.

Lemma explorer_loop_same (fuel : nat) (r r' : ref) (t : float) (st st' : mstate St) :
  heap st !! r = heap st' !! r' → wst st = wst st' →
  same_but_heap (run w (explorer_loop fuel r t) st) (run w (explorer_loop fuel r' t) st').
Proof.
  revert t st st'. induction fuel as [|fuel IH]; intros t st st' Hd Hs; [done|].
  rewrite !explorer_loop_S. cbv zeta. rewrite <- Hd, <- Hs.
  destruct (fst (http_get w _ _ _)) as [f|resp]; [done|].
  destruct (resp !! "result") as [[|res|l]|]; try done.
  destruct (String.prefix _ res); [|done].
  specialize (IH (py_round (t * 1.5) 2)
    (MState (heap st) (elapse w (snd (http_get w (wst st) ETHERSCAN_URL
                                        (default ∅ (heap st !! r)))) t))
    (MState (heap st') (elapse w (snd (http_get w (wst st) ETHERSCAN_URL
                                        (default ∅ (heap st !! r)))) t)) Hd eq_refl).
  destruct (run w (explorer_loop fuel r _) _) as [[r1 st1] tr1].
  destruct (run w (explorer_loop fuel r' _) _) as [[r2 st2] tr2].
  destruct IH as (Ho & Hs' & Ht). cbn in *. by subst.
Qed.

Lemma ABI_same (fuel : nat) (address : string) (st st' : mstate St) :
  wst st = wst st' →
  same_but_heap (run w (ABI ETHERSCAN_API_KEY fuel address) st)
                (run w (ABI ETHERSCAN_API_KEY fuel address) st').
Proof.
  intros Hs. rewrite !ABI_run. apply explorer_loop_same; [|done].
  cbn. by rewrite !list_lookup_middle.
Qed.

Lemma contract_same (fuel : nat) (address : string) (abi : pyval) (st st' : mstate St) :
  wst st = wst st' →
  same_but_heap (run w (contract ETHERSCAN_API_KEY fuel address abi) st)
                (run w (contract ETHERSCAN_API_KEY fuel address abi) st').
Proof.
  intros Hs. rewrite !contract_run. destruct (truthy abi); [done|].
  pose proof (ABI_same fuel address st st' Hs) as (Ho & Hs' & Ht).
  destruct (run w (ABI _ _ _) st) as [[[a|e|] st1] tr1],
           (run w (ABI _ _ _) st') as [[[a'|e'|] st1'] tr1'];
    cbn in Ho, Hs', Ht; simplify_eq; done.
Qed.

(** The resolver returns or raises the same, and is seen doing the same,
    whatever dictionaries the caller holds. *)
Lemma resolve_same (fuel : nat) (address : string) (st st' : mstate St) :
  wst st = wst st' →
  same_but_heap (run w (resolve fuel address) st) (run w (resolve fuel address) st').
Proof.
  intros Hs. rewrite !resolve_run.
  apply andthen_same; [by apply contract_same|]. intros c st1 st1' Hs1.
  rewrite !probe_fns_run. cbv zeta.
  repeat case_bool_decide; cbn [andthen String.eqb Ascii.eqb Bool.eqb];
    rewrite ?call_run, ?Hs1; try done.
  assert (∀ (x y : result pyval * mstate St * list label) tr,
    same_but_heap x y →
    same_but_heap (let '(r, st'', tr') := x in (r, st'', tr ++ tr'))
                  (let '(r, st'', tr') := y in (r, st'', tr ++ tr'))) as Hlet.
  { intros [[r1 s1] t1] [[r2 s2] t2] tr (? & ? & ?). cbn in *. by subst. }
  apply Hlet. apply andthen_same; [by apply ABI_same|]. intros abi st3 st3' Hs3.
  apply andthen_same; [by apply contract_same|]. intros c' st4 st4' Hs4.
  rewrite !call_run, Hs4. done.
Qed.

End Alone.

(** ** The batch resolver on a collection *)

Section Collection.
Context {St : Type} (w : World St).
Hypothesis Hw : stateless w.
Variable ETHERSCAN_API_KEY : option string.

Local Abbreviation resolve := (_underlying_coin_address ETHERSCAN_API_KEY).
Local Abbreviation resolve_many := (underlying_coin_addresses ETHERSCAN_API_KEY).

(** The tasks the [for] loop builds, as gather starts them. *)
Lemma tasks_built {A B : Type} (f : A → B) (l : list A) (acc : list B) :
  fold_left (fun tasks a => tasks ++ [f a]) l acc = acc ++ map f l.
Proof.
  revert acc. induction l as [|a l IH]; intros acc; cbn; [by rewrite app_nil_r|].
  by rewrite IH, <- app_assoc.
Qed.

Lemma await_collection (fuel : nat) (l : list string) (sched : list nat) (st : mstate St) :
  outcome (await w sched (resolve_many fuel (AIter l)) st) =
  match (gather w sched (map (fun a => (resolve fuel a, [])) l) (wst st)).1.1 with
  | Returned vs => Returned (VList vs)
  | Raised e => Raised e
  | Pending => Pending
  end.
Proof.
  cbn [underlying_coin_addresses await]. rewrite tasks_built. cbn [app].
  rewrite map_map.
  by destruct (gather w sched _ (wst st)) as [[r s'] tr].
Qed.

Lemma task_alone (fuel : nat) (a : string) (st : mstate St) :
  task_outcome w (wst st) (resolve fuel a, []) = outcome (run w (resolve fuel a) st).
Proof.
  unfold task_outcome. cbn [fst snd].
  by destruct (resolve_same w ETHERSCAN_API_KEY fuel a (MState [] (wst st)) st eq_refl).
Qed.

(** C3.  In a world without memory, when resolving each address of the
    collection alone returns, the batch returns the list of these values
    in the order of the addresses: under any schedule it returns this
    list or has not returned yet, and it does return it under every
    schedule that gives each task the turns it needs, in whatever order
    the tasks then complete. *)
Theorem batch_order (fuel : nat) (l : list string) (vs : list pyval)
    (st : mstate St) (sched : list nat) :
  Forall2 (fun a v => outcome (run w (resolve fuel a) st) = Returned v) l vs →
  let x := await w sched (resolve_many fuel (AIter l)) st in
  (outcome x = Returned (VList vs) ∨ outcome x = Pending) ∧
  ((∀ i a, l !! i = Some a →
           task_turns w (wst st) (resolve fuel a, []) ≤ count_occ Nat.eq_dec sched i) →
   outcome x = Returned (VList vs)).
Proof using Hw.
  intros Hvs x. subst x. rewrite await_collection.
  assert (Forall2 (fun t v => task_outcome w (wst st) t = Returned v)
            (map (fun a => (resolve fuel a, [])) l) vs) as Hts.
  { apply Forall2_fmap_l. eapply Forall2_impl; [exact Hvs|].
    intros a v Hv. change (task_outcome w (wst st) (resolve fuel a, []) = Returned v).
    by rewrite task_alone. }
  split.
  - destruct (gather w sched _ (wst st)).1.1 as [vs'|e|] eqn:Hg; [left|exfalso|by right].
    + apply (gather_returned w Hw (wst st)) in Hg. do 2 f_equal.
      apply list_eq_same_length with (length l);
        [by rewrite <- (Forall2_length _ _ _ Hvs)
        |by rewrite <- (Forall2_length _ _ _ Hg), length_map|].
      intros j v1 v2 Hj Hv1 Hv2.
      destruct (lookup_lt_is_Some_2 (map (fun a => (resolve fuel a, @nil dict)) l) j)
        as [t Ht]; [by rewrite length_map|].
      pose proof (Forall2_lookup_lr _ _ _ _ _ _ Hg Ht Hv1).
      pose proof (Forall2_lookup_lr _ _ _ _ _ _ Hts Ht Hv2). congruence.
    + apply (gather_raised w Hw (wst st)) in Hg as (j & t & Hj & Ht).
      destruct (Forall2_lookup_l _ _ _ _ _ Hts Hj) as (v & _ & Hv). congruence.
  - intros Hturns. rewrite (gather_complete w Hw (wst st) _ _ _ vs); [done..|].
    intros i t Hi. rewrite list_lookup_fmap in Hi.
    destruct (l !! i) as [a|] eqn:Ha; [|done]. injection Hi as <-. by eapply Hturns.
Qed.

(** C5, as the code has it.  In a world without memory, when resolving
    one address of the collection alone raises, the batch returns no list
    under any schedule; an exception it raises is the very exception that
    resolving one of the addresses alone raises, with nothing wrapped
    around it; it does raise under every schedule that gives the failing
    task the turns it needs; and the exception is that of the task that
    raises first: the one whose last turn comes before any other failing
    task has had all of its own. *)
Theorem batch_failure (fuel : nat) (l : list string) (i : nat) (a : string) (e : exn)
    (st : mstate St) (sched : list nat) :
  l !! i = Some a →
  outcome (run w (resolve fuel a) st) = Raised e →
  let x := await w sched (resolve_many fuel (AIter l)) st in
  (∀ v, outcome x ≠ Returned v) ∧
  (∀ e', outcome x = Raised e' →
         ∃ j a', l !! j = Some a' ∧ outcome (run w (resolve fuel a') st) = Raised e') ∧
  (task_turns w (wst st) (resolve fuel a, []) ≤ count_occ Nat.eq_dec sched i →
   ∃ e', outcome x = Raised e') ∧
  (∀ pre post,
     sched = pre ++ i :: post →
     task_turns w (wst st) (resolve fuel a, []) = S (count_occ Nat.eq_dec pre i) →
     (∀ j a' e', j ≠ i → l !! j = Some a' →
                 outcome (run w (resolve fuel a') st) = Raised e' →
                 count_occ Nat.eq_dec pre j
                   < task_turns w (wst st) (resolve fuel a', [])) →
     outcome x = Raised e).
Proof using Hw.
  intros Ha He x. subst x. rewrite await_collection.
  assert (map (fun a => (resolve fuel a, @nil dict)) l !! i = Some (resolve fuel a, []))
    as Hi by (by rewrite list_lookup_fmap, Ha).
  assert (task_outcome w (wst st) (resolve fuel a, []) = Raised e) as Ht
    by (by rewrite task_alone).
  split_and!.
  - intros v. destruct (gather w sched _ (wst st)).1.1 as [vs'|e'|] eqn:Hg; try done.
    apply (gather_returned w Hw (wst st)) in Hg.
    destruct (Forall2_lookup_l _ _ _ _ _ Hg Hi) as (v' & _ & Hv'). congruence.
  - intros e'. destruct (gather w sched _ (wst st)).1.1 as [vs'|e''|] eqn:Hg; try done.
    intros [= ->]. apply (gather_raised w Hw (wst st)) in Hg as (j & t & Hj & Hr).
    rewrite list_lookup_fmap in Hj. destruct (l !! j) as [a'|] eqn:Ha'; [|done].
    injection Hj as <-. exists j, a'. by rewrite <- task_alone.
  - intros Hturns.
    destruct (gather_fails w Hw (wst st) sched _ (wst st) i _ e Hi Ht Hturns) as [e' He'].
    rewrite He'. by exists e'.
  - intros pre post -> Hturns Hothers.
    rewrite (gather_first_failure w Hw (wst st) pre post _ (wst st) i _ e Hi Ht Hturns);
      [done|].
    intros j tj e' Hj Htj He'. rewrite list_lookup_fmap in Htj.
    destruct (l !! j) as [a'|] eqn:Ha'; [|done]. injection Htj as <-.
    apply (Hothers j a' e' Hj Ha'). by rewrite <- task_alone.
Qed.

End Collection.

(** ** An explorer that throttles *)

Section Throttled.
Context {St : Type} (w : World St).
Variable ans : string -> dict -> foreign + dict.
Hypothesis Hw : settled w ans.
Variable ETHERSCAN_API_KEY : option string.

Local Abbreviation resolve := (_underlying_coin_address ETHERSCAN_API_KEY).

Lemma ends_bind {A B : Type} (p : prog A) (f : A → prog B) (h h1 h2 : list dict)
    (a : A) (r : result B) :
  ends w p h (Returned a) h1 → ends w (f a) h1 r h2 → ends w (bind p f) h r h2.
Proof.
  revert h. induction p as [a0|e| |X e k IH]; intros h; cbn [bind ends].
  - by intros [[= <-] ->].
  - discriminate.
  - done.
  - intros Hp Hf s. specialize (Hp s).
    destruct (handle w e (MState h s)) as [[[x|x] st'] tr]; [discriminate|].
    by apply IH.
Qed.

Lemma ends_bind_raise {A B : Type} (p : prog A) (f : A → prog B) (h h1 h2 : list dict)
    (e : exn) :
  ends w p h (Raised e) h1 → ends w (bind p f) h (Raised e) h2.
Proof.
  revert h. induction p as [a0|e0| |X e0 k IH]; intros h; cbn [bind ends].
  - by intros [[=] _].
  - by intros [= ->].
  - done.
  - intros Hp s. specialize (Hp s).
    destruct (handle w e0 (MState h s)) as [[[x|x] st'] tr]; [by injection Hp as ->|].
    by apply IH.
Qed.

(** What [ends] says of the executions. *)
Lemma ends_run {A : Type} (p : prog A) (h h' : list dict) (r : result A) (s : St) :
  ends w p h r h' →
  let x := run w p (MState h s) in
  outcome x = Pending ∨
  (outcome x = r ∧ ∀ a, r = Returned a → heap (final x) = h').
Proof.
  revert h s. induction p as [a0|e| |X e k IH]; intros h s; cbn [ends run].
  - intros [-> ->]. right. done.
  - intros ->. right. done.
  - intros _. by left.
  - intros Hp. specialize (Hp s).
    destruct (handle w e (MState h s)) as [[[x|x] [h1 s1]] tr].
    + subst r. right. done.
    + specialize (IH x h1 s1 Hp). cbv zeta in IH. cbn [heap] in IH.
      destruct (run w (k x) (MState h1 s1)) as [[r1 st1] tr1]. exact IH.
Qed.

Lemma faithful_bind {A B : Type} (p : prog A) (f : A → prog B) :
  faithful w p → (∀ a, faithful w (f a)) → faithful w (bind p f).
Proof.
  intros Hp Hf st. specialize (Hp st). rewrite run_bind.
  destruct (run w p st) as [[[a|e|] st1] tr1]; cbn [andthen].
  - specialize (Hf a st1).
    destruct (run w (f a) st1) as [[r st2] tr2]. cbn in *.
    intros Hr. eapply ends_bind; [by apply Hp|by apply Hf].
  - cbn in *. intros _. eapply ends_bind_raise. by apply Hp.
  - done.
Qed.

Lemma faithful_Ret {A : Type} (a : A) : faithful w (Ret a).
Proof. intros st _. done. Qed.

Lemma faithful_Raise {A : Type} (e : exn) : faithful w (@Raise A e).
Proof. intros st _. done. Qed.

Lemma faithful_trigger {X : Type} (e : eff X) : quiet e → faithful w (trigger e).
Proof using Hw.
  destruct Hw as [_ Hc].
  intros He st _. unfold trigger. cbn [ends run]. intros s.
  destruct e; try done; cbn.
  - by destruct (eth_contract w address abi).
  - rewrite (Hc s (wst st)). by destruct (eth_call w (wst st) c fn).1.
Qed.

Lemma rate_limited_round (a : foreign + dict) : rate_limited a → one_round a = None.
Proof. intros (resp & res & -> & Hres & Hp). cbn. by rewrite Hres, Hp. Qed.

(** One round of the loop, by what it makes of the answer. *)
Lemma explorer_loop_round (fuel : nat) (r : ref) (t : float) (st : mstate St) :
  run w (explorer_loop (S fuel) r t) st =
  let d := default ∅ (heap st !! r) in
  let a := http_get w (wst st) ETHERSCAN_URL d in
  match one_round (fst a) with
  | Some res => (res, MState (heap st) (snd a), [LHttp ETHERSCAN_URL d])
  | None =>
      let '(r', st', tr') :=
        run w (explorer_loop fuel r (py_round (t * 1.5) 2))
          (MState (heap st) (elapse w (snd a) t)) in
      (r', st', LHttp ETHERSCAN_URL d :: LSleep t :: tr')
  end.
Proof.
  rewrite explorer_loop_S. cbv zeta. unfold one_round.
  destruct (fst (http_get w _ _ _)) as [f|resp]; [done|].
  destruct (resp !! "result") as [[|res|l]|]; try done.
  by destruct (String.prefix _ res).
Qed.

(** An execution of the loop that ends tells what the answer due makes it
    end with. *)
Lemma explorer_loop_due (fuel : nat) (r : ref) (t : float) (st : mstate St) :
  outcome (run w (explorer_loop fuel r t) st) ≠ Pending →
  one_round (ans ETHERSCAN_URL (default ∅ (heap st !! r)))
    = Some (outcome (run w (explorer_loop fuel r t) st)).
Proof using Hw.
  destruct Hw as [Hh _].
  revert t st. induction fuel as [|fuel IH]; intros t st; [done|].
  rewrite explorer_loop_round. cbv zeta.
  destruct (Hh (wst st) ETHERSCAN_URL (default ∅ (heap st !! r))) as [Ha|Ha].
  - rewrite Ha. destruct (one_round (ans _ _)) as [res|] eqn:Hres; [done|].
    specialize (IH (py_round (t * 1.5) 2)
      (MState (heap st) (elapse w (snd (http_get w (wst st) ETHERSCAN_URL
                                         (default ∅ (heap st !! r)))) t))).
    destruct (run w (explorer_loop fuel r _) _) as [[r' st'] tr']. cbn in *.
    intros Hne. rewrite <- Hres. by apply IH.
  - rewrite (rate_limited_round _ Ha).
    specialize (IH (py_round (t * 1.5) 2)
      (MState (heap st) (elapse w (snd (http_get w (wst st) ETHERSCAN_URL
                                         (default ∅ (heap st !! r)))) t))).
    destruct (run w (explorer_loop fuel r _) _) as [[r' st'] tr']. cbn in *. exact IH.
Qed.

(** And then every execution of the loop ends that way, or goes on. *)
Lemma explorer_loop_ends (fuel : nat) (r : ref) (t : float) (h : list dict)
    (res : result pyval) :
  (∀ res', one_round (ans ETHERSCAN_URL (default ∅ (h !! r))) = Some res' → res' = res) →
  ends w (explorer_loop fuel r t) h res h.
Proof using Hw.
  destruct Hw as [Hh _]. intros Hres.
  revert t. induction fuel as [|fuel IH]; intros t; [done|].
  cbn [explorer_loop trigger bind ends handle]. intros s. cbn [heap wst fst snd].
  destruct (Hh s ETHERSCAN_URL (default ∅ (h !! r))) as [Ha|Ha].
  - rewrite Ha. unfold one_round in Hres.
    destruct (ans ETHERSCAN_URL _) as [f|resp]; cbn [raised].
    + symmetry. by apply Hres.
    + unfold getitem. destruct (resp !! "result") as [[|res0|l]|]; cbn [bind ends startswith].
      * symmetry. by apply Hres.
      * destruct (String.prefix _ res0); cbn [bind ends handle].
        -- intros s'. apply IH.
        -- split; [|done]. symmetry. by apply Hres.
      * symmetry. by apply Hres.
      * symmetry. by apply Hres.
  - destruct Ha as (resp & res0 & -> & Hr & Hp). cbn [raised].
    unfold getitem. rewrite Hr. cbn [bind ends startswith]. rewrite Hp.
    cbn [bind ends handle]. intros s'. apply IH.
Qed.

Lemma faithful_explorer_loop (fuel : nat) (r : ref) (t : float) :
  faithful w (explorer_loop fuel r t).
Proof using Hw.
  intros st Hne. rewrite explorer_loop_heap. apply explorer_loop_ends.
  intros res'. rewrite (explorer_loop_due fuel r t st Hne). by intros [= <-].
Qed.

Lemma faithful_explorer (fuel : nat) (r : ref) :
  faithful w (explorer ETHERSCAN_API_KEY fuel r).
Proof using Hw.
  apply faithful_bind; [by apply faithful_trigger|]. intros _.
  apply faithful_explorer_loop.
Qed.

Lemma faithful_ABI (fuel : nat) (address : string) :
  faithful w (ABI ETHERSCAN_API_KEY fuel address).
Proof using Hw.
  apply faithful_bind; [by apply faithful_trigger|]. intros p.
  apply faithful_bind; [apply faithful_explorer|]. intros abi. apply faithful_Ret.
Qed.

Lemma faithful_contract (fuel : nat) (address : string) (abi : pyval) :
  faithful w (contract ETHERSCAN_API_KEY fuel address abi).
Proof using Hw.
  apply faithful_bind.
  - destruct (truthy abi); [apply faithful_Ret|apply faithful_ABI].
  - intros abi'. apply faithful_bind; [by apply faithful_trigger|].
    intros c. apply faithful_Ret.
Qed.

Lemma faithful_probe (c : contract_obj) (address : string) (n_fns i : Z)
    (rest : list string) (cur : option string) :
  faithful w (probe c address n_fns i rest cur).
Proof using Hw.
  revert i cur. induction rest as [|fn rest IH]; intros i cur; cbn [probe].
  - destruct cur; [apply faithful_Ret|apply faithful_Raise].
  - apply faithful_bind; [by apply faithful_trigger|]. intros names.
    destruct (bool_decide _); [apply faithful_Ret|].
    destruct (i =? n_fns)%Z; [apply faithful_Raise|apply IH].
Qed.

(** The resolver ends the same way in each of its executions that end. *)
Lemma faithful_resolve (fuel : nat) (address : string) :
  faithful w (resolve fuel address).
Proof using Hw.
  apply faithful_bind; [apply faithful_contract|]. intros c. cbv zeta.
  apply faithful_bind; [apply faithful_probe|]. intros fn.
  apply faithful_bind.
  - destruct (String.eqb fn "upgradeToAndCall"); [|apply faithful_Ret].
    apply faithful_bind; [apply faithful_ABI|]. intros abi.
    apply faithful_bind; [apply faithful_contract|]. intros c'. apply faithful_Ret.
  - intros cfn. apply faithful_bind; [by apply faithful_trigger|].
    intros a. apply faithful_Ret.
Qed.

End Throttled.

Section GatherThrottled.
Context {St : Type} (w : World St).

Lemma step_ends (t : task) (s : St) (r : result pyval) (h' : list dict) :
  ends w t.1 t.2 r h' →
  ends w (step_task w t s).1.1.1 (step_task w t s).1.1.2 r h'.
Proof.
  destruct t as [[a|e| |X e k] h]; try done.
  unfold step_task. cbn [fst snd ends]. intros Hp. specialize (Hp s).
  by destruct (handle w e (MState h s)) as [[[x|x] st'] tr].
Qed.

Lemma gather_returned_length (sched : list nat) (ts : list task) (s : St)
    (vs : list pyval) :
  (gather w sched ts s).1.1 = Returned vs → length vs = length ts.
Proof.
  revert ts s. induction sched as [|i sched IH]; intros ts s;
    rewrite gather_unfold; destruct (all_returned ts) as [vs0|] eqn:Hall.
  1,3: intros [= <-]; apply all_returned_spec in Hall; symmetry;
       by eapply Forall2_length.
  - discriminate.
  - destruct (ts !! i) as [t|] eqn:Hi; [|apply IH].
    destruct (step_task w t s) as [[t' s'] tr].
    specialize (IH (<[i:=t']> ts) s'). rewrite length_insert in IH.
    destruct (gather w sched (<[i:=t']> ts) s') as [[r s''] tr'].
    destruct (t'.1); [exact IH|discriminate|exact IH..].
Qed.

(** A task that can only end with [r] has returned, when the gather
    returns, and [r] is its value. *)
Lemma gather_returned_at (sched : list nat) (ts : list task) (s : St) (vs : list pyval)
    (i : nat) (t : task) (r : result pyval) (h' : list dict) :
  ts !! i = Some t → ends w t.1 t.2 r h' →
  (gather w sched ts s).1.1 = Returned vs →
  ∃ v, vs !! i = Some v ∧ r = Returned v.
Proof.
  revert ts s t. induction sched as [|j sched IH]; intros ts s t Hi Ht;
    rewrite gather_unfold; destruct (all_returned ts) as [vs0|] eqn:Hall.
  1,3: intros [= <-]; apply all_returned_spec in Hall;
       destruct (Forall2_lookup_l _ _ _ _ _ Hall Hi) as (v & Hv & Hp);
       exists v; split; [done|]; destruct t as [p h]; cbn in Hp; subst p;
       by destruct Ht.
  - discriminate.
  - destruct (ts !! j) as [tj|] eqn:Hj; [|by apply (IH _ _ t)].
    pose proof (step_ends tj s) as Hstep.
    destruct (step_task w tj s) as [[tj' s'] tr]. cbn [fst snd] in Hstep.
    assert ((gather w sched (<[j:=tj']> ts) s').1.1 = Returned vs →
            ∃ v, vs !! i = Some v ∧ r = Returned v) as Hrec.
    { destruct (decide (j = i)) as [->|Hne].
      - simplify_eq. apply (IH _ _ tj'); [|by apply Hstep].
        apply list_lookup_insert_eq. by eapply lookup_lt_Some.
      - apply (IH _ _ t); [by rewrite list_lookup_insert_ne|done]. }
    destruct (gather w sched (<[j:=tj']> ts) s') as [[r0 s''] tr'].
    destruct (tj'.1); [exact Hrec|discriminate|exact Hrec..].
Qed.

(** When each task can only end in one way, an exception raised by the
    gather is the way one of them ends. *)
Lemma gather_raised_ends (sched : list nat) (ts : list task) (s : St)
    (rs : list (result pyval)) (e : exn) :
  Forall2 (fun t r => ∃ h', ends w t.1 t.2 r h') ts rs →
  (gather w sched ts s).1.1 = Raised e →
  ∃ j, rs !! j = Some (Raised e).
Proof.
  revert ts s. induction sched as [|i sched IH]; intros ts s Hts;
    rewrite gather_unfold; destruct (all_returned ts) as [vs0|] eqn:Hall;
    try discriminate.
  destruct (ts !! i) as [t|] eqn:Hi; [|by apply IH].
  destruct (Forall2_lookup_l _ _ _ _ _ Hts Hi) as (r & Hr & h' & Ht).
  pose proof (step_ends t s r h' Ht) as Hstep.
  destruct (step_task w t s) as [[t' s'] tr]. cbn [fst snd] in Hstep.
  assert ((gather w sched (<[i:=t']> ts) s').1.1 = Raised e →
          ∃ j, rs !! j = Some (Raised e)) as Hrec.
  { apply IH. rewrite <- (list_insert_id rs i r Hr).
    apply Forall2_insert; [done|]. by exists h'. }
  destruct (gather w sched (<[i:=t']> ts) s') as [[r0 s''] tr'].
  destruct (t'.1) as [v|e'| |X e0 k] eqn:Hp; try exact Hrec.
  cbn. intros [= ->]. exists i. rewrite Hr. destruct t' as [p ht]. cbn in Hp. subst p.
  cbn in Hstep. by subst r.
Qed.

End GatherThrottled.

Section CollectionThrottled.
Context {St : Type} (w : World St).
Variable ans : string -> dict -> foreign + dict.
Hypothesis Hw : settled w ans.
Variable ETHERSCAN_API_KEY : option string.

Local Abbreviation resolve := (_underlying_coin_address ETHERSCAN_API_KEY).
Local Abbreviation resolve_many := (underlying_coin_addresses ETHERSCAN_API_KEY).

Lemma task_ends (fuel : nat) (a : string) (st : mstate St) :
  outcome (run w (resolve fuel a) st) ≠ Pending →
  ∃ h', ends w (resolve fuel a) [] (outcome (run w (resolve fuel a) st)) h'.
Proof using Hw.
  intros Hne.
  destruct (resolve_same w ETHERSCAN_API_KEY fuel a (MState [] (wst st)) st eq_refl)
    as (Ho & _ & _).
  rewrite <- Ho in Hne |- *. eexists.
  by apply (faithful_resolve w ans Hw ETHERSCAN_API_KEY fuel a (MState [] (wst st))).
Qed.

(** With an explorer that throttles as it pleases, the order is kept all
    the same: when resolving each address alone returns, the batch, under
    any schedule, returns the list of these values in the order of the
    addresses or has not returned yet. *)
Theorem batch_order_throttled (fuel : nat) (l : list string) (vs : list pyval)
    (st : mstate St) (sched : list nat) :
  Forall2 (fun a v => outcome (run w (resolve fuel a) st) = Returned v) l vs →
  let x := await w sched (resolve_many fuel (AIter l)) st in
  outcome x = Returned (VList vs) ∨ outcome x = Pending.
Proof using Hw.
  intros Hvs x. subst x. rewrite (await_collection w).
  assert (Forall2 (fun t r => ∃ h', ends w t.1 t.2 r h')
            (map (fun a => (resolve fuel a, @nil dict)) l) (map Returned vs)) as Hts.
  { apply Forall2_fmap. eapply Forall2_impl; [exact Hvs|].
    intros a v Hv. cbn [fst snd]. rewrite <- Hv. apply task_ends. by rewrite Hv. }
  destruct (gather w sched _ (wst st)).1.1 as [vs'|e|] eqn:Hg; [left|exfalso|by right].
  - do 2 f_equal. apply list_eq_same_length with (length l).
    + by rewrite <- (Forall2_length _ _ _ Hvs).
    + by rewrite (gather_returned_length w _ _ _ _ Hg), length_map.
    + intros j v1 v2 Hj Hv1 Hv2.
      destruct (lookup_lt_is_Some_2 (map (fun a => (resolve fuel a, @nil dict)) l) j)
        as [t Ht]; [by rewrite length_map|].
      destruct (Forall2_lookup_l _ _ _ _ _ Hts Ht) as (r & Hr & h' & He).
      destruct (gather_returned_at w _ _ _ _ _ _ _ _ Ht He Hg) as (v & Hv & ->).
      rewrite list_lookup_fmap, Hv2 in Hr. cbn in Hr. congruence.
  - destruct (gather_raised_ends w _ _ _ _ _ Hts Hg) as [j Hj].
    rewrite list_lookup_fmap in Hj. by destruct (vs !! j).
Qed.

(** And a failure is passed on as it is: when resolving one address alone
    raises, the batch returns no list under any schedule; and when
    resolving each address alone ends, an exception the batch raises is the
    one that resolving one of the addresses alone raises. *)
Theorem batch_failure_throttled (fuel : nat) (l : list string) (i : nat) (a : string)
    (e : exn) (st : mstate St) (sched : list nat) :
  l !! i = Some a →
  outcome (run w (resolve fuel a) st) = Raised e →
  let x := await w sched (resolve_many fuel (AIter l)) st in
  (∀ v, outcome x ≠ Returned v) ∧
  ((∀ j a', l !! j = Some a' → outcome (run w (resolve fuel a') st) ≠ Pending) →
   ∀ e', outcome x = Raised e' →
         ∃ j a', l !! j = Some a' ∧ outcome (run w (resolve fuel a') st) = Raised e').
Proof using Hw.
  intros Ha He x. subst x. rewrite (await_collection w). split.
  - intros v. destruct (gather w sched _ (wst st)).1.1 as [vs'|e'|] eqn:Hg; try done.
    destruct (task_ends fuel a st) as [h' Hends]; [by rewrite He|]. rewrite He in Hends.
    assert (map (fun a => (resolve fuel a, @nil dict)) l !! i = Some (resolve fuel a, []))
      as Hi by (by rewrite list_lookup_fmap, Ha).
    destruct (gather_returned_at w _ _ _ _ _ _ _ _ Hi Hends Hg) as (v' & _ & ?). done.
  - intros Hall e'.
    destruct (gather w sched _ (wst st)).1.1 as [vs'|e''|] eqn:Hg; try done.
    intros [= ->].
    assert (Forall2 (fun t r => ∃ h', ends w t.1 t.2 r h')
              (map (fun a => (resolve fuel a, @nil dict)) l)
              (map (fun a => outcome (run w (resolve fuel a) st)) l)) as Hts.
    { apply Forall2_fmap. apply Forall_Forall2_diag. apply Forall_lookup.
      intros j a' Ha'. cbn [fst snd]. apply task_ends. by eapply Hall. }
    destruct (gather_raised_ends w _ _ _ _ _ Hts Hg) as [j Hj].
    rewrite list_lookup_fmap in Hj. destruct (l !! j) as [a'|] eqn:Ha'; [|done].
    injection Hj as Hj. by exists j, a'.
Qed.

End CollectionThrottled.

(** ** The explorer client in any world *)

Section ExplorerShape.
Context {St : Type} (w : World St).
Variable ETHERSCAN_API_KEY : option string.

Lemma sleeps_rounds (d : dict) (ws : list float) : sleeps (rounds d ws) = ws.
Proof. induction ws as [|t ws IH]; cbn; [done|]. by f_equal. Qed.

Lemma requests_rounds (d : dict) (ws : list float) :
  length (requests (rounds d ws)) = length ws.
Proof. induction ws as [|t ws IH]; cbn; [done|]. by f_equal. Qed.

Lemma length_waits (k : nat) (t : float) : length (waits k t) = k.
Proof. revert t. induction k as [|k IH]; intros t; cbn; [done|]. by rewrite IH. Qed.

(** The loop alternates requests and waits, and ends on a request. *)
Lemma explorer_loop_shape (fuel : nat) (r : ref) (t : float) (st : mstate St) :
  let x := run w (explorer_loop fuel r t) st in
  let d := default ∅ (heap st !! r) in
  ∃ k, k ≤ fuel ∧ (outcome x = Pending ↔ k = fuel) ∧
       trace x = rounds d (waits k t)
                 ++ match outcome x with Pending => [] | _ => [LHttp ETHERSCAN_URL d] end.
Proof.
  revert t st. induction fuel as [|fuel IH]; intros t st; cbv zeta.
  { exists 0. done. }
  rewrite explorer_loop_S. cbv zeta.
  destruct (fst (http_get w _ _ _)) as [f|resp].
  { exists 0. split_and!; [lia|done|done]. }
  destruct (resp !! "result") as [[|res|l]|];
    try (exists 0; split_and!; [lia|done|done]).
  destruct (String.prefix _ res); [|exists 0; split_and!; [lia|done|done]].
  specialize (IH (py_round (t * 1.5) 2)
                (MState (heap st) (elapse w (snd (http_get w (wst st) ETHERSCAN_URL
                   (default ∅ (heap st !! r)))) t))).
  cbv zeta in IH. cbn [heap] in IH.
  destruct (run w (explorer_loop fuel r _) _) as [[r' st'] tr'].
  destruct IH as (k & Hk & Hp & Htr). cbn in *.
  exists (S k). split_and!; [lia| |by rewrite Htr].
  rewrite Hp. lia.
Qed.

(** X1. In any world, whatever the explorer answers, a query is a strict
    alternation: a request, then (as long as the answer reports rate
    limiting) a wait and the next request.  After [k] waits the trace is
    [k] rounds of request and wait followed by one last request, unless
    the observation stopped first; the waits are 0.2 and then each the
    previous one times 1.5, rounded to two decimals; every request carries
    the caller's dictionary as it is after the update. *)
Theorem explorer_trace_shape (fuel : nat) (params : ref) (st : mstate St) :
  let x := run w (explorer ETHERSCAN_API_KEY fuel params) st in
  let d := default ∅ (heap (final x) !! params) in
  ∃ k, k ≤ fuel ∧ (outcome x = Pending ↔ k = fuel) ∧
       trace x = rounds d (waits k t_wait0)
                 ++ match outcome x with Pending => [] | _ => [LHttp ETHERSCAN_URL d] end ∧
       sleeps (trace x) = waits k t_wait0 ∧
       length (requests (trace x)) = match outcome x with Pending => k | _ => S k end.
Proof.
  cbv zeta. rewrite explorer_run, explorer_loop_heap. cbn [heap].
  destruct (explorer_loop_shape fuel params t_wait0
    (MState (alter (fun d => {[ "apikey" := of_env ETHERSCAN_API_KEY ]} ∪ d) params (heap st))
            (wst st))) as (k & Hk & Hp & Htr).
  cbn [heap] in Htr. exists k. split_and!; try done.
  - rewrite Htr. unfold sleeps. rewrite omap_app.
    fold (sleeps (rounds
      (default ∅ (alter (fun d => {[ "apikey" := of_env ETHERSCAN_API_KEY ]} ∪ d)
                    params (heap st) !! params))
      (waits k t_wait0))).
    rewrite sleeps_rounds. destruct (outcome _); cbn; by rewrite app_nil_r.
  - rewrite Htr. unfold requests. rewrite omap_app, length_app.
    fold (requests (rounds
      (default ∅ (alter (fun d => {[ "apikey" := of_env ETHERSCAN_API_KEY ]} ∪ d)
                    params (heap st) !! params))
      (waits k t_wait0))).
    rewrite requests_rounds, length_waits. destruct (outcome _); cbn; lia.
Qed.

Lemma explorer_loop_returns (fuel : nat) (r : ref) (t : float) (st : mstate St) (v : pyval) :
  outcome (run w (explorer_loop fuel r t) st) = Returned v → unthrottled v.
Proof.
  revert t st. induction fuel as [|fuel IH]; intros t st; [discriminate|].
  rewrite explorer_loop_S. cbv zeta.
  destruct (fst (http_get w _ _ _)) as [f|resp]; [discriminate|].
  destruct (resp !! "result") as [[|res|l]|]; try discriminate.
  destruct (String.prefix _ res) eqn:Hp.
  - specialize (IH (py_round (t * 1.5) 2)
                (MState (heap st) (elapse w (snd (http_get w (wst st) ETHERSCAN_URL
                   (default ∅ (heap st !! r)))) t))).
    by destruct (run w (explorer_loop fuel r _) _) as [[r' st'] tr'].
  - intros [= <-]. by exists res.
Qed.

Lemma ABI_returns (fuel : nat) (address : string) (st : mstate St) (v : pyval) :
  outcome (run w (ABI ETHERSCAN_API_KEY fuel address) st) = Returned v → unthrottled v.
Proof. rewrite ABI_run. apply explorer_loop_returns. Qed.

(** X2. In any world, what [explorer] returns is a string, and never the
    rate-limit notice: the notice is always retried and does not reach the
    caller. *)
Theorem explorer_result_unthrottled (fuel : nat) (params : ref) (st : mstate St)
    (v : pyval) :
  outcome (run w (explorer ETHERSCAN_API_KEY fuel params) st) = Returned v →
  ∃ res, v = VStr res ∧ String.prefix "Max rate limit reached" res = false.
Proof. rewrite explorer_run. apply explorer_loop_returns. Qed.

End ExplorerShape.

(** *** Answers the loop cannot use *)

Lemma explorer_loop_script_end (limited : list (foreign + dict)) (a : foreign + dict)
    (r : result pyval) (rest : list (foreign + dict)) (fuel : nat) (params : ref)
    (t : float) (h : list dict) :
  Forall rate_limited limited →
  one_round a = Some r →
  length limited < fuel →
  let x := run scripted (explorer_loop fuel params t) (MState h (limited ++ a :: rest)) in
  outcome x = r ∧
  sleeps (trace x) = waits (length limited) t ∧
  length (requests (trace x)) = S (length limited) ∧
  wst (final x) = rest.
Proof.
  intros Hlim Ha. revert fuel t.
  induction Hlim as [|a0 limited Ha0 _ IH]; intros fuel t Hfuel;
    (destruct fuel as [|fuel]; [cbn in Hfuel; lia|]); rewrite explorer_loop_round; cbn.
  - rewrite Ha. done.
  - rewrite (rate_limited_round a0 Ha0).
    specialize (IH fuel (py_round (t * 1.5) 2) ltac:(cbn in Hfuel; lia)).
    cbn in IH.
    destruct (run scripted (explorer_loop fuel params _) _) as [[r' st'] tr'].
    cbn in *. destruct IH as (? & ? & ? & ?). split_and!; congruence.
Qed.

(** X3. After [k] rate-limited answers, an answer the loop cannot use ends
    the query with an exception, after the same [k] waits and [k + 1]
    requests as a good answer would: the exception of the HTTP layer when
    the request fails, [KeyError] when the response has no ["result"]
    field, and [AttributeError] when the field is not a string ([None], or
    a list as the explorer returns for listings), since [startswith] is
    called on it unchecked. *)
Theorem explorer_malformed_answer (ETHERSCAN_API_KEY : option string)
    (limited : list (foreign + dict)) (rest : list (foreign + dict))
    (fuel : nat) (params : ref) (h : list dict) :
  Forall rate_limited limited →
  length limited < fuel →
  let x a := run scripted (explorer ETHERSCAN_API_KEY fuel params)
               (MState h (limited ++ a :: rest)) in
  (∀ f, outcome (x (inl f)) = Raised (External f)) ∧
  (∀ resp, resp !! "result" = None → outcome (x (inr resp)) = Raised (KeyError "result")) ∧
  (∀ resp v, resp !! "result" = Some v → (∀ s, v ≠ VStr s) →
             outcome (x (inr resp)) = Raised (AttributeError "startswith")) ∧
  (∀ a r, one_round a = Some r →
          sleeps (trace (x a)) = waits (length limited) t_wait0 ∧
          length (requests (trace (x a))) = S (length limited) ∧
          wst (final (x a)) = rest).
Proof.
  intros Hlim Hfuel x.
  assert (∀ a r, one_round a = Some r →
    outcome (x a) = r ∧ sleeps (trace (x a)) = waits (length limited) t_wait0 ∧
    length (requests (trace (x a))) = S (length limited) ∧ wst (final (x a)) = rest) as Hend.
  { intros a r Ha. subst x. cbv beta. rewrite explorer_run. cbn [heap wst].
    by apply explorer_loop_script_end. }
  split_and!.
  - intros f. by apply (Hend (inl f)).
  - intros resp Hr. apply (Hend (inr resp)). cbn. by rewrite Hr.
  - intros resp v Hr Hv. apply (Hend (inr resp)). cbn. rewrite Hr.
    destruct v as [|s|l]; [done| |done]. by destruct (Hv s).
  - intros a r Ha. by destruct (Hend a r Ha) as (_ & ? & ? & ?).
Qed.

(** ** What is fetched, and what can go wrong *)

(** Membership in a trace made of pieces, none of the labels written out
    being a request. *)
Ltac split_trace Hin :=
  repeat match type of Hin with
  | _ ∈ _ ++ _ => apply elem_of_app in Hin as [Hin|Hin]
  | _ ∈ _ :: _ => apply elem_of_cons in Hin as [Hin|Hin]; [discriminate|]
  | _ ∈ [] => by apply elem_of_nil in Hin
  end.

Lemma abi_request_entries (key : option string) (address : string) (k : string) :
  abi_request key address !! k =
  if String.eqb k "apikey" then Some (of_env key)
  else if String.eqb k "module" then Some (VStr "contract")
  else if String.eqb k "action" then Some (VStr "getabi")
  else if String.eqb k "address" then Some (VStr address)
  else None.
Proof.
  unfold abi_request, abi_query.
  rewrite <- insert_union_singleton_l.
  destruct (String.eqb_spec k "apikey") as [->|H1]; [by rewrite lookup_insert_eq|].
  rewrite lookup_insert_ne by done.
  destruct (String.eqb_spec k "module") as [->|H2]; [by rewrite lookup_insert_eq|].
  rewrite lookup_insert_ne by done.
  destruct (String.eqb_spec k "action") as [->|H3]; [by rewrite lookup_insert_eq|].
  rewrite lookup_insert_ne by done.
  destruct (String.eqb_spec k "address") as [->|H4]; [by rewrite lookup_insert_eq|].
  by rewrite lookup_insert_ne.
Qed.

Section Fetch.
Context {St : Type} (w : World St).
Variable ETHERSCAN_API_KEY : option string.

Local Abbreviation resolve := (_underlying_coin_address ETHERSCAN_API_KEY).
Local Abbreviation abi_request := (abi_request ETHERSCAN_API_KEY).

Lemma ABI_heap (fuel : nat) (address : string) (st : mstate St) :
  heap (final (run w (ABI ETHERSCAN_API_KEY fuel address) st))
  = heap st ++ [abi_request address].
Proof. by rewrite ABI_run, explorer_loop_heap. Qed.

Lemma ABI_requests (fuel : nat) (address : string) (st : mstate St) :
  ∀ url p, LHttp url p ∈ trace (run w (ABI ETHERSCAN_API_KEY fuel address) st) →
           url = ETHERSCAN_URL ∧ p = abi_request address.
Proof.
  intros url p. rewrite ABI_run. intros [-> ->]%explorer_loop_requests.
  cbn. by rewrite list_lookup_middle.
Qed.

(** X4. [ABI] builds a dictionary of its own for each call: the store is
    extended by this one dictionary and nothing the caller holds is
    touched.  Every request of the call, retries included, goes to the
    explorer's URL with exactly four entries: the module [contract], the
    action [getabi], the address, and the key read from the environment
    ([None] when the variable is not set); with at least one round
    observed, a request is sent. *)
Theorem ABI_request (fuel : nat) (address : string) (st : mstate St) :
  let x := run w (ABI ETHERSCAN_API_KEY fuel address) st in
  heap (final x) = heap st ++ [abi_request address] ∧
  (∀ url p, LHttp url p ∈ trace x → url = ETHERSCAN_URL ∧ p = abi_request address) ∧
  (∀ k, abi_request address !! k =
        if String.eqb k "apikey" then Some (of_env ETHERSCAN_API_KEY)
        else if String.eqb k "module" then Some (VStr "contract")
        else if String.eqb k "action" then Some (VStr "getabi")
        else if String.eqb k "address" then Some (VStr address)
        else None) ∧
  (0 < fuel → requests (trace x) ≠ []).
Proof.
  cbv zeta. split_and!.
  - apply ABI_heap.
  - apply ABI_requests.
  - apply abi_request_entries.
  - intros Hfuel.
    destruct (ABI_trace_head w ETHERSCAN_API_KEY fuel address st Hfuel) as [tr ->].
    done.
Qed.

(** *** What the resolver can raise *)

Lemma explorer_loop_error (fuel : nat) (r : ref) (t : float) (st : mstate St) (e : exn) :
  outcome (run w (explorer_loop fuel r t) st) = Raised e →
  e = KeyError "result" ∨ e = AttributeError "startswith" ∨ ∃ f, e = External f.
Proof.
  revert t st. induction fuel as [|fuel IH]; intros t st; [discriminate|].
  rewrite explorer_loop_S. cbv zeta.
  destruct (fst (http_get w _ _ _)) as [f|resp]; [intros [= <-]; eauto|].
  destruct (resp !! "result") as [[|res|l]|]; try (intros [= <-]; by eauto).
  destruct (String.prefix _ res); [|discriminate].
  specialize (IH (py_round (t * 1.5) 2)
                (MState (heap st) (elapse w (snd (http_get w (wst st) ETHERSCAN_URL
                   (default ∅ (heap st !! r)))) t))).
  by destruct (run w (explorer_loop fuel r _) _) as [[r' st'] tr'].
Qed.

Lemma ABI_error (fuel : nat) (address : string) (st : mstate St) (e : exn) :
  outcome (run w (ABI ETHERSCAN_API_KEY fuel address) st) = Raised e →
  e = KeyError "result" ∨ e = AttributeError "startswith" ∨ ∃ f, e = External f.
Proof. rewrite ABI_run. apply explorer_loop_error. Qed.

Lemma contract_error (fuel : nat) (address : string) (abi : pyval) (st : mstate St)
    (e : exn) :
  outcome (run w (contract ETHERSCAN_API_KEY fuel address abi) st) = Raised e →
  e = KeyError "result" ∨ e = AttributeError "startswith" ∨ ∃ f, e = External f.
Proof.
  rewrite contract_run. destruct (truthy abi).
  - cbn. destruct (eth_contract w address abi); [intros [= <-]; eauto|discriminate].
  - pose proof (ABI_error fuel address st) as HA.
    destruct (run w (ABI _ _ _) st) as [[[abi'|e'|] st'] tr]; cbn in *;
      [|by intros [= <-]; apply HA|discriminate].
    destruct (eth_contract w address abi'); [intros [= <-]; eauto|discriminate].
Qed.

Lemma call_error {A : Type} (a : foreign + A) (e : exn) :
  to_result (raised a) = Raised e → ∃ f, e = External f.
Proof. destruct a; [intros [= <-]; eauto|discriminate]. Qed.

(** X5. Whatever the world does, an exception that leaves the resolver is
    one of four: its own [ValueError], whose message is the fixed text
    followed by the address it was called with; [KeyError] for a response
    without ["result"]; [AttributeError] for a ["result"] that is not a
    string; or an exception raised inside the HTTP layer or web3, passed
    on as it is.  In particular the loop over the candidates never leaves
    [fn] unbound. *)
Theorem resolve_exceptions (fuel : nat) (address : string) (st : mstate St) (e : exn) :
  outcome (run w (resolve fuel address) st) = Raised e →
  e = ValueError ("Could not find underlying token for " +:+ address) ∨
  e = KeyError "result" ∨ e = AttributeError "startswith" ∨ ∃ f, e = External f.
Proof.
  rewrite resolve_run.
  pose proof (contract_error fuel address VNone st) as HC1.
  destruct (run w (contract _ _ _ _) st) as [[[c|e1|] st1] tr1];
    cbn [andthen outcome fst] in *; [|intros [= <-]; right; by apply HC1|discriminate].
  rewrite probe_fns_run. cbv zeta.
  repeat case_bool_decide; cbn [andthen String.eqb Ascii.eqb Bool.eqb];
    rewrite ?call_run; cbn [outcome fst];
    try (intros He%call_error; by eauto);
    try (intros [= <-]; by left).
  pose proof (ABI_error fuel AAVE_PROXY st1) as HA.
  destruct (run w (ABI _ _ _) st1) as [[[abi|e3|] st3] tr3];
    cbn [andthen outcome fst] in *; [|intros [= <-]; right; by apply HA|discriminate].
  pose proof (contract_error fuel address abi st3) as HC2.
  destruct (run w (contract _ _ _ _) st3) as [[[c'|e4|] st4] tr4];
    cbn [andthen outcome fst] in *; [|intros [= <-]; right; by apply HC2|discriminate].
  rewrite call_run. cbn [outcome fst]. intros He%call_error. by eauto.
Qed.

(** *** What the resolver fetches *)

Lemma contract_heap (fuel : nat) (address : string) (abi : pyval) (st : mstate St) :
  heap (final (run w (contract ETHERSCAN_API_KEY fuel address abi) st))
  = heap st ++ (if truthy abi then [] else [abi_request address]).
Proof.
  rewrite contract_run. destruct (truthy abi); [cbn; by rewrite app_nil_r|].
  pose proof (ABI_heap fuel address st) as HA.
  by destruct (run w (ABI _ _ _) st) as [[[abi'|e'|] st'] tr].
Qed.

Lemma contract_requests (fuel : nat) (address : string) (abi : pyval) (st : mstate St) :
  ∀ url p, LHttp url p ∈ trace (run w (contract ETHERSCAN_API_KEY fuel address abi) st) →
           url = ETHERSCAN_URL ∧ p = abi_request address.
Proof.
  intros url p. rewrite contract_run. destruct (truthy abi).
  - cbn. intros H%list_elem_of_singleton. done.
  - pose proof (ABI_requests fuel address st url p) as HA.
    destruct (run w (ABI _ _ _) st) as [[[abi'|e'|] st'] tr]; cbn in *; try done.
    rewrite elem_of_app, list_elem_of_singleton. intros [H|H]; [by apply HA|done].
Qed.

(** X6. A resolution leaves every dictionary of the caller as it was: all
    it does to the store is to add the query dictionaries of its own ABI
    fetches, at least one and at most three of them (the address, the Aave
    proxy, the address once more), in this order.  Every request it sends
    is the [getabi] query for the address it resolves or for the Aave proxy
    address. *)
Theorem resolve_fetches (fuel : nat) (address : string) (st : mstate St) :
  let x := run w (resolve fuel address) st in
  (∃ ds, heap (final x) = heap st ++ ds ∧ ds ≠ [] ∧
         ds `prefix_of` [abi_request address; abi_request AAVE_PROXY; abi_request address]) ∧
  (∀ url p, LHttp url p ∈ trace x →
            url = ETHERSCAN_URL ∧ (p = abi_request address ∨ p = abi_request AAVE_PROXY)).
Proof.
  cbv zeta. rewrite resolve_run.
  pose proof (contract_heap fuel address VNone st) as Hh1.
  pose proof (contract_requests fuel address VNone st) as Hr1.
  cbn [truthy] in Hh1.
  destruct (run w (contract _ _ _ _) st) as [[[c|e1|] st1] tr1];
    cbn [andthen final trace fst snd] in *.
  2,3: split; [exists [abi_request address]; split_and!; [done|done|by eexists]
              |intros url p [-> ->]%Hr1; auto].
  rewrite probe_fns_run. cbv zeta.
  assert (Hone : ∃ ds, heap st1 = heap st ++ ds ∧ ds ≠ [] ∧
    ds `prefix_of` [abi_request address; abi_request AAVE_PROXY; abi_request address]).
  { exists [abi_request address]. split_and!; [done|done|by eexists]. }
  repeat case_bool_decide; cbn [andthen String.eqb Ascii.eqb Bool.eqb];
    rewrite ?call_run; cbn [final trace fst snd heap app].
  2-4: split; [exact Hone|]; intros url p Hin; split_trace Hin;
       destruct (Hr1 _ _ Hin) as [-> ->]; by auto.
  pose proof (ABI_heap fuel AAVE_PROXY st1) as Hh3.
  pose proof (ABI_requests fuel AAVE_PROXY st1) as Hr3.
  destruct (run w (ABI _ _ _) st1) as [[[abi|e3|] st3] tr3];
    cbn [andthen final trace fst snd app] in *.
  2,3: split; [exists [abi_request address; abi_request AAVE_PROXY];
               split_and!; [by rewrite Hh3, Hh1, <- app_assoc|done|by eexists]
              |intros url p Hin; split_trace Hin;
               first [destruct (Hr1 _ _ Hin) as [-> ->]|destruct (Hr3 _ _ Hin) as [-> ->]];
               by auto].
  pose proof (contract_heap fuel address abi st3) as Hh4.
  pose proof (contract_requests fuel address abi st3) as Hr4.
  assert (Hds : ∀ h4, h4 = heap st3 ++ (if truthy abi then [] else [abi_request address]) →
    ∃ ds, h4 = heap st ++ ds ∧ ds ≠ [] ∧
          ds `prefix_of` [abi_request address; abi_request AAVE_PROXY; abi_request address]).
  { intros h4 ->. rewrite Hh3, Hh1. destruct (truthy abi).
    - exists [abi_request address; abi_request AAVE_PROXY].
      split_and!; [by rewrite app_nil_r, <- app_assoc|done|by eexists].
    - exists [abi_request address; abi_request AAVE_PROXY; abi_request address].
      split_and!; [by rewrite <- !app_assoc|done|done]. }
  destruct (run w (contract _ _ _ _) st3) as [[[c'|e4|] st4] tr4];
    cbn [andthen final trace fst snd app] in *; rewrite ?call_run;
    cbn [final trace fst snd heap app];
    (split; [by apply Hds|]); intros url p Hin; split_trace Hin;
    first [destruct (Hr1 _ _ Hin) as [-> ->]|destruct (Hr3 _ _ Hin) as [-> ->]
          |destruct (Hr4 _ _ Hin) as [-> ->]]; by auto.
Qed.

(** *** The proxy whose fetched ABI is empty *)

(** X7. When [upgradeToAndCall] is the candidate found and the ABI fetched
    for the Aave proxy address is falsy, it is the empty string, and
    binding the address with it is binding the address with no ABI at all:
    the ABI of the address itself is fetched once more, and
    [UNDERLYING_ASSET_ADDRESS] is called on a contract object built from
    that ABI.  The ABI fetched for the proxy address is not used. *)
Theorem proxy_fallback (fuel : nat) (address : string) (st st1 st2 st3 : mstate St)
    (c c' : contract_obj) (tr1 tr2 tr3 : list label) (abi : pyval) :
  run w (contract ETHERSCAN_API_KEY fuel address VNone) st = (Returned c, st1, tr1) →
  "upgradeToAndCall" ∈ functions_dir w c →
  run w (ABI ETHERSCAN_API_KEY fuel AAVE_PROXY) st1 = (Returned abi, st2, tr2) →
  truthy abi = false →
  run w (contract ETHERSCAN_API_KEY fuel address VNone) st2 = (Returned c', st3, tr3) →
  let x := run w (resolve fuel address) st in
  abi = VStr "" ∧
  trace x = tr1 ++ LDir c :: tr2 ++ tr3 ++ [LCall c' "UNDERLYING_ASSET_ADDRESS"] ∧
  calls (trace x) = [(c', "UNDERLYING_ASSET_ADDRESS")] ∧
  outcome x =
    to_result (raised (fst (eth_call w (wst st3) c' "UNDERLYING_ASSET_ADDRESS"))) ∧
  (∃ own, c' = Contract address own ∧
          outcome (run w (ABI ETHERSCAN_API_KEY fuel address) st2) = Returned own) ∧
  length (requests (trace x)) = length (requests tr1) + length (requests tr2)
                                + length (requests tr3).
Proof.
  intros Hc Hup Habi Hfalsy Hc' x. subst x. rewrite resolve_run.
  pose proof (contract_quiet w ETHERSCAN_API_KEY fuel address VNone st) as [_ Hq1].
  pose proof (net_no_calls _ (ABI_net w ETHERSCAN_API_KEY fuel AAVE_PROXY st1)) as Hq2.
  pose proof (contract_quiet w ETHERSCAN_API_KEY fuel address VNone st2) as [_ Hq3].
  assert (abi = VStr "") as ->.
  { destruct (ABI_returns w ETHERSCAN_API_KEY fuel AAVE_PROXY st1 abi) as (res & -> & _);
      [by rewrite Habi|].
    by destruct res. }
  assert (run w (contract ETHERSCAN_API_KEY fuel address (VStr "")) st2
          = run w (contract ETHERSCAN_API_KEY fuel address VNone) st2) as Hsame
    by (by rewrite !contract_run).
  rewrite Hc in Hq1 |- *. rewrite Habi in Hq2. rewrite Hc' in Hq3.
  cbn [trace snd] in Hq1, Hq2, Hq3.
  cbn [andthen]. rewrite probe_fns_run. cbv zeta.
  rewrite bool_decide_true by done. cbn [andthen String.eqb Ascii.eqb Bool.eqb].
  rewrite Habi. cbn [andthen]. rewrite Hsame, Hc'.
  cbn [andthen]. rewrite call_run. cbn [trace outcome fst snd app wst].
  split_and!; [done|done| |done| |].
  - by rewrite !calls_app, Hq1, calls_probe, !calls_app, Hq2, Hq3.
  - rewrite contract_run in Hc'. cbn [truthy] in Hc'.
    destruct (run w (ABI _ _ _) st2) as [[[own|e|] s'] tr']; try discriminate.
    destruct (eth_contract w address own); [discriminate|].
    injection Hc' as <- _ _. by exists own.
  - unfold requests. rewrite !omap_app, !length_app. cbn. rewrite !omap_app, !length_app.
    cbn. lia.
Qed.

End Fetch.

(** ** The batch resolver in any world *)

Section AnyWorld.
Context {St : Type} (w : World St).
Variable ETHERSCAN_API_KEY : option string.

Local Abbreviation resolve := (_underlying_coin_address ETHERSCAN_API_KEY).
Local Abbreviation resolve_many := (underlying_coin_addresses ETHERSCAN_API_KEY).

(** X8. In any world and under any schedule, what the batch resolver
    returns for a collection is a list with exactly one entry per address
    given, repeated addresses included; the caller's dictionaries are not
    touched; and for the empty collection the empty list comes back at
    once, without a request, a call or a turn of the schedule. *)
Theorem batch_shape (fuel : nat) (l : list string) (sched : list nat) (st : mstate St) :
  let x := await w sched (resolve_many fuel (AIter l)) st in
  (∀ v, outcome x = Returned v → ∃ vs, v = VList vs ∧ length vs = length l) ∧
  heap (final x) = heap st ∧
  (l = [] → x = (Returned (VList []), st, [])).
Proof.
  cbv zeta. split_and!.
  - intros v. rewrite await_collection.
    destruct (gather w sched _ (wst st)).1.1 as [vs|e|] eqn:Hg; try discriminate.
    intros [= <-]. exists vs. split; [done|].
    apply gather_returned_length in Hg. by rewrite Hg, length_map.
  - cbn [underlying_coin_addresses await].
    by destruct (gather w sched _ (wst st)) as [[r s'] tr].
  - intros ->. destruct st as [h s]. by destruct sched.
Qed.

(** A gather of one task is the task run on its own. *)
Lemma gather_single (sched : list nat) (p : prog pyval) (h : list dict) (s : St) :
  turns w p (MState h s) ≤ count_occ Nat.eq_dec sched 0 →
  gather w sched [(p, h)] s =
  let '(r, st', tr) := run w p (MState h s) in
  (match r with
   | Returned v => Returned [v]
   | Raised e => Raised e
   | Pending => Pending
   end, wst st', tr).
Proof.
  revert p h s. induction sched as [|i sched IH]; intros p h s Hturns;
    rewrite gather_unfold.
  - destruct p as [v|e| |X e k]; cbn in *; try done; try lia.
    destruct (handle w e (MState h s)) as [[[x|x] st'] tr]; [lia|].
    destruct (k x); lia.
  - destruct p as [v|e| |X e k]; cbn [all_returned option_map run].
    + done.
    + destruct i as [|i]; cbn [lookup list_lookup].
      * done.
      * rewrite (IH (Raise e) h s); [done|]. by rewrite count_occ_cons_neq in Hturns.
    + destruct i as [|i]; cbn [lookup list_lookup].
      * cbn [step_task fst snd]. cbn [list_insert insert].
        rewrite (IH Spin h s); [done|]. cbn. lia.
      * rewrite (IH Spin h s); [done|]. cbn. lia.
    + destruct i as [|i]; cbn [lookup list_lookup].
      2: { rewrite (IH (Vis e k) h s); [done|].
           by rewrite count_occ_cons_neq in Hturns. }
      rewrite count_occ_cons_eq in Hturns by done.
      unfold step_task. cbn [fst snd turns] in *.
      destruct (handle w e (MState h s)) as [[[x|x] [h' s']] tr]; cbn [fst snd heap wst].
      * done.
      * destruct (k x) as [v|e'| |Y e' k'] eqn:Hk; cbn [list_insert insert].
        -- rewrite (IH (Ret v) h' s'); [|cbn; lia]. cbn. done.
        -- cbn. by rewrite app_nil_r.
        -- rewrite (IH Spin h' s'); [|cbn; lia]. cbn. done.
        -- rewrite (IH (Vis e' k') h' s'); [|lia].
           by destruct (run w (Vis e' k') (MState h' s')) as [[r st''] tr'].
Qed.

(** X9. A collection of one address, in any world, with or without memory:
    once the task has had its turns, the batch has done exactly what
    resolving the address alone does (same requests, waits and calls in
    the same order, same state of the world afterwards), and it ends the
    same way, except that the value comes back as a list of one element,
    where the same address given as a string comes back bare. *)
Theorem batch_singleton (fuel : nat) (a : string) (sched : list nat) (st : mstate St) :
  turns w (resolve fuel a) (MState [] (wst st)) ≤ count_occ Nat.eq_dec sched 0 →
  let x := await w sched (resolve_many fuel (AIter [a])) st in
  let y := run w (resolve fuel a) st in
  outcome x = gathered_alone (outcome y) ∧
  wst (final x) = wst (final y) ∧
  trace x = trace y ∧
  heap (final x) = heap st.
Proof.
  intros Hturns. cbv zeta. cbn [underlying_coin_addresses await fold_left app map].
  rewrite (gather_single sched _ [] (wst st) Hturns).
  destruct (resolve_same w ETHERSCAN_API_KEY fuel a (MState [] (wst st)) st eq_refl)
    as (Ho & Hs & Ht).
  destruct (run w (resolve fuel a) (MState [] (wst st))) as [[r st'] tr].
  destruct (run w (resolve fuel a) st) as [[r2 st2] tr2].
  cbn in *. subst. by destruct r2.
Qed.

End AnyWorld.

(** ** The bonding curve tool *)

Section Curve.
Import BondingCurve.
Local Open Scope curve_scope.
Context {St : Type} (pool : Env St).

(** ** Sequencing *)

Lemma bind_returns {A B : Type} (m : M St A) (f : A -> M St B) (s : St) (b : B) :
  outcome (bind m f s) = inr b →
  ∃ a, outcome (m s) = inr a ∧ outcome (f a (final (m s))) = inr b ∧
       trace (bind m f s) = trace (m s) ++ trace (f a (final (m s))) ∧
       final (bind m f s) = final (f a (final (m s))).
Proof.
  unfold bind, outcome, final, trace.
  destruct (m s) as [[[e|a] s'] tr]; cbn [fst snd]; [discriminate|].
  destruct (f a s') as [[r s''] tr'] eqn:Hf. cbn [fst snd]. intros ->.
  exists a. by rewrite Hf.
Qed.

Lemma bind_raises {A B : Type} (m : M St A) (f : A -> M St B) (s : St) (e : exn) :
  outcome (m s) = inl e → bind m f s = (inl e, final (m s), trace (m s)).
Proof.
  unfold bind, outcome, final, trace.
  destruct (m s) as [[[e'|a] s'] tr]; cbn [fst snd]; [by intros [= ->]|discriminate].
Qed.

Lemma bind_continues {A B : Type} (m : M St A) (f : A -> M St B) (s : St) (a : A) :
  outcome (m s) = inr a →
  bind m f s = (outcome (f a (final (m s))), final (f a (final (m s))),
                trace (m s) ++ trace (f a (final (m s)))).
Proof.
  unfold bind, outcome, final, trace.
  destruct (m s) as [[[e'|a'] s'] tr]; cbn [fst snd]; [discriminate|]. intros [= ->].
  by destruct (f a s') as [[r s''] tr'].
Qed.

(** ** The pairs of coins *)

Lemma combinations_1 {A : Type} (l : list A) : combinations l 1 = map (fun x => [x]) l.
Proof. induction l as [|x l IH]; [done|]. cbn. by rewrite IH; destruct l. Qed.

Lemma combinations_seq (a m : nat) :
  combinations (seq a m) 2 =
  map as_tuple (flat_map (fun i => map (pair i) (seq (S i) (a + m - S i))) (seq a m)).
Proof.
  revert a. induction m as [|m IH]; intros a; [done|].
  cbn [seq combinations flat_map]. rewrite combinations_1, map_app, !map_map.
  replace (a + S m - S a) with m by lia. f_equal.
  rewrite (IH (S a)). f_equal. apply flat_map_ext. intros i.
  by replace (S a + m) with (a + S m) by lia.
Qed.

Lemma combinations_range (n : Z) :
  combinations (range n) 2 = map as_tuple (index_pairs n).
Proof. unfold range, index_pairs, range. by rewrite combinations_seq. Qed.

Lemma elem_of_index_pairs (n : Z) (i j : nat) :
  (i, j) ∈ index_pairs n ↔ i < j < Z.to_nat n.
Proof.
  unfold index_pairs, range. rewrite list_elem_of_In, in_flat_map. split.
  - intros (k & Hk%in_seq & Hin%in_map_iff). destruct Hin as (j' & [= <- <-] & Hj%in_seq).
    lia.
  - intros Hij. exists i. split; [apply in_seq; lia|].
    apply in_map_iff. exists j. split; [done|]. apply in_seq. lia.
Qed.

Lemma NoDup_pairs_from (a m b : nat) :
  NoDup (flat_map (fun i => map (pair i) (seq (S i) (b - S i))) (seq a m)).
Proof.
  revert a. induction m as [|m IH]; intros a; cbn [seq flat_map]; [constructor|].
  apply NoDup_app. split_and!.
  - apply NoDup_fmap_2; [by intros ?? [= ->]|]. apply NoDup_seq.
  - intros [i j] Hin%list_elem_of_fmap Hin'%list_elem_of_In%in_flat_map.
    destruct Hin as (j' & [= -> ->] & _). destruct Hin' as (k & Hk%in_seq & Hin%in_map_iff).
    destruct Hin as (j'' & [= <- <-] & _). lia.
  - apply IH.
Qed.

Lemma NoDup_index_pairs (n : Z) : NoDup (index_pairs n).
Proof. apply NoDup_pairs_from. Qed.

Lemma length_pairs_from (a m : nat) :
  2 * length (flat_map (fun i => map (pair i) (seq (S i) (a + m - S i))) (seq a m))
  = m * (m - 1).
Proof.
  revert a. induction m as [|m IH]; intros a; [done|].
  cbn [seq flat_map]. rewrite length_app, length_map, length_seq.
  replace (a + S m - S a) with m by lia.
  rewrite (flat_map_ext _ (fun i => map (pair i) (seq (S i) (S a + m - S i))))
    by (intros i; by replace (S a + m) with (a + S m) by lia).
  specialize (IH (S a)). nia.
Qed.

Lemma length_index_pairs (n : Z) :
  2 * length (index_pairs n) = Z.to_nat n * (Z.to_nat n - 1).
Proof. apply (length_pairs_from 0). Qed.

(** ** Dictionaries *)

Lemma keys_setitem {V : Type} (d : dict V) (k : nat * nat) (v : V) :
  keys (setitem d k v) = if decide (k ∈ keys d) then keys d else keys d ++ [k].
Proof.
  unfold keys. induction d as [|[k' v'] d IH]; cbn; [done|].
  destruct (decide (k' = k)) as [->|Hne]; cbn.
  - rewrite decide_True by left. done.
  - rewrite IH. destruct (decide (k ∈ map fst d)) as [Hin|Hnin].
    + rewrite decide_True by (by right). done.
    + rewrite decide_False; [done|]. intros [?|?]%elem_of_cons; congruence.
Qed.

Lemma lookup_setitem {V : Type} (d : dict V) (k : nat * nat) (v : V) :
  lookup_key (setitem d k v) k = Some v.
Proof.
  induction d as [|[k' v'] d IH]; cbn; [by rewrite decide_True|].
  destruct (decide (k' = k)) as [->|Hne]; cbn; [by rewrite decide_True|].
  by rewrite decide_False.
Qed.

Lemma lookup_setitem_ne {V : Type} (d : dict V) (k k0 : nat * nat) (v : V) :
  k ≠ k0 → lookup_key (setitem d k v) k0 = lookup_key d k0.
Proof.
  intros Hne. induction d as [|[k' v'] d IH]; cbn; [by rewrite decide_False|].
  destruct (decide (k' = k)) as [->|Hne']; cbn.
  - by rewrite !decide_False.
  - destruct (decide (k' = k0)); [done|]. apply IH.
Qed.

(** ** Rules for [spec] *)

Lemma spec_ret {A : Type} (a : A) Q E T : Q a [] → @spec St A (ret a) Q E T.
Proof. intros HQ s. split; [done|constructor]. Qed.

Lemma spec_raise {A : Type} (e : exn) Q E T : E e → @spec St A (raise e) Q E T.
Proof. intros HE s. split; [done|constructor]. Qed.

Lemma spec_bind {A B : Type} (m : M St A) (f : A -> M St B) Q1 Q2 E T :
  spec m Q1 E T →
  (∀ a tr1, Q1 a tr1 → spec (f a) (fun b tr2 => Q2 b (tr1 ++ tr2)) E T) →
  spec (bind m f) Q2 E T.
Proof.
  intros Hm Hf s. specialize (Hm s). unfold bind, outcome, trace in *.
  destruct (m s) as [[[e|a] s'] tr]; cbn [fst snd] in *; [done|].
  destruct Hm as [HQ HT]. specialize (Hf a tr HQ s').
  destruct (f a s') as [[r s''] tr']. cbn [fst snd] in *.
  destruct Hf as [HQ2 HT2]. split; [done|]. by apply Forall_app.
Qed.

Lemma spec_weaken {A : Type} (m : M St A) (Q Q' : A → list event → Prop)
    (E E' : exn → Prop) (T T' : event → Prop) :
  spec m Q E T → (∀ a tr, Q a tr → Q' a tr) → (∀ e, E e → E' e) →
  (∀ ev, T ev → T' ev) → spec m Q' E' T'.
Proof.
  intros Hm HQ HE HT s. destruct (Hm s) as [H1 H2]. split.
  - destruct (outcome (m s)); auto.
  - eapply Forall_impl; [exact H2|done].
Qed.

Lemma spec_lift {A : Type} (a : foreign + A) (Q : A → list event → Prop) E T :
  (∀ f, E (External f)) → (∀ x, a = inr x → Q x []) → @spec St A (lift a) Q E T.
Proof. intros HE HQ s. split; [|constructor]. destruct a; cbn; auto. Qed.

Lemma spec_read {A : Type} (f : St → foreign + A) (Q : A → list event → Prop) E T :
  (∀ f, E (External f)) → (∀ s x, f s = inr x → Q x []) → spec (read f) Q E T.
Proof.
  intros HE HQ s. split; [|constructor]. unfold read, outcome. cbn.
  destruct (f s) eqn:Hf; cbn; eauto.
Qed.

Lemma spec_call {A : Type} (f : St → (foreign + A) * St) (ev : event)
    (Q : A → list event → Prop) E (T : event → Prop) :
  (∀ f, E (External f)) → T ev → (∀ s x, fst (f s) = inr x → Q x [ev]) →
  spec (call f ev) Q E T.
Proof.
  intros HE HT HQ s. split; [|by repeat constructor]. unfold call, outcome. cbn.
  destruct (fst (f s)) eqn:Hf; cbn; eauto.
Qed.

Lemma spec_note {A : Type} (a : foreign + A) (ev : event)
    (Q : A → list event → Prop) E (T : event → Prop) :
  (∀ f, E (External f)) → T ev → (∀ x, a = inr x → Q x [ev]) →
  @spec St A (note a ev) Q E T.
Proof.
  intros HE HT HQ s. split; [|by repeat constructor]. unfold note, outcome. cbn.
  destruct a; cbn; eauto.
Qed.

Lemma spec_getitem {A : Type} (l : list A) (i : nat) (Q : A → list event → Prop) E T :
  (∀ msg, E (IndexError msg)) ∨ i < length l →
  (∀ x, l !! i = Some x → Q x []) →
  @spec St A (getitem l (Z.of_nat i)) Q E T.
Proof.
  intros Hi HQ s. unfold getitem. cbv zeta.
  rewrite (proj2 (Z.ltb_ge (Z.of_nat i) 0)) by lia.
  rewrite (proj2 (Z.ltb_ge (Z.of_nat i) 0)) by lia.
  rewrite Nat2Z.id. destruct (l !! i) as [x|] eqn:Hx; (split; [|constructor]); cbn.
  - by apply HQ.
  - destruct Hi as [Hi|Hi]; [done|]. apply lookup_ge_None in Hx. lia.
Qed.

Lemma get_y_calls_app (tr tr' : list event) :
  get_y_calls (tr ++ tr') = get_y_calls tr ++ get_y_calls tr'.
Proof. apply omap_app. Qed.

(** The inner loop: one result per element. *)
Lemma spec_for_each {A B : Type} (f : A → M St B) (l : list A) E T :
  (∀ a, spec (f a) (fun _ tr => length (get_y_calls tr) = 1) E T) →
  spec (for_each f l)
    (fun bs tr => length bs = length l ∧ length (get_y_calls tr) = length l) E T.
Proof.
  intros Hf. induction l as [|a l IH]; cbn [for_each].
  - by apply spec_ret.
  - eapply spec_bind; [apply Hf|]. intros b tr1 Hb.
    eapply spec_bind; [apply IH|]. intros bs tr2 [Hbs Htr2].
    apply spec_ret. cbn beta in *.
    rewrite app_nil_r, get_y_calls_app, length_app. cbn [length]. lia.
Qed.

(** ** The loop over the pairs *)

Section Loop.
Variables (E : exn → Prop) (T : event → Prop).
Variables (D truncate : value) (resolution : Z) (xp : list value).
Variable P : nat → nat → Prop.
Hypothesis HE : ∀ f, E (External f).
Hypothesis HT_get_y : ∀ i j v, P i j → T (CallGetY i j v xp).
Hypothesis HT_limit : ∀ i j a,
  P i j → (∃ p, mul pool D truncate = inr p ∧ to_int pool p = inr a) →
  T (CallGetY j i a xp).
Hypothesis HT_linspace : ∀ a b,
  (∃ p, mul pool D truncate = inr p ∧ to_int pool p = inr a) →
  T (CallLinspace a b resolution).

Lemma to_coin_units_spec (k : nat) (v : value) :
  0 < k →
  (∀ msg, E (IndexError msg)) ∨
    (∀ s scale, pool_price_scale pool s = inr scale → k ≤ length scale) →
  spec (to_coin_units pool k v) (fun _ tr => tr = []) E T.
Proof using HE.
  intros Hk Hsafe. unfold to_coin_units.
  eapply spec_bind; [by apply spec_lift with (Q := fun _ tr => tr = [])|].
  intros scaled tr1 ->.
  eapply (spec_bind _ _ (fun scale tr =>
            tr = [] ∧ ((∀ msg, E (IndexError msg)) ∨ k ≤ length scale))).
  { apply spec_read; [done|]. intros s scale Hs. split; [done|].
    destruct Hsafe as [?|Hsafe]; [by left|right]. by eapply Hsafe. }
  intros scale tr2 [-> Hscale]. replace (Z.of_nat k - 1)%Z with (Z.of_nat (k - 1)) by lia.
  eapply spec_bind.
  { apply spec_getitem with (Q := fun _ tr => tr = []); [|done].
    destruct Hscale as [?|?]; [by left|right; lia]. }
  intros price tr3 ->. by apply spec_lift.
Qed.

Lemma convert_spec (i j : nat) (x y : value) :
  i < j → safe pool E xp i j →
  spec (convert pool i j x y) (fun _ tr => tr = []) E T.
Proof using HE.
  intros Hij Hsafe. unfold convert. destruct (CRYPTOSWAP pool) eqn:Hc; [|by apply spec_ret].
  assert (∀ k, k = i ∨ k = j →
    (∀ msg, E (IndexError msg)) ∨
    (∀ s scale, pool_price_scale pool s = inr scale → k ≤ length scale)) as Hk.
  { intros k Hk. destruct Hsafe as [?|(_ & _ & Hsafe)]; [by left|right].
    intros s scale Hs. destruct (Hsafe Hc s scale Hs). destruct Hk; subst; lia. }
  eapply (spec_bind _ _ (fun _ tr => tr = [])).
  { destruct (0 <? i) eqn:Hi; [|by apply spec_ret].
    apply to_coin_units_spec; [by apply Nat.ltb_lt|]. apply Hk. by left. }
  intros x' tr1 ->.
  eapply (spec_bind _ _ (fun _ tr => tr = [])).
  { destruct (0 <? j) eqn:Hj; [|by apply spec_ret].
    apply to_coin_units_spec; [by apply Nat.ltb_lt|]. apply Hk. by right. }
  intros y' tr2 ->. by apply spec_ret.
Qed.

Lemma point_spec (i j : nat) (x : value) :
  P i j → i < j → safe pool E xp i j →
  spec (point pool i j xp x) (fun _ tr => length (get_y_calls tr) = 1) E T.
Proof using HE HT_get_y.
  intros HP Hij Hsafe. unfold point.
  eapply spec_bind; [by apply spec_lift with (Q := fun _ tr => tr = [])|].
  intros x_int tr1 ->.
  eapply spec_bind.
  { apply spec_call with (Q := fun _ tr => length (get_y_calls tr) = 1);
      [done|by apply HT_get_y|done]. }
  intros y tr2 Htr2.
  eapply spec_bind; [by apply spec_lift with (Q := fun _ tr => tr = [])|].
  intros x' tr3 ->.
  eapply spec_bind; [by apply spec_lift with (Q := fun _ tr => tr = [])|].
  intros y' tr4 ->.
  eapply spec_weaken; [by apply convert_spec| |done..].
  intros _ tr ->. cbn. by rewrite !app_nil_r.
Qed.

Lemma pair_body_spec (i j : nat) (acc : dict curve * dict (value * value)) :
  P i j → i < j → safe pool E xp i j →
  spec (pair_body pool D truncate resolution xp i j acc)
    (fun r tr => ∃ c pt, r = (setitem acc.1 (i, j) c, setitem acc.2 (i, j) pt) ∧
                         sampled pool resolution c ∧ length (get_y_calls tr) = S (length c))
    E T.
Proof using HE HT_get_y HT_limit HT_linspace.
  intros HP Hij Hsafe. unfold pair_body.
  eapply spec_bind.
  { apply spec_lift with (Q := fun p tr => tr = [] ∧ mul pool D truncate = inr p); done. }
  intros product tr1 [-> Hp].
  eapply spec_bind.
  { apply spec_lift with (Q := fun a tr => tr = [] ∧ to_int pool product = inr a); done. }
  intros truncated_D tr2 [-> Ha].
  eapply spec_bind.
  { apply spec_call with (Q := fun _ tr => length (get_y_calls tr) = 1);
      [done| |done]. apply HT_limit; [done|]. by exists product. }
  intros x_limit tr3 Htr3.
  eapply spec_bind.
  { apply spec_note with
      (Q := fun xs tr => get_y_calls tr = [] ∧
                         linspace_round pool truncated_D x_limit resolution = inr xs);
      [done| |done]. apply HT_linspace. by exists product. }
  intros xs tr4 [Htr4 Hxs].
  eapply spec_bind; [apply spec_for_each; intros x; by apply point_spec|].
  intros c tr5 [Hc Htr5].
  assert (safe_xp : ∀ k, k = i ∨ k = j → (∀ msg, E (IndexError msg)) ∨ k < length xp).
  { intros k Hk. destruct Hsafe as [?|(? & ? & _)]; [by left|right].
    destruct Hk; by subst. }
  eapply spec_bind.
  { apply spec_getitem with (Q := fun _ tr => tr = []); [|done]. apply safe_xp. by left. }
  intros xp_i tr6 ->.
  eapply spec_bind; [by apply spec_lift with (Q := fun _ tr => tr = [])|].
  intros current_x tr7 ->.
  eapply spec_bind.
  { apply spec_getitem with (Q := fun _ tr => tr = []); [|done]. apply safe_xp. by right. }
  intros xp_j tr8 ->.
  eapply spec_bind; [by apply spec_lift with (Q := fun _ tr => tr = [])|].
  intros current_y tr9 ->.
  eapply spec_bind; [by apply convert_spec|].
  intros current tr10 ->. apply spec_ret.
  exists c, current. split_and!; [done|by exists truncated_D, x_limit, xs|].
  cbn [app]. rewrite !app_nil_r, !get_y_calls_app, !length_app, Htr4. cbn [length].
  rewrite Htr3, Htr5, Hc. lia.
Qed.

Lemma for_pairs_spec (ps : list (nat * nat))
    (acc : dict curve * dict (value * value)) :
  Forall (fun p => P p.1 p.2 ∧ p.1 < p.2 ∧ safe pool E xp p.1 p.2) ps →
  spec (for_pairs (pair_body pool D truncate resolution xp) (map as_tuple ps) acc)
    (fun r tr => ∃ cs pts, length cs = length ps ∧ length pts = length ps ∧
                           r = (set_all acc.1 (zip ps cs), set_all acc.2 (zip ps pts)) ∧
                           Forall (sampled pool resolution) cs ∧
                           length (get_y_calls tr) = sum_list (map (fun c => S (length c)) cs))
    E T.
Proof using HE HT_get_y HT_limit HT_linspace.
  intros Hps. revert acc.
  induction Hps as [|[i j] ps (HP & Hij & Hsafe) _ IH]; intros acc.
  - cbn [map for_pairs]. apply spec_ret. exists [], []. by destruct acc.
  - cbn [map for_pairs as_tuple fst snd unpack2].
    eapply spec_bind; [by apply spec_ret with (Q := fun ij tr => ij = (i, j) ∧ tr = [])|].
    intros ij tr0 [-> ->]. cbn [fst snd].
    eapply spec_bind; [by apply pair_body_spec|].
    intros acc' tr1 (c & pt & -> & Hc & Htr1).
    eapply spec_weaken; [apply IH| |done..].
    intros r tr2 (cs & pts & Hcs & Hpts & -> & Hsam & Htr2). cbn [fst snd].
    exists (c :: cs), (pt :: pts). cbn [length zip zip_with set_all fold_left fst snd map].
    split_and!; [by rewrite Hcs|by rewrite Hpts|done|by constructor|].
    cbn [app sum_list sum_list_with]. rewrite get_y_calls_app, length_app, Htr1, Htr2.
    unfold sum_list. cbn. lia.
Qed.

End Loop.

(** ** The function, step by step *)

Lemma after_nil {A : Type} (x : (exn + A) * St * list event) : after [] x = x.
Proof. by destruct x as [[r s] tr]. Qed.

Lemma bind_ret {A B : Type} (a : A) (f : A → M St B) (s : St) :
  bind (ret a) f s = f a s.
Proof. unfold bind, ret. by destruct (f a s) as [[r s'] tr]. Qed.

Lemma bind_raise {A B : Type} (e : exn) (f : A → M St B) (s : St) :
  bind (raise e) f s = (inl e, s, []).
Proof. done. Qed.

Lemma bind_assoc {A B C : Type} (m : M St A) (f : A → M St B) (g : B → M St C) (s : St) :
  bind (bind m f) g s = bind m (fun a => bind (f a) g) s.
Proof.
  unfold bind. destruct (m s) as [[[e|a] s1] tr1]; [done|].
  destruct (f a s1) as [[[e|b] s2] tr2]; [done|].
  destruct (g b s2) as [[r s3] tr3]. by rewrite app_assoc.
Qed.

Lemma bind_lift {A B : Type} (a : foreign + A) (f : A → M St B) (s : St) :
  bind (lift a) f s =
  match a with inl e => (inl (External e), s, []) | inr x => f x s end.
Proof. unfold bind, lift. destruct a as [e|x]; [done|]. cbn. by destruct (f x s) as [[r s'] tr]. Qed.

Lemma bind_read {A B : Type} (g : St → foreign + A) (f : A → M St B) (s : St) :
  bind (read g) f s =
  match g s with inl e => (inl (External e), s, []) | inr x => f x s end.
Proof.
  unfold bind, read. destruct (g s) as [e|x]; [done|]. cbn.
  by destruct (f x s) as [[r s'] tr].
Qed.

Lemma bind_call {A B : Type} (g : St → (foreign + A) * St) (ev : event)
    (f : A → M St B) (s : St) :
  bind (call g ev) f s =
  match fst (g s) with
  | inl e => (inl (External e), snd (g s), [ev])
  | inr x => after [ev] (f x (snd (g s)))
  end.
Proof.
  unfold bind, call, after, outcome, final, trace.
  destruct (fst (g s)) as [e|x]; [done|]. cbn.
  by destruct (f x (snd (g s))) as [[r s'] tr].
Qed.

Lemma bind_note {A B : Type} (a : foreign + A) (ev : event) (f : A → M St B) (s : St) :
  bind (note a ev) f s =
  match a with
  | inl e => (inl (External e), s, [ev])
  | inr x => after [ev] (f x s)
  end.
Proof.
  unfold bind, note, after, outcome, final, trace.
  destruct a as [e|x]; [done|]. cbn. by destruct (f x s) as [[r s'] tr].
Qed.

Lemma after_after {A : Type} (pre pre' : list event) (x : (exn + A) * St * list event) :
  after pre (after pre' x) = after (pre ++ pre') x.
Proof. unfold after, outcome, final, trace. cbn. by rewrite app_assoc. Qed.

Lemma curves_run (truncate : option value) (resolution : Z) (s : St) :
  curves pool truncate resolution s =
  match pairs_of pool s with
  | inl f => (inl (External f), s, [])
  | inr ps =>
      let s1 := snd (pool_xp pool s) in
      match fst (pool_xp pool s) with
      | inl f => (inl (External f), s1, [CallXp])
      | inr xp =>
          if STABLESWAP pool then
            match fst (pool_D_call pool s1) with
            | inl f => (inl (External f), snd (pool_D_call pool s1), [CallXp; CallD])
            | inr D =>
                after [CallXp; CallD]
                  (loop pool truncate resolution ps xp D (snd (pool_D_call pool s1)))
            end
          else if CRYPTOSWAP pool then
            match pool_D pool s1 with
            | inl f => (inl (External f), s1, [CallXp])
            | inr D => after [CallXp] (loop pool truncate resolution ps xp D s1)
            end
          else
            (inl (TypeError ("Bonding curve calculation not supported for "
                             +:+ type_repr pool)), s1, [CallXp])
      end
  end.
Proof.
  assert (∀ ps, let s1 := snd (pool_xp pool s) in
    bind (call (pool_xp pool) CallXp) (fun xp =>
      D_truncate <-
        (if STABLESWAP pool then
           D <- call (pool_D_call pool) CallD ;;
           ret (D, default (Float 0x1.0624dd2f1a9fcp-11) truncate)
         else if CRYPTOSWAP pool then
           D <- read (pool_D pool) ;;
           ret (D, default (Float 1) truncate)
         else
           raise (TypeError ("Bonding curve calculation not supported for "
                             +:+ type_repr pool))) ;;
      dicts <- for_pairs (pair_body pool (fst D_truncate) (snd D_truncate) resolution xp)
                 (map as_tuple ps) ([], []) ;;
      ret (dicts, xp)) s =
    match fst (pool_xp pool s) with
    | inl f => (inl (External f), s1, [CallXp])
    | inr xp =>
        if STABLESWAP pool then
          match fst (pool_D_call pool s1) with
          | inl f => (inl (External f), snd (pool_D_call pool s1), [CallXp; CallD])
          | inr D =>
              after [CallXp; CallD]
                (loop pool truncate resolution ps xp D (snd (pool_D_call pool s1)))
          end
        else if CRYPTOSWAP pool then
          match pool_D pool s1 with
          | inl f => (inl (External f), s1, [CallXp])
          | inr D => after [CallXp] (loop pool truncate resolution ps xp D s1)
          end
        else
          (inl (TypeError ("Bonding curve calculation not supported for "
                           +:+ type_repr pool)), s1, [CallXp])
    end) as Hrest.
  { intros ps s1. rewrite bind_call. fold s1.
    destruct (fst (pool_xp pool s)) as [f|xp]; [done|].
    unfold loop, truncate_or_default. destruct (STABLESWAP pool).
    - rewrite bind_assoc, bind_call.
      destruct (fst (pool_D_call pool s1)) as [f|D]; [done|].
      rewrite bind_ret. cbn [fst snd]. by rewrite after_after.
    - destruct (CRYPTOSWAP pool).
      + rewrite bind_assoc, bind_read.
        destruct (pool_D pool s1) as [f|D]; [done|].
        rewrite bind_ret. done.
      + rewrite bind_raise. done. }
  unfold curves, pairs_of. destruct (is_CurveMetaPool pool).
  - rewrite bind_ret. apply (Hrest [(0, 1)]).
  - rewrite bind_assoc, bind_read. destruct (pool_n pool s) as [f|n]; [done|].
    rewrite bind_ret, combinations_range. apply Hrest.
Qed.

(** The dictionary built from fresh keys is the list of its entries. *)
Lemma setitem_fresh {V : Type} (d : dict V) (k : nat * nat) (v : V) :
  k ∉ keys d → setitem d k v = d ++ [(k, v)].
Proof.
  unfold keys. induction d as [|[k' v'] d IH]; cbn; [done|].
  intros Hk. rewrite decide_False by (intros ->; apply Hk; by left).
  rewrite IH; [done|]. intros Hin. apply Hk. by right.
Qed.

Lemma set_all_fresh {V : Type} (d : dict V) (ps : list (nat * nat)) (vs : list V) :
  NoDup (keys d ++ ps) → length vs = length ps →
  set_all d (zip ps vs) = d ++ zip ps vs.
Proof.
  revert d vs. induction ps as [|p ps IH]; intros d vs Hnd Hlen.
  - cbn. by rewrite app_nil_r.
  - destruct vs as [|v vs]; [done|]. cbn [zip zip_with set_all fold_left fst snd].
    apply NoDup_app in Hnd as (Hd & Hdisj & Hps).
    rewrite setitem_fresh by (intros Hin; apply (Hdisj _ Hin); by left).
    fold (set_all (d ++ [(p, v)]) (zip ps vs)). rewrite IH.
    + by rewrite <- app_assoc.
    + unfold keys. rewrite map_app. cbn. rewrite <- app_assoc. cbn.
      apply NoDup_app. split_and!; [done| |done].
      intros x Hx. by apply Hdisj.
    + cbn in Hlen. lia.
Qed.

Lemma keys_zip {V : Type} (ps : list (nat * nat)) (vs : list V) :
  length vs = length ps → keys (zip ps vs) = ps.
Proof. intros Hlen. unfold keys. apply fst_zip. lia. Qed.

Lemma loop_calls (E : exn → Prop) (T : event → Prop) (truncate : option value)
    (resolution : Z) (ps : list (nat * nat)) (xp : list value) (D : value) :
  (∀ f, E (External f)) →
  (∀ i j v, (i, j) ∈ ps → T (CallGetY i j v xp)) →
  (∀ i j a, (i, j) ∈ ps →
            (∃ p, mul pool D (truncate_or_default pool truncate) = inr p ∧
                  to_int pool p = inr a) →
            T (CallGetY j i a xp)) →
  (∀ a b, (∃ p, mul pool D (truncate_or_default pool truncate) = inr p ∧ to_int pool p = inr a) →
          T (CallLinspace a b resolution)) →
  Forall (fun p => p.1 < p.2 ∧ safe pool E xp p.1 p.2) ps →
  NoDup ps →
  spec (loop pool truncate resolution ps xp D)
    (fun r tr => ∃ cs pts, length cs = length ps ∧ length pts = length ps ∧
                           r = (zip ps cs, zip ps pts, xp) ∧
                           Forall (sampled pool resolution) cs ∧
                           length (get_y_calls tr)
                             = sum_list (map (fun c => S (length c)) cs))
    E T.
Proof.
  intros HE HT1 HT1' HT2 Hps Hnd. unfold loop.
  eapply spec_bind.
  { apply (for_pairs_spec E T _ _ _ _ (fun i j => (i, j) ∈ ps)); try done.
    apply Forall_forall. intros [i j] Hin. split; [done|].
    by apply (proj1 (Forall_forall _ _) Hps). }
  intros r tr (cs & pts & Hcs & Hpts & -> & Hsam & Htr). apply spec_ret.
  exists cs, pts. cbn [fst snd]. rewrite !set_all_fresh by done.
  rewrite app_nil_r. done.
Qed.

Lemma pairs_of_ok (s : St) (ps : list (nat * nat)) :
  pairs_of pool s = inr ps →
  NoDup ps ∧ Forall (fun p => p.1 < p.2) ps ∧
  (if is_CurveMetaPool pool then ps = [(0, 1)]
   else ∃ n, pool_n pool s = inr n ∧ ps = index_pairs n).
Proof.
  unfold pairs_of. destruct (is_CurveMetaPool pool).
  - intros [= <-]. split_and!; [apply NoDup_singleton|by repeat constructor|done].
  - destruct (pool_n pool s) as [f|n]; [discriminate|]. intros [= <-].
    split_and!; [apply NoDup_index_pairs| |by exists n].
    apply Forall_forall. intros [i j] Hin%elem_of_index_pairs. cbn. lia.
Qed.

(** Either the function stops before the loop, or it gets to it. *)
Lemma curves_cases (truncate : option value) (resolution : Z) (s : St) :
  let x := curves pool truncate resolution s in
  (∃ e pre, outcome x = inl e ∧ trace x = pre ∧ pre `prefix_of` (preamble pool) ∧
            ((∃ f, e = External f) ∨
             (STABLESWAP pool = false ∧ CRYPTOSWAP pool = false ∧ pre = [CallXp] ∧
              e = TypeError ("Bonding curve calculation not supported for "
                             +:+ type_repr pool)))) ∨
  (∃ ps xp D s2,
     pairs_of pool s = inr ps ∧ fst (pool_xp pool s) = inr xp ∧
     (if STABLESWAP pool
      then fst (pool_D_call pool (snd (pool_xp pool s))) = inr D ∧
           s2 = snd (pool_D_call pool (snd (pool_xp pool s)))
      else CRYPTOSWAP pool = true ∧ pool_D pool (snd (pool_xp pool s)) = inr D ∧
           s2 = snd (pool_xp pool s)) ∧
     x = after (preamble pool) (loop pool truncate resolution ps xp D s2)).
Proof.
  cbv zeta. rewrite curves_run. unfold preamble.
  destruct (pairs_of pool s) as [f|ps] eqn:Hps.
  { left. exists (External f), []. split_and!; [done|done|by eexists|left; by eexists]. }
  cbv zeta. destruct (fst (pool_xp pool s)) as [f|xp] eqn:Hxp.
  { left. exists (External f), [CallXp].
    split_and!; [done|done|by eexists|left; by eexists]. }
  destruct (STABLESWAP pool) eqn:Hs.
  - destruct (fst (pool_D_call pool _)) as [f|D] eqn:HD.
    + left. exists (External f), [CallXp; CallD].
      split_and!; [done|done|done|left; by eexists].
    + right. by exists ps, xp, D, (snd (pool_D_call pool (snd (pool_xp pool s)))).
  - destruct (CRYPTOSWAP pool) eqn:Hc.
    + destruct (pool_D pool _) as [f|D] eqn:HD.
      * left. exists (External f), [CallXp].
        split_and!; [done|done|done|left; by eexists].
      * right. by exists ps, xp, D, (snd (pool_xp pool s)).
    + left. eexists _, [CallXp]. split_and!; [done|done|done|by right].
Qed.

Lemma bonding_curve_run (truncate : option value) (resolution : Z) (plot : bool) (s : St) :
  bonding_curve pool truncate resolution plot s =
  let x := curves pool truncate resolution s in
  match outcome x with
  | inl e => (inl e, final x, trace x)
  | inr computed =>
      if plot then
        after (trace x) (bind (plot_branch pool computed) (fun _ => ret computed.1.1) (final x))
      else (inr computed.1.1, final x, trace x)
  end.
Proof.
  unfold bonding_curve, plot_branch, bind at 1, after, outcome, final, trace. cbv zeta.
  destruct (curves pool truncate resolution s) as [[[e|computed] s'] tr]; cbn [fst snd];
    [done|].
  destruct plot.
  - by destruct (bind _ _ s') as [[r s''] tr'].
  - rewrite bind_ret. cbn. by rewrite app_nil_r.
Qed.

(** ** Plotting *)

Lemma spec_for_do {A : Type} (f : A → M St unit) (l : list A)
    (R : A → list event → Prop) E T :
  (∀ a, a ∈ l → spec (f a) (fun _ tr => R a tr) E T) →
  spec (for_do f l) (fun _ tr => ∃ trs, Forall2 R l trs ∧ tr = concat trs) E T.
Proof.
  induction l as [|a l IH]; intros Hf; cbn [for_do].
  - apply spec_ret. exists []. split; [constructor|done].
  - eapply spec_bind; [apply Hf; by left|]. intros u1 tr1 Ha. cbn beta in Ha.
    eapply spec_weaken; [apply IH; intros a' Ha'; apply Hf; by right| |done..].
    intros u2 tr2 (trs & Htrs & ->). exists (tr1 :: trs). split; [by constructor|done].
Qed.

Lemma plt_call_spec (ev : event) (Q : list event → Prop) E (T : event → Prop) :
  (∀ f, E (External f)) → T ev → Q [ev] →
  spec (plt_call pool ev) (fun _ tr => Q tr) E T.
Proof.
  intros HE HT HQ. unfold plt_call.
  eapply spec_bind; [by apply spec_call with (Q := fun _ tr => tr = [ev])|].
  intros _ tr ->. apply spec_ret. by rewrite app_nil_r.
Qed.

(** Plotting calls matplotlib and nothing else. *)
Lemma plot_branch_plt (computed : dict curve * dict (value * value) * list value) :
  spec (plot_branch pool computed) (fun _ _ => True) (fun _ => True)
    (fun ev => is_plt ev = true).
Proof.
  unfold plot_branch.
  eapply spec_bind; [by apply spec_read with (Q := fun _ _ => True)|].
  intros names tr0 _.
  eapply (spec_bind _ _ (fun _ _ => True)).
  { destruct names; [|by apply spec_ret].
    eapply spec_bind; [by apply spec_read with (Q := fun _ _ => True)|].
    intros n tr _. by apply spec_ret. }
  intros labels tr1 _. unfold _plot_bonding_curve.
  eapply spec_bind; [by apply spec_call with (Q := fun _ _ => True)|].
  intros axs tr2 _.
  eapply (spec_bind _ _ (fun _ _ => True)).
  { destruct (_ =? 1); [by apply spec_ret|]. destruct axs; [by apply spec_raise|].
    by apply spec_ret. }
  intros axs' tr3 _.
  eapply (spec_bind _ _ (fun _ _ => True)).
  { eapply spec_weaken;
      [apply (spec_for_do _ _ (fun _ _ => True) (fun _ => True) (fun ev => is_plt ev = true))
      |done..].
    intros [pair ax] _. cbn [fst snd].
    eapply (spec_bind _ _ (fun _ _ => True)).
    { unfold getkey. destruct (lookup_key _ _); [by apply spec_ret|by apply spec_raise]. }
    intros c tr4 _.
    eapply (spec_bind _ _ (fun _ _ => True)).
    { unfold unzip. destruct c; [by apply spec_raise|by apply spec_ret]. }
    intros xs_ys tr5 _.
    eapply spec_bind; [by apply plt_call_spec with (Q := fun _ => True)|].
    intros _ tr6 _.
    eapply (spec_bind _ _ (fun _ _ => True)).
    { unfold getkey. destruct (lookup_key _ _); [by apply spec_ret|by apply spec_raise]. }
    intros x_y tr7 _.
    eapply spec_bind; [by apply plt_call_spec with (Q := fun _ => True)|].
    intros _ tr8 _.
    eapply (spec_bind _ _ (fun _ _ => True));
      [by apply spec_getitem with (Q := fun _ _ => True); [left|]|].
    intros label_i tr9 _.
    eapply spec_bind; [by apply plt_call_spec with (Q := fun _ => True)|].
    intros _ tr10 _.
    eapply (spec_bind _ _ (fun _ _ => True));
      [by apply spec_getitem with (Q := fun _ _ => True); [left|]|].
    intros label_j tr11 _.
    by apply plt_call_spec with (Q := fun _ => True). }
  intros _ tr12 _. by apply plt_call_spec with (Q := fun _ => True).
Qed.

(** ** The curves *)

Lemma curves_calls (E : exn → Prop) (T : event → Prop) (truncate : option value)
    (resolution : Z) (s : St) :
  (∀ f, E (External f)) →
  (STABLESWAP pool = false → CRYPTOSWAP pool = false →
   E (TypeError ("Bonding curve calculation not supported for " +:+ type_repr pool))) →
  (∀ ps xp D s2,
     pairs_of pool s = inr ps → fst (pool_xp pool s) = inr xp → D_source pool s D s2 →
     (∀ i j v, (i, j) ∈ ps → T (CallGetY i j v xp)) ∧
     (∀ i j a, (i, j) ∈ ps →
               (∃ p, mul pool D (truncate_or_default pool truncate) = inr p ∧
                     to_int pool p = inr a) →
               T (CallGetY j i a xp)) ∧
     (∀ a b, (∃ p, mul pool D (truncate_or_default pool truncate) = inr p ∧
                   to_int pool p = inr a) → T (CallLinspace a b resolution)) ∧
     Forall (fun p => safe pool E xp p.1 p.2) ps) →
  let x := curves pool truncate resolution s in
  ∃ pre tr, trace x = pre ++ tr ∧ pre `prefix_of` (preamble pool) ∧ Forall T tr ∧
    match outcome x with
    | inl e => E e
    | inr r =>
        ∃ ps D s2 cs pts,
          pairs_of pool s = inr ps ∧ fst (pool_xp pool s) = inr r.2 ∧ D_source pool s D s2 ∧
          pre = (preamble pool) ∧ length cs = length ps ∧ length pts = length ps ∧
          r = (zip ps cs, zip ps pts, r.2) ∧ Forall (sampled pool resolution) cs ∧
          length (get_y_calls tr) = sum_list (map (fun c => S (length c)) cs)
    end.
Proof.
  intros HE HTE Hloop. cbv zeta.
  destruct (curves_cases truncate resolution s) as
    [(e & pre & Ho & Htr & Hpre & He)|(ps & xp & D & s2 & Hps & Hxp & HD & Hx)].
  - exists pre, []. rewrite app_nil_r, Ho. split_and!; [done|done|constructor|].
    destruct He as [[f ->]|(Hs & Hc & _ & ->)]; auto.
  - destruct (Hloop ps xp D s2 Hps Hxp HD) as (HT1 & HT1' & HT2 & Hsafe).
    destruct (pairs_of_ok s ps Hps) as (Hnd & Hlt & _).
    assert (Forall (fun p => p.1 < p.2 ∧ safe pool E xp p.1 p.2) ps) as Hboth.
    { apply Forall_and. done. }
    destruct (loop_calls E T truncate resolution ps xp D HE HT1 HT1' HT2 Hboth Hnd s2)
      as [HQ HT].
    exists (preamble pool), (trace (loop pool truncate resolution ps xp D s2)).
    rewrite Hx. unfold after at 1 2. cbn [outcome trace fst snd].
    split_and!; [done|done|done|].
    fold (outcome (loop pool truncate resolution ps xp D s2)).
    destruct (outcome (loop pool truncate resolution ps xp D s2)) as [e|r]; [done|].
    destruct HQ as (cs & pts & Hcs & Hpts & -> & Hsam & Hcount).
    by exists ps, D, s2, cs, pts.
Qed.

Lemma curves_spec (E : exn → Prop) (T : event → Prop) (truncate : option value)
    (resolution : Z) (s : St) :
  (∀ f, E (External f)) →
  (STABLESWAP pool = false → CRYPTOSWAP pool = false →
   E (TypeError ("Bonding curve calculation not supported for " +:+ type_repr pool))) →
  (∀ ps xp D s2,
     pairs_of pool s = inr ps → fst (pool_xp pool s) = inr xp → D_source pool s D s2 →
     (∀ i j v, T (CallGetY i j v xp)) ∧
     (∀ a b, (∃ p, mul pool D (truncate_or_default pool truncate) = inr p ∧
                   to_int pool p = inr a) → T (CallLinspace a b resolution)) ∧
     Forall (fun p => safe pool E xp p.1 p.2) ps) →
  let x := curves pool truncate resolution s in
  ∃ pre tr, trace x = pre ++ tr ∧ pre `prefix_of` (preamble pool) ∧ Forall T tr ∧
    match outcome x with
    | inl e => E e
    | inr r =>
        ∃ ps D s2 cs pts,
          pairs_of pool s = inr ps ∧ fst (pool_xp pool s) = inr r.2 ∧ D_source pool s D s2 ∧
          pre = (preamble pool) ∧ length cs = length ps ∧ length pts = length ps ∧
          r = (zip ps cs, zip ps pts, r.2) ∧ Forall (sampled pool resolution) cs ∧
          length (get_y_calls tr) = sum_list (map (fun c => S (length c)) cs)
    end.
Proof.
  intros HE HTE Hloop. apply curves_calls; [done|done|].
  intros ps xp D s2 Hps Hxp HD.
  destruct (Hloop ps xp D s2 Hps Hxp HD) as (HT1 & HT2 & Hsafe).
  split_and!; [by intros|by intros|done|done].
Qed.

Lemma bonding_curve_split (truncate : option value) (resolution : Z) (plot : bool)
    (s : St) :
  let x := bonding_curve pool truncate resolution plot s in
  let c := curves pool truncate resolution s in
  ∃ tr, trace x = trace c ++ tr ∧ Forall (fun ev => is_plt ev = true) tr ∧
        (plot = false → tr = [] ∧ final x = final c) ∧
        match outcome c with
        | inl e => outcome x = inl e ∧ tr = [] ∧ final x = final c
        | inr r => (∀ d, outcome x = inr d → d = r.1.1) ∧
                   (plot = false → outcome x = inr r.1.1)
        end.
Proof.
  cbv zeta. rewrite bonding_curve_run. cbv zeta.
  destruct (outcome (curves pool truncate resolution s)) as [e|r] eqn:Hc.
  - exists []. rewrite app_nil_r. split_and!; by try constructor.
  - destruct plot.
    + destruct (plot_branch_plt r (final (curves pool truncate resolution s))) as [_ HT].
      unfold after, bind, outcome, final, trace in *. cbn [fst snd].
      destruct (plot_branch pool r _) as [[[e|u] s'] tr]; cbn [fst snd] in *.
      * exists tr. split_and!; try done.
      * cbn [ret fst snd]. exists (tr ++ []).
        split_and!; [done|by rewrite app_nil_r|done|by intros d [= <-]|done].
    + exists []. rewrite app_nil_r. split_and!; try done; try constructor; try done.
      by intros d [= <-].
Qed.

(** X10. The keys of the dictionary returned are the pairs of coin
    indices the loop went through, each once, in the order of the loop:
    the single pair [(0, 1)] for a metapool, whatever its [n]; for any
    other pool the [n (n - 1) / 2] pairs [(i, j)] with [i < j < n], in
    lexicographic order.  In every key the first index is the smaller
    one. *)
Theorem bonding_curve_keys (truncate : option value) (resolution : Z) (plot : bool)
    (s : St) (d : dict curve) :
  outcome (bonding_curve pool truncate resolution plot s) = inr d →
  (if is_CurveMetaPool pool then keys d = [(0, 1)]
   else ∃ n, pool_n pool s = inr n ∧ keys d = index_pairs n ∧
             2 * length d = Z.to_nat n * (Z.to_nat n - 1)) ∧
  NoDup (keys d) ∧
  (∀ i j, (i, j) ∈ keys d → i < j).
Proof.
  intros Hd.
  destruct (bonding_curve_split truncate resolution plot s) as (tr & _ & _ & _ & Hc).
  destruct (curves_spec (fun _ => True) (fun _ => True) truncate resolution s)
    as (pre & tr' & _ & _ & _ & Hr); [done|done| |].
  { intros ps xp D s2 _ _ _. split_and!; [done|done|].
    apply Forall_forall. intros p _. by left. }
  destruct (outcome (curves pool truncate resolution s)) as [e|r].
  { destruct Hc as (Hc & _). congruence. }
  destruct Hc as [Hc _]. specialize (Hc d Hd). subst d.
  destruct Hr as (ps & D & s2 & cs & pts & Hps & _ & _ & _ & Hcs & _ & -> & _).
  cbn [fst snd]. rewrite keys_zip by done.
  destruct (pairs_of_ok s ps Hps) as (Hnd & Hlt & Hshape).
  split_and!; [|done|].
  - destruct (is_CurveMetaPool pool); [done|]. destruct Hshape as (n & Hn & ->).
    exists n. split_and!; [done|done|].
    rewrite length_zip_with, Hcs, Nat.min_id. apply length_index_pairs.
  - intros i j Hin. by apply (proj1 (Forall_forall _ _) Hlt (i, j)).
Qed.

(** X11. For a pool that is neither a stableswap nor a cryptoswap pool
    nothing is ever returned.  The [TypeError] naming the type of the pool
    is raised only once [pool.n] has been read and [pool._xp()] has been
    called and has returned: an object without [n] or [_xp] fails with
    the exception of that lookup instead.  [_xp()] is the only call made;
    nothing is plotted. *)
Theorem bonding_curve_unsupported (truncate : option value) (resolution : Z)
    (plot : bool) (s : St) :
  STABLESWAP pool = false → CRYPTOSWAP pool = false →
  let x := bonding_curve pool truncate resolution plot s in
  (∀ d, outcome x ≠ inr d) ∧
  x = match pool_n pool s with
      | inl f => (inl (External f), s, [])
      | inr n =>
          match fst (pool_xp pool s) with
          | inl f => (inl (External f), snd (pool_xp pool s), [CallXp])
          | inr xp =>
              (inl (TypeError ("Bonding curve calculation not supported for "
                               +:+ type_repr pool)),
               snd (pool_xp pool s), [CallXp])
          end
      end.
Proof.
  intros Hs Hc. cbv zeta. rewrite bonding_curve_run. cbv zeta.
  rewrite curves_run, Hs, Hc. unfold pairs_of.
  assert (is_CurveMetaPool pool = false) as ->.
  { unfold STABLESWAP in Hs. by destruct (is_CurvePool pool), (is_CurveMetaPool pool). }
  destruct (pool_n pool s) as [f|n]; [done|]. cbv zeta.
  destruct (fst (pool_xp pool s)) as [f|xp]; done.
Qed.


(** X13. Every call of [linspace] asks for [resolution] samples and starts
    from the same truncation point [int(D * truncate)], where [truncate]
    is the argument given (a zero included) or, when none is given,
    0.0005 for a stableswap pool and 1.0 otherwise, and [D] is what
    [pool.D()] returned for a stableswap pool and the attribute [pool.D]
    for a cryptoswap pool. *)
Theorem truncation_point (truncate : option value) (resolution : Z) (plot : bool)
    (s : St) (a : Z) (b : value) (r : Z) :
  CallLinspace a b r ∈ trace (bonding_curve pool truncate resolution plot s) →
  r = resolution ∧
  ∃ D s2 p, D_source pool s D s2 ∧
            mul pool D (truncate_or_default pool truncate) = inr p ∧ to_int pool p = inr a.
Proof.
  destruct (bonding_curve_split truncate resolution plot s) as (tr2 & -> & Hplt & _).
  destruct (curves_spec (fun _ => True)
              (fun ev => match ev with
                         | CallLinspace a b r =>
                             r = resolution ∧
                             ∃ D s2 p, D_source pool s D s2 ∧
                               mul pool D (truncate_or_default pool truncate) = inr p ∧
                               to_int pool p = inr a
                         | _ => True
                         end) truncate resolution s)
    as (pre & tr1 & -> & Hpre & HT & _); [done|done| |].
  { intros ps xp D s2 _ Hxp HD. split_and!; [done| |].
    - intros a' b' (p & Hp & Ha). split; [done|]. by exists D, s2, p.
    - apply Forall_forall. intros p _. by left. }
  intros [Hin|Hin]%elem_of_app.
  - apply elem_of_app in Hin as [Hin|Hin].
    + exfalso. destruct Hpre as [k Hk]. unfold preamble in Hk.
      assert (CallLinspace a b r ∈ CallXp :: (if STABLESWAP pool then [CallD] else []))
        as Hin'.
      { rewrite Hk. apply elem_of_app. by left. }
      destruct (STABLESWAP pool);
        repeat (apply elem_of_cons in Hin' as [Hin'|Hin']; [discriminate|]);
        by apply elem_of_nil in Hin'.
    + by apply (proj1 (Forall_forall _ _) HT) in Hin.
  - by apply (proj1 (Forall_forall _ _) Hplt) in Hin.
Qed.

Lemma get_y_calls_plt (tr : list event) :
  Forall (fun ev => is_plt ev = true) tr → get_y_calls tr = [].
Proof. induction 1 as [|[] tr H _ IH]; cbn in *; done. Qed.

Lemma get_y_calls_preamble (pre : list event) :
  pre `prefix_of` (preamble pool) → get_y_calls pre = [].
Proof.
  intros [k Hk]. unfold preamble in Hk.
  destruct pre as [|ev1 [|ev2 [|ev3 pre]]]; [done| | |];
    destruct (STABLESWAP pool); cbn in Hk; by simplify_eq.
Qed.

Lemma sum_points (cs : list curve) (n : nat) :
  Forall (fun c : curve => length c = n) cs →
  sum_list (map (fun c => S (length c)) cs) = length cs * S n.
Proof.
  induction 1 as [|c cs Hc _ IH]; [done|]. cbn [map length].
  change (sum_list (?x :: ?l)) with (x + sum_list l). rewrite IH, Hc. lia.
Qed.

(** X14. When [linspace] returns as many samples as it is asked for, every
    curve returned has exactly [resolution] points, and the pool's [get_y]
    has been called [resolution + 1] times for each pair: once for the
    limit and once per point. *)
Theorem curve_points (truncate : option value) (resolution : Z) (plot : bool)
    (s : St) (d : dict curve) :
  (∀ a b xs, linspace_round pool a b resolution = inr xs →
             length xs = Z.to_nat resolution) →
  outcome (bonding_curve pool truncate resolution plot s) = inr d →
  Forall (fun kc => length kc.2 = Z.to_nat resolution) d ∧
  length (get_y_calls (trace (bonding_curve pool truncate resolution plot s)))
    = length d * S (Z.to_nat resolution).
Proof.
  intros Hnp Hd.
  destruct (bonding_curve_split truncate resolution plot s) as (tr2 & -> & Hplt & _ & Hc).
  destruct (curves_spec (fun _ => True) (fun _ => True) truncate resolution s)
    as (pre & tr1 & -> & Hpre & _ & Hr); [done|done| |].
  { intros ps xp D s2 _ _ _. split_and!; [done|done|].
    apply Forall_forall. intros p _. by left. }
  destruct (outcome (curves pool truncate resolution s)) as [e|r].
  { destruct Hc as (Hc & _). congruence. }
  destruct Hc as [Hc _]. specialize (Hc d Hd). subst d.
  destruct Hr as (ps & D & s2 & cs & pts & _ & _ & _ & _ & Hcs & _ & -> & Hsam & Hcount).
  cbn [fst snd].
  assert (Forall (fun c : curve => length c = Z.to_nat resolution) cs) as Hlen.
  { eapply Forall_impl; [exact Hsam|]. intros c (a & b & xs & Hxs & ->). by eapply Hnp. }
  split.
  - apply Forall_forall. intros [k c] Hin. cbn.
    apply elem_of_zip_r in Hin. by apply (proj1 (Forall_forall _ _) Hlen).
  - rewrite !get_y_calls_app, (get_y_calls_plt tr2), (get_y_calls_preamble pre) by done.
    rewrite app_nil_r. cbn [app]. rewrite Hcount, length_zip_with, Hcs, Nat.min_id.
    rewrite <- Hcs. by apply sum_points.
Qed.

Lemma pairs_of_coins (s : St) (ps : list (nat * nat)) :
  pairs_of pool s = inr ps → Forall (fun p => p.1 < p.2 < coins pool s) ps.
Proof.
  unfold pairs_of, coins. destruct (is_CurveMetaPool pool).
  - intros [= <-]. repeat constructor; cbn; lia.
  - destruct (pool_n pool s) as [f|n]; [discriminate|]. intros [= <-].
    apply Forall_forall. intros [i j] Hin%elem_of_index_pairs. done.
Qed.

(** X15. Without plotting, for a stableswap or cryptoswap pool whose [xp]
    has an entry for every coin (and whose price scale, for a cryptoswap
    pool, has one for every coin after the first), the statements of the
    function raise nothing of their own: no [IndexError], no error from
    unpacking, no [TypeError].  An exception that comes out was raised by
    the pool, by the arithmetic of the values or by numpy. *)
Theorem bonding_curve_errors (truncate : option value) (resolution : Z) (s : St)
    (e : exn) :
  STABLESWAP pool = true ∨ CRYPTOSWAP pool = true →
  (∀ xp, fst (pool_xp pool s) = inr xp → coins pool s ≤ length xp) →
  (CRYPTOSWAP pool = true →
   ∀ s' scale, pool_price_scale pool s' = inr scale → coins pool s - 1 ≤ length scale) →
  outcome (bonding_curve pool truncate resolution false s) = inl e →
  ∃ f, e = External f.
Proof.
  intros Hsupp Hxp Hscale He.
  destruct (bonding_curve_split truncate resolution false s) as (tr2 & _ & _ & _ & Hc).
  destruct (curves_spec (fun e => ∃ f, e = External f) (fun _ => True)
              truncate resolution s)
    as (pre & tr1 & _ & _ & _ & Hr); [by eexists| | |].
  { intros Hs Hcr. destruct Hsupp; congruence. }
  { intros ps xp D s2 Hps Hxp' _. split_and!; [done|done|].
    eapply Forall_impl; [exact (pairs_of_coins s ps Hps)|].
    intros [i j] [Hij Hj]. cbn [fst snd] in *. right.
    specialize (Hxp xp Hxp'). split_and!; [lia|lia|].
    intros Hcr s' scale Hs'. specialize (Hscale Hcr s' scale Hs'). lia. }
  destruct (outcome (curves pool truncate resolution s)) as [e'|r].
  - destruct Hc as (Hc & _). rewrite Hc in He. by injection He as <-.
  - destruct Hc as [_ Hc]. rewrite Hc in He by done. discriminate.
Qed.

(** X16. Plotting does not change what is computed: with [plot=True] the
    calls on the pool and on numpy are those made with [plot=False], in
    the same order, followed by calls on matplotlib only; a dictionary
    returned is the one returned without plotting; an exception raised
    without plotting is raised all the same, at the same point; and
    without plotting matplotlib is not called at all. *)
Theorem plot_neutral (truncate : option value) (resolution : Z) (s : St) :
  let x := bonding_curve pool truncate resolution true s in
  let y := bonding_curve pool truncate resolution false s in
  (∀ d, outcome x = inr d → outcome y = inr d) ∧
  (∀ e, outcome y = inl e → x = y) ∧
  (∃ tr, trace x = trace y ++ tr ∧ Forall (fun ev => is_plt ev = true) tr) ∧
  Forall (fun ev => is_plt ev = false) (trace y).
Proof.
  cbv zeta.
  destruct (bonding_curve_split truncate resolution true s) as (trx & Hx & Hplt & _ & Hcx).
  destruct (bonding_curve_split truncate resolution false s)
    as (try & Hy & _ & Hfalse & Hcy).
  destruct (Hfalse eq_refl) as [-> Hfy]. rewrite app_nil_r in Hy.
  split_and!.
  - intros d Hd. destruct (outcome (curves pool truncate resolution s)) as [e|r].
    + destruct Hcx as (Hcx & _). congruence.
    + destruct Hcx as [Hcx _], Hcy as [_ Hcy]. rewrite (Hcx d Hd). by apply Hcy.
  - intros e He. destruct (outcome (curves pool truncate resolution s)) as [e'|r].
    + destruct Hcx as (Hox & -> & Hfx), Hcy as (Hoy & _ & _).
      rewrite app_nil_r in Hx.
      destruct (bonding_curve pool truncate resolution true s) as [[rx sx] tx].
      destruct (bonding_curve pool truncate resolution false s) as [[ry sy] ty].
      unfold outcome, final, trace in *. cbn [fst snd] in *. congruence.
    + destruct Hcy as [_ Hcy]. rewrite Hcy in He by done. discriminate.
  - exists trx. by rewrite Hy.
  - rewrite Hy.
    destruct (curves_spec (fun _ => True) (fun ev => is_plt ev = false)
                truncate resolution s)
      as (pre & tr1 & -> & Hpre & HT & _); [done|done| |].
    { intros ps xp D s2 _ _ _. split_and!; [done|done|].
      apply Forall_forall. intros p _. by left. }
    apply Forall_app. split; [|done].
    destruct Hpre as [k Hk]. unfold preamble in Hk.
    assert (Forall (fun ev => is_plt ev = false)
              (CallXp :: (if STABLESWAP pool then [CallD] else []))) as Hall.
    { destruct (STABLESWAP pool); by repeat constructor. }
    rewrite Hk in Hall. by apply Forall_app in Hall as [? _].
Qed.

(** ** What is plotted *)

Lemma lookup_key_elem {V : Type} (d : dict V) (k : nat * nat) :
  k ∈ keys d → ∃ v, lookup_key d k = Some v ∧ (k, v) ∈ d.
Proof.
  unfold keys. induction d as [|[k' v'] d IH]; cbn; [by intros ?%elem_of_nil|].
  destruct (decide (k' = k)) as [->|Hne].
  - intros _. exists v'. split; [done|by left].
  - intros [?|Hin]%elem_of_cons; [congruence|].
    destruct (IH Hin) as (v & Hv & Hd). exists v. split; [done|by right].
Qed.

Lemma lookup_key_NoDup {V : Type} (d : dict V) (k : nat * nat) (v : V) :
  NoDup (keys d) → (k, v) ∈ d → lookup_key d k = Some v.
Proof.
  unfold keys. induction d as [|[k' v'] d IH]; cbn; [by intros _ ?%elem_of_nil|].
  intros [Hk' Hnd]%NoDup_cons [[= <- <-]|Hin]%elem_of_cons.
  - by rewrite decide_True.
  - rewrite decide_False; [by apply IH|]. intros ->. apply Hk'.
    apply list_elem_of_fmap. by exists (k, v).
Qed.

(** The axes the loop of [_plot_bonding_curve] goes through, when
    matplotlib keeps to its convention: as many as there are curves. *)
Lemma subplots_spec (n : nat) E (T : event → Prop) :
  squeezes pool → (∀ f, E (External f)) → T (CallSubplots 1 n) →
  spec (call (plt pool (CallSubplots 1 n)) (CallSubplots 1 n))
    (fun axs tr =>
       tr = [CallSubplots 1 n] ∧
       match axs with Axes _ => n = 1 | AxesArray ids => n ≠ 1 ∧ length ids = n end)
    E T.
Proof.
  intros Hsq HE HT. apply spec_call; [done|done|]. intros s axs Haxs. split; [done|].
  specialize (Hsq s n). by rewrite Haxs in Hsq.
Qed.

Lemma axes_list_spec (n : nat) (axs : axes) E T :
  match axs with Axes _ => n = 1 | AxesArray ids => n ≠ 1 ∧ length ids = n end →
  @spec St _ (if (n =? 1)%nat then ret [axs] else iterate axs)
    (fun l tr => length l = n ∧ tr = []) E T.
Proof.
  intros Haxs. destruct (Nat.eqb_spec n 1) as [->|Hn].
  - by apply spec_ret.
  - destruct axs as [a|ids]; [done|]. destruct Haxs as [_ Hlen]. apply spec_ret.
    by rewrite length_map.
Qed.

Lemma plotted_none (tr : list event) :
  (∀ ev, ev ∈ tr → ∀ ax xs ys, ev ≠ CallPlot ax xs ys) → plotted tr = [].
Proof.
  unfold plotted. induction tr as [|ev tr IH]; [done|]. intros Hev.
  cbn [omap list_omap].
  rewrite IH by (intros ev' Hin; apply Hev; by right).
  destruct ev; try done. by destruct (Hev (CallPlot ax xs ys) ltac:(by left) ax xs ys).
Qed.

(** X17. When numpy returns no sample at all (a resolution of zero), the
    function without plotting returns a dictionary whose curves are all
    empty; with [plot=True] the same call returns nothing: once the
    figure has been asked for it stops with the [ValueError] of unpacking
    the empty transposition of the first curve, unless matplotlib or the
    pool raised before.  No curve is drawn and [plt.show()] is never
    called. *)
Theorem empty_curves_not_plotted (truncate : option value) (resolution : Z) (s : St)
    (d : dict curve) :
  squeezes pool →
  (∀ a b xs, linspace_round pool a b resolution = inr xs → xs = []) →
  outcome (bonding_curve pool truncate resolution false s) = inr d →
  d ≠ [] →
  let x := bonding_curve pool truncate resolution true s in
  Forall (fun kc => kc.2 = []) d ∧
  (∀ d', outcome x ≠ inr d') ∧
  (∀ e, outcome x = inl e →
        e = ValueError "not enough values to unpack (expected 2, got 0)" ∨
        ∃ f, e = External f) ∧
  plotted (trace x) = [] ∧
  CallShow ∉ trace x.
Proof.
  intros Hsq Hnp Hd Hne. cbv zeta.
  destruct (bonding_curve_split truncate resolution false s) as (tr0 & _ & _ & _ & Hc).
  destruct (curves_spec (fun _ => True) (fun ev => is_plt ev = false)
              truncate resolution s)
    as (pre & tr1 & Htr & Hpre & HT & Hr); [done|done| |].
  { intros ps xp D s2 _ _ _. split_and!; [done|done|].
    apply Forall_forall. intros p _. by left. }
  rewrite bonding_curve_run. cbv zeta.
  destruct (outcome (curves pool truncate resolution s)) as [e|r] eqn:Ho.
  { destruct Hc as (Hc & _). congruence. }
  destruct Hc as [_ Hc]. rewrite Hc in Hd by done. injection Hd as <-.
  destruct Hr as (ps & D & s2 & cs & pts & Hps & _ & _ & -> & Hcs & Hpts & Hr & Hsam & _).
  assert (Forall (fun kc : nat * nat * curve => kc.2 = []) r.1.1) as Hempty.
  { rewrite Hr. cbn [fst snd]. apply Forall_forall. intros [k c] Hin%elem_of_zip_r.
    apply (proj1 (Forall_forall _ _) Hsam) in Hin as (a & b & xs & Hxs & Hlen).
    apply Hnp in Hxs as ->. cbn. by destruct c. }
  assert (spec (plot_branch pool r) (fun _ _ => False)
            (fun e => e = ValueError "not enough values to unpack (expected 2, got 0)" ∨
                      ∃ f, e = External f)
            (fun ev => ∃ n, ev = CallSubplots 1 n)) as Hplot.
  { unfold plot_branch.
    eapply spec_bind; [apply spec_read with (Q := fun _ tr => tr = []); by eauto|].
    intros names tr2 ->.
    eapply (spec_bind _ _ (fun _ tr => tr = [])).
    { destruct names; [|by apply spec_ret].
      eapply spec_bind; [apply spec_read with (Q := fun _ tr => tr = []); by eauto|].
      intros n tr ->. by apply spec_ret. }
    intros labels tr3 ->. unfold _plot_bonding_curve. cbv zeta.
    eapply spec_bind; [apply subplots_spec; by eauto|].
    intros axs tr4 [-> Haxs].
    eapply spec_bind; [by apply axes_list_spec|].
    intros axl tr5 [Haxl ->].
    destruct r.1.1 as [|[k c] ptc] eqn:Hptc; [done|].
    destruct axl as [|ax axl]; [done|]. cbn [keys map zip zip_with for_do fst snd].
    eapply (spec_bind _ _ (fun _ _ => False)); [|done].
    eapply (spec_bind _ _ (fun _ _ => False)); [|done].
    eapply (spec_bind _ _ (fun c' tr => c' = [])).
    { unfold getkey. cbn [lookup_key]. rewrite decide_True by done.
      apply spec_ret. by apply Forall_cons in Hempty as [? _]. }
    intros c' tr6 ->.
    eapply (spec_bind _ _ (fun _ _ => False)); [|done].
    apply spec_raise. by left. }
  destruct (Hplot (final (curves pool truncate resolution s))) as [HQ HTp].
  unfold after, bind, outcome, final, trace in *. cbn [fst snd] in *.
  destruct (plot_branch pool r _) as [[[e|u] s'] trp]; cbn [fst snd] in *; [|done].
  assert (∀ ev, ev ∈ (curves pool truncate resolution s).2 ++ trp →
                (∀ ax xs ys, ev ≠ CallPlot ax xs ys) ∧ ev ≠ CallShow) as Hev.
  { rewrite Htr. intros ev [[Hin|Hin]%elem_of_app|Hin]%elem_of_app.
    - destruct Hpre as [k Hk]. unfold preamble in Hk.
      assert (ev ∈ CallXp :: (if STABLESWAP pool then [CallD] else [])) as Hin'.
      { rewrite Hk. apply elem_of_app. by left. }
      destruct (STABLESWAP pool);
        repeat (apply elem_of_cons in Hin' as [->|Hin']; [done|]);
        by apply elem_of_nil in Hin'.
    - apply (proj1 (Forall_forall _ _) HT) in Hin. by destruct ev.
    - apply (proj1 (Forall_forall _ _) HTp) in Hin as [n ->]. done. }
  split_and!; [done|done|by intros e' [= <-]| |].
  - apply plotted_none. intros ev Hin. by apply Hev.
  - intros Hin. by destruct (Hev _ Hin) as [_ ?].
Qed.

Lemma Forall2_function {A B : Type} (f : A → B) (l : list A) (k : list B) :
  Forall2 (fun a b => b = f a) l k → k = map f l.
Proof. induction 1 as [|a b l k -> _ IH]; [done|]. cbn. by rewrite IH. Qed.

Ltac plt_step :=
  match goal with
  | |- spec (bind (plt_call _ ?ev) _) _ _ _ =>
      eapply spec_bind; [by apply (plt_call_spec ev (fun tr => tr = [ev]))|]
  end.

(** What one subplot is made of. *)
Lemma subplots_read (l : list ((nat * nat) * axes)) (trs : list (list event))
    (P : (nat * nat) → curve → Prop) (L : nat → string → Prop) :
  Forall2 (fun pa tr => ∃ c pt li lj,
             P pa.1 c ∧ L pa.1.1 li ∧ L pa.1.2 lj ∧
             tr = [CallPlot pa.2 (map fst c) (map snd c); CallScatter pa.2 pt.1 pt.2;
                   CallSetXlabel pa.2 li; CallSetYlabel pa.2 lj]) l trs →
  Forall2 (fun pa xy => ∃ c, P pa.1 c ∧ xy = transposed c) l (plotted (concat trs)) ∧
  Forall2 (fun pa li => L pa.1.1 li) l (xlabels (concat trs)) ∧
  Forall2 (fun pa lj => L pa.1.2 lj) l (ylabels (concat trs)) ∧
  subplot_calls (concat trs) = [] ∧
  length (scattered (concat trs)) = length l.
Proof.
  induction 1 as [|pa tr l trs (c & pt & li & lj & Hc & Hi & Hj & ->) _ IH].
  - split_and!; by try constructor.
  - destruct IH as (IH1 & IH2 & IH3 & IH4 & IH5). cbn [concat app].
    split_and!.
    + constructor; [by exists c|done].
    + by constructor.
    + by constructor.
    + done.
    + cbn [length]. rewrite <- IH5. done.
Qed.

(** The part of [_plot_bonding_curve] that follows the labels. *)
Lemma plot_spec (ps : list (nat * nat)) (cs : list curve) (pts : list (value * value))
    (labels : list string) (xp : list value) :
  squeezes pool → NoDup ps → length cs = length ps → length pts = length ps →
  spec (_plot_bonding_curve pool (zip ps cs) (zip ps pts) labels xp)
    (fun _ tr =>
       Forall (fun c => c ≠ []) cs ∧
       plotted tr = map transposed cs ∧
       Forall2 (fun k l => labels !! k.1 = Some l) ps (xlabels tr) ∧
       Forall2 (fun k l => labels !! k.2 = Some l) ps (ylabels tr) ∧
       subplot_calls tr = [(1, length ps)] ∧
       length (scattered tr) = length ps ∧
       last tr = Some CallShow)
    (fun _ => True) (fun _ => True).
Proof.
  intros Hsq Hnd Hcs Hpts. unfold _plot_bonding_curve. cbv zeta.
  assert (length (zip ps cs) = length ps) as Hn
    by (rewrite length_zip_with; lia).
  rewrite Hn, keys_zip by done.
  eapply spec_bind; [by apply subplots_spec|].
  intros axs tr1 [-> Haxs].
  eapply spec_bind; [by apply axes_list_spec|].
  intros axl tr2 [Haxl ->].
  eapply spec_bind.
  { apply (spec_for_do _ _ (fun pa tr => ∃ c pt li lj,
             (lookup_key (zip ps cs) pa.1 = Some c ∧ c ≠ []) ∧
             labels !! pa.1.1 = Some li ∧ labels !! pa.1.2 = Some lj ∧
             tr = [CallPlot pa.2 (map fst c) (map snd c); CallScatter pa.2 pt.1 pt.2;
                   CallSetXlabel pa.2 li; CallSetYlabel pa.2 lj])).
    intros [pair ax] _. cbn [fst snd].
    eapply (spec_bind _ _ (fun c tr => tr = [] ∧ lookup_key (zip ps cs) pair = Some c)).
    { unfold getkey. destruct (lookup_key (zip ps cs) pair) as [c|];
        [by apply spec_ret|by apply spec_raise]. }
    intros c tr3 [-> Hc].
    eapply (spec_bind _ _ (fun xy tr => tr = [] ∧ c ≠ [] ∧ xy = (map fst c, map snd c))).
    { unfold unzip. destruct c; [by apply spec_raise|by apply spec_ret]. }
    intros xy tr4 (-> & Hne & ->). cbn [fst snd].
    plt_step.
    intros u1 tr5 ->.
    eapply (spec_bind _ _ (fun _ tr => tr = [])).
    { unfold getkey. destruct (lookup_key (zip ps pts) _);
        [by apply spec_ret|by apply spec_raise]. }
    intros pt tr6 ->.
    plt_step.
    intros u2 tr7 ->.
    eapply (spec_bind _ _ (fun li tr => tr = [] ∧ labels !! pair.1 = Some li)).
    { apply spec_getitem; [by left|done]. }
    intros li tr8 [-> Hli].
    plt_step.
    intros u3 tr9 ->.
    eapply (spec_bind _ _ (fun lj tr => tr = [] ∧ labels !! pair.2 = Some lj)).
    { apply spec_getitem; [by left|done]. }
    intros lj tr10 [-> Hlj].
    match goal with
    | |- spec (plt_call _ ?ev) _ _ _ =>
        eapply spec_weaken;
          [by apply (plt_call_spec ev (fun tr => tr = [ev])
                       (fun _ => True) (fun _ => True))| |done..]
    end.
    intros u4 tr11 ->. cbn [app]. by exists c, pt, li, lj. }
  intros u tr3 (trs & Htrs & ->).
  eapply spec_weaken;
    [by apply (plt_call_spec CallShow (fun tr => tr = [CallShow])
                 (fun _ => True) (fun _ => True))| |done..].
  intros u' tr4 ->. cbn [app].
  destruct (subplots_read (zip ps axl) trs
              (fun k c => lookup_key (zip ps cs) k = Some c ∧ c ≠ [])
              (fun i l => labels !! i = Some l) Htrs) as (H1 & H2 & H3 & H4 & H5).
  assert (fst <$> zip ps axl = ps) as Hfst by (apply fst_zip; lia).
  assert (length (zip ps axl) = length ps) as Hlen by (rewrite length_zip_with; lia).
  assert (∀ k c, (k, c) ∈ zip ps cs → lookup_key (zip ps cs) k = Some c) as Hlook.
  { intros k c. apply lookup_key_NoDup. by rewrite keys_zip. }
  assert (Forall2 (fun k xy => ∃ c, (lookup_key (zip ps cs) k = Some c ∧ c ≠ []) ∧
                                     xy = transposed c) ps (plotted (concat trs))) as H1'.
  { rewrite <- Hfst at 1. by apply Forall2_fmap_l. }
  assert (Forall2 (fun c xy => c ≠ [] ∧ xy = transposed c) cs (plotted (concat trs)))
    as H1''.
  { apply Forall2_same_length_lookup. split.
    { rewrite <- (Forall2_length _ _ _ H1'). done. }
    intros i c xy Hc Hxy.
    destruct (lookup_lt_is_Some_2 ps i) as [k Hk];
      [rewrite <- Hcs; by eapply lookup_lt_Some|].
    destruct (Forall2_lookup_lr _ _ _ _ _ _ H1' Hk Hxy) as (c' & [Hc' Hne] & ->).
    rewrite (Hlook k c) in Hc'.
    - by injection Hc' as <-.
    - apply list_elem_of_lookup_2 with i. apply lookup_zip_with_Some. by exists k, c. }
  split_and!.
  - eapply Forall2_Forall_l; [exact H1''|]. apply Forall_true. intros xy c [? _]. done.
  - unfold plotted. cbn [omap list_omap]. rewrite omap_app. cbn [omap list_omap].
    rewrite app_nil_r. fold (plotted (concat trs)).
    apply Forall2_function. eapply Forall2_impl; [exact H1''|]. by intros c xy [_ ->].
  - unfold xlabels. cbn [omap list_omap]. rewrite omap_app. cbn [omap list_omap].
    rewrite app_nil_r. fold (xlabels (concat trs)).
    rewrite <- Hfst at 1. by apply Forall2_fmap_l.
  - unfold ylabels. cbn [omap list_omap]. rewrite omap_app. cbn [omap list_omap].
    rewrite app_nil_r. fold (ylabels (concat trs)).
    rewrite <- Hfst at 1. by apply Forall2_fmap_l.
  - unfold subplot_calls. cbn [omap list_omap]. rewrite omap_app. cbn [omap list_omap].
    rewrite app_nil_r. fold (subplot_calls (concat trs)). by rewrite H4.
  - unfold scattered. cbn [omap list_omap]. rewrite omap_app. cbn [omap list_omap].
    rewrite app_nil_r. fold (scattered (concat trs)). by rewrite H5.
  - change (CallSubplots 1 (length ps) :: concat trs ++ [CallShow])
      with ((CallSubplots 1 (length ps) :: concat trs) ++ [CallShow]).
    apply last_snoc.
Qed.

(** The calls of the pool and of numpy leave nothing for the readers of
    the figure. *)
Lemma not_plt_read (tr : list event) :
  Forall (fun ev => is_plt ev = false) tr →
  plotted tr = [] ∧ scattered tr = [] ∧ xlabels tr = [] ∧ ylabels tr = [] ∧
  subplot_calls tr = [].
Proof.
  induction 1 as [|ev tr Hev _ (IH1 & IH2 & IH3 & IH4 & IH5)]; [done|].
  unfold plotted, scattered, xlabels, ylabels, subplot_calls in *.
  destruct ev; try discriminate Hev; cbn [omap list_omap]; by split_and!.
Qed.

Lemma labels_spec (names : list string) :
  spec (match names with
        | [] => n <- read (pool_n pool) ;; ret (map coin_label (range n))
        | _ => ret names
        end)
    (fun labels tr =>
       tr = [] ∧
       ∀ i l, labels !! i = Some l →
              match names with [] => l = coin_label i | _ => names !! i = Some l end)
    (fun _ => True) (fun _ => True).
Proof.
  destruct names as [|name names].
  - eapply spec_bind; [by apply spec_read with (Q := fun _ tr => tr = [])|].
    intros n tr ->. apply spec_ret. split; [done|]. intros i l. unfold range.
    rewrite list_lookup_fmap. intros Hl.
    destruct (seq 0 (Z.to_nat n) !! i) as [k|] eqn:Hk; [|done].
    apply lookup_seq in Hk as [-> _]. by injection Hl as <-.
  - by apply spec_ret.
Qed.

(** X18. When the function returns with [plot=True], one figure of one
    row and as many columns as there are curves was asked for; no curve
    is empty; [plot] was called once per curve, in the order of the
    dictionary, with the first coordinates of the curve and its second
    coordinates; one current point was drawn per curve; the x and y labels
    are the [coin_names] of the pool at the two indices of the pair, or
    ["Coin i"] and ["Coin j"] when the pool has no names; and the last
    call of all is [plt.show()]. *)
Theorem plot_contents (truncate : option value) (resolution : Z) (s : St)
    (d : dict curve) :
  squeezes pool →
  outcome (bonding_curve pool truncate resolution true s) = inr d →
  let x := bonding_curve pool truncate resolution true s in
  let s' := final (bonding_curve pool truncate resolution false s) in
  ∃ names,
    pool_coin_names pool s' = inr names ∧
    subplot_calls (trace x) = [(1, length d)] ∧
    Forall (fun kc => kc.2 ≠ []) d ∧
    plotted (trace x) = map (fun kc => transposed kc.2) d ∧
    length (scattered (trace x)) = length d ∧
    Forall2 (fun k l => match names with
                        | [] => l = coin_label k.1
                        | _ => names !! k.1 = Some l
                        end) (keys d) (xlabels (trace x)) ∧
    Forall2 (fun k l => match names with
                        | [] => l = coin_label k.2
                        | _ => names !! k.2 = Some l
                        end) (keys d) (ylabels (trace x)) ∧
    last (trace x) = Some CallShow.
Proof.
  intros Hsq Hd. cbv zeta.
  destruct (curves_spec (fun _ => True) (fun ev => is_plt ev = false)
              truncate resolution s)
    as (pre & tr1 & Htr & Hpre & HT & Hr); [done|done| |].
  { intros ps xp D s2 _ _ _. split_and!; [done|done|].
    apply Forall_forall. intros p _. by left. }
  rewrite !bonding_curve_run in *. cbv zeta in *.
  destruct (outcome (curves pool truncate resolution s)) as [e|r] eqn:Ho; [done|].
  destruct Hr as (ps & D & s2 & cs & pts & Hps & _ & _ & -> & Hcs & Hpts & Hr & _ & _).
  apply pairs_of_ok in Hps as (Hnd & _ & _).
  assert (Forall (fun ev => is_plt ev = false)
            (trace (curves pool truncate resolution s))) as Hquiet.
  { rewrite Htr. apply Forall_app. split; [|done]. unfold preamble.
    destruct (STABLESWAP pool); by repeat constructor. }
  destruct (not_plt_read _ Hquiet) as (Hq1 & Hq2 & Hq3 & Hq4 & Hq5).
  set (s1 := final (curves pool truncate resolution s)) in *.
  unfold plot_branch in *. rewrite bind_assoc, bind_read in *.
  cbn [final fst snd].
  destruct (pool_coin_names pool s1) as [f|names]; [done|].
  exists names. split; [done|].
  assert (spec (labels <- (match names with
                           | [] => n <- read (pool_n pool) ;; ret (map coin_label (range n))
                           | _ => ret names
                           end) ;;
                _plot_bonding_curve pool r.1.1 r.1.2 labels r.2)
            (fun _ tr =>
               Forall (fun c => c ≠ []) cs ∧
               plotted tr = map transposed cs ∧
               Forall2 (fun k l => match names with
                                   | [] => l = coin_label k.1
                                   | _ => names !! k.1 = Some l
                                   end) ps (xlabels tr) ∧
               Forall2 (fun k l => match names with
                                   | [] => l = coin_label k.2
                                   | _ => names !! k.2 = Some l
                                   end) ps (ylabels tr) ∧
               subplot_calls tr = [(1, length ps)] ∧
               length (scattered tr) = length ps ∧
               last tr = Some CallShow)
            (fun _ => True) (fun _ => True)) as Hplot.
  { eapply spec_bind; [apply labels_spec|]. intros labels tr2 [-> Hlabels].
    rewrite Hr. cbn [fst snd].
    eapply spec_weaken; [by apply plot_spec| |done..].
    intros _ tr (H1 & H2 & H3 & H4 & H5 & H6 & H7).
    split_and!; try done.
    - eapply Forall2_impl; [exact H3|]. intros k l. apply Hlabels.
    - eapply Forall2_impl; [exact H4|]. intros k l. apply Hlabels. }
  destruct (Hplot s1) as [HQ _]. clear Hplot.
  match type of HQ with
  | match outcome ?run with _ => _ end => destruct (outcome run) as [e|u] eqn:Hrun
  end.
  { rewrite (bind_raises _ _ _ _ Hrun) in Hd. discriminate Hd. }
  rewrite (bind_continues _ _ _ _ Hrun) in *.
  unfold after in *. cbn [outcome final trace ret fst snd] in *.
  injection Hd as <-.
  match type of HQ with context [plotted ?t] => set (tr := t) in * end.
  destruct HQ as (H1 & H2 & H3 & H4 & H5 & H6 & H7).
  rewrite Hr. cbn [fst snd]. rewrite keys_zip by done.
  assert (length (zip ps cs) = length ps) as Hn by (rewrite length_zip_with; lia).
  rewrite Hn, app_nil_r.
  unfold plotted, scattered, xlabels, ylabels, subplot_calls in *.
  rewrite !omap_app, Hq1, Hq2, Hq3, Hq4, Hq5. cbn [app].
  split_and!; try done.
  - apply Forall_forall. intros [k c] Hin%elem_of_zip_r.
    by apply (proj1 (Forall_forall _ _) H1).
  - rewrite H2. clear -Hcs. revert cs Hcs.
    induction ps as [|p ps IH]; intros [|c cs] Hcs; try done.
    cbn. f_equal. apply IH. cbn in Hcs. lia.
  - rewrite last_app, H7. done.
Qed.

(** ** The arguments of [get_y] *)

(** X19. Every call of the pool's [get_y] is for two different coins,
    both among the coins the loop ranges over (below [n]; 0 and 1 for a
    metapool), and its two indices are those of a pair of the loop, in
    either order.  A call whose first index is the greater one is the call
    for the limit, and its amount is the truncation point
    [int(D * truncate)]. *)
Theorem get_y_arguments (truncate : option value) (resolution : Z) (plot : bool)
    (s : St) (i j : nat) (v : Z) (xp : list value) :
  CallGetY i j v xp ∈ trace (bonding_curve pool truncate resolution plot s) →
  i ≠ j ∧ i < coins pool s ∧ j < coins pool s ∧
  (∃ ps, pairs_of pool s = inr ps ∧ ((i, j) ∈ ps ∨ (j, i) ∈ ps)) ∧
  (j < i → ∃ D s2 p, D_source pool s D s2 ∧
                     mul pool D (truncate_or_default pool truncate) = inr p ∧
                     to_int pool p = inr v).
Proof.
  intros Hin.
  destruct (bonding_curve_split truncate resolution plot s) as (tr2 & Htr & Hplt & _).
  destruct (curves_calls (fun _ => True)
              (fun ev => ∀ i j v xp, ev = CallGetY i j v xp →
                 ∃ ps, pairs_of pool s = inr ps ∧
                       ((i, j) ∈ ps ∨
                        ((j, i) ∈ ps ∧
                         ∃ D s2 p, D_source pool s D s2 ∧
                                   mul pool D (truncate_or_default pool truncate) = inr p ∧
                                   to_int pool p = inr v)))
              truncate resolution s)
    as (pre & tr1 & Htr1 & Hpre & HT & _); [done|done| |].
  { intros ps xp' D s2 Hps _ HD. split_and!.
    - intros i' j' v' Hij i0 j0 v0 xp0 [= <- <- <- <-]. exists ps. by auto.
    - intros i' j' a Hij (p & Hp & Ha) i0 j0 v0 xp0 [= <- <- <- <-]. exists ps.
      split; [done|right]. split; [done|]. by exists D, s2, p.
    - intros a b _ i0 j0 v0 xp0 [=].
    - apply Forall_forall. intros p _. by left. }
  rewrite Htr, Htr1 in Hin.
  apply elem_of_app in Hin as [[Hin|Hin]%elem_of_app|Hin].
  - destruct Hpre as [rest Hrest]. assert (CallGetY i j v xp ∈ preamble pool) as Hin'.
    { rewrite Hrest. apply elem_of_app. by left. }
    unfold preamble in Hin'. destruct (STABLESWAP pool);
      repeat (apply elem_of_cons in Hin' as [Hin'|Hin']; [discriminate Hin'|]);
      by apply elem_of_nil in Hin'.
  - destruct (proj1 (Forall_forall _ _) HT _ Hin i j v xp eq_refl) as (ps & Hps & Hij).
    pose proof (pairs_of_coins s ps Hps) as Hlt.
    assert (∀ a b, (a, b) ∈ ps → a < b < coins pool s) as Hlt'.
    { intros a b Hab. by apply (proj1 (Forall_forall _ _) Hlt (a, b)). }
    destruct Hij as [Hij|[Hij Hv]].
    + apply Hlt' in Hij as Hb. split_and!; [lia|lia|lia|exists ps; by auto|lia].
    + apply Hlt' in Hij as Hb. split_and!; [lia|lia|lia|exists ps; by auto|done].
  - by apply (proj1 (Forall_forall _ _) Hplt) in Hin.
Qed.

End Curve.

(** * The theorems at work *)

Lemma demo_stateless (proxy_abi : string) : stateless (demo proxy_abi).
Proof. split; reflexivity. Qed.

Lemma throttled_rate_limited (s : unit) (url : string) (d : dict) :
  rate_limited (fst (http_get throttled s url d)).
Proof.
  exists {[ "result" := VStr "Max rate limit reached" ]}, "Max rate limit reached".
  split_and!; [reflexivity|apply lookup_singleton_eq|reflexivity].
Qed.

(** [explorer] on the query of [ABI] for [0xAAA], with the key [KEY]. *)
Lemma explorer_updates_params_witness :
  let st := MState [abi_query "0xAAA"] tt in
  let x := run (demo "abi-aave") (explorer (Some "KEY") 1 0) st in
  ∃ d', heap (final x) !! 0 = Some d' ∧
        d' !! "apikey" = Some (VStr "KEY") ∧
        (∀ k, k ≠ "apikey" → d' !! k = abi_query "0xAAA" !! k) ∧
        (∀ r, r ≠ 0 → heap (final x) !! r = heap st !! r) ∧
        (∀ url p, LHttp url p ∈ trace x → p = d').
Proof.
  exact (explorer_updates_params (demo "abi-aave") (Some "KEY") 1 0
           (MState [abi_query "0xAAA"] tt) (abi_query "0xAAA") eq_refl).
Defined.

(** Fifty rounds against an explorer that is down. *)
Lemma explorer_retries_forever_witness :
  let x := run throttled (explorer None 50 0) (MState [∅] tt) in
  outcome x = Pending ∧ length (requests (trace x)) = 50 ∧ length (sleeps (trace x)) = 50.
Proof.
  exact (explorer_retries_forever throttled None 50 0 (MState [∅] tt)
           throttled_rate_limited).
Defined.

(** Five rate-limited answers, then the ABI. *)
Lemma explorer_backoff_witness :
  let x := run scripted (explorer None 6 0)
             (MState [∅] (replicate 5 (answer "Max rate limit reached")
                          ++ answer "ok" :: [])) in
  outcome x = Returned (VStr "ok") ∧
  sleeps (trace x) = waits 5 t_wait0 ∧
  total_wait (sleeps (trace x)) = total_wait (waits 5 t_wait0) ∧
  length (requests (trace x)) = 6 ∧
  wst (final x) = [].
Proof.
  refine (explorer_backoff None (replicate 5 (answer "Max rate limit reached"))
            {[ "result" := VStr "ok" ]} "ok" [] 6 0 [∅] _ _ _ _).
  - repeat constructor;
      exists {[ "result" := VStr "Max rate limit reached" ]}, "Max rate limit reached";
      (split_and!; [reflexivity|apply lookup_singleton_eq|reflexivity]).
  - apply lookup_singleton_eq.
  - reflexivity.
  - cbn. lia.
Defined.

(** An empty ABI string handed to [contract]. *)
Lemma contract_fetches_iff_falsy_witness :
  let w := demo "abi-aave" in
  let st := MState [] tt in
  let x := run w (contract None 1 "0xAAA" (VStr "")) st in
  (requests (trace x) ≠ [] ↔ truthy (VStr "") = false) ∧
  (truthy (VStr "") = false ↔ VStr "" = VNone ∨ VStr "" = VStr "" ∨ VStr "" = VList []) ∧
  (truthy (VStr "") = true →
     trace x = [LContract "0xAAA" (VStr "")] ∧ final x = st ∧
     outcome x = match eth_contract w "0xAAA" (VStr "") with
                 | Some f => Raised (External f)
                 | None => Returned (Contract "0xAAA" (VStr ""))
                 end) ∧
  (truthy (VStr "") = false →
     (∃ tr, trace x = LHttp ETHERSCAN_URL (abi_request None "0xAAA") :: tr) ∧
     (∀ c, outcome x = Returned c →
           ∃ fetched, outcome (run w (ABI None 1 "0xAAA") st) = Returned fetched ∧
                      c = Contract "0xAAA" fetched ∧
                      bindings (trace x) = [c])).
Proof.
  refine (contract_fetches_iff_falsy (demo "abi-aave") None 1 "0xAAA" (VStr "")
            (MState [] tt) _).
  lia.
Defined.

(** [0xAAA] has both [underlying] and [token]. *)
Lemma candidate_priority_witness :
  let w := demo "abi-aave" in
  let c := Contract "0xAAA" (VStr "abi-AAA") in
  let tr1 := [LHttp ETHERSCAN_URL (abi_request None "0xAAA");
              LContract "0xAAA" (VStr "abi-AAA")] in
  let x := run w (_underlying_coin_address None 1 "0xAAA") (MState [] tt) in
  trace x = tr1 ++ [LDir c; LDir c; LCall c "underlying"] ∧
  calls (trace x) = [(c, "underlying")] ∧
  outcome x = Returned (VStr "0xCCC").
Proof.
  refine ((λ H, proj1 (proj2 H) _ _)
            (candidate_priority (demo "abi-aave") None 1 "0xAAA" (MState [] tt)
               (MState [abi_request None "0xAAA"] tt)
               (Contract "0xAAA" (VStr "abi-AAA"))
               [LHttp ETHERSCAN_URL (abi_request None "0xAAA");
                LContract "0xAAA" (VStr "abi-AAA")] _)).
  - compute_done.
  - compute_done.
  - vm_compute. reflexivity.
Defined.

(** [0xEEE] has no verified source, hence none of the candidates. *)
Lemma resolution_error_iff_witness :
  let w := demo "abi-aave" in
  let c := Contract "0xEEE" (VStr "Contract source code not verified") in
  let tr1 := [LHttp ETHERSCAN_URL (abi_request None "0xEEE");
              LContract "0xEEE" (VStr "Contract source code not verified")] in
  let x := run w (_underlying_coin_address None 1 "0xEEE") (MState [] tt) in
  outcome x = Raised (ValueError "Could not find underlying token for 0xEEE") ∧
  trace x = tr1 ++ [LDir c; LDir c; LDir c] ∧
  calls (trace x) = [] ∧
  final x = MState [abi_request None "0xEEE"] tt.
Proof.
  refine ((λ H, proj2 H _)
            (resolution_error_iff (demo "abi-aave") None 1 "0xEEE" (MState [] tt)
               (MState [abi_request None "0xEEE"] tt)
               (Contract "0xEEE" (VStr "Contract source code not verified"))
               [LHttp ETHERSCAN_URL (abi_request None "0xEEE");
                LContract "0xEEE" (VStr "Contract source code not verified")] _)).
  - split_and!; compute_done.
  - vm_compute. reflexivity.
Defined.

(** [0xBBB] is a proxy; the explorer knows the ABI of the Aave proxy. *)
Lemma proxy_override_witness :
  let w := demo "abi-aave" in
  let c := Contract "0xBBB" (VStr "abi-BBB") in
  let c' := Contract "0xBBB" (VStr "abi-aave") in
  let tr1 := [LHttp ETHERSCAN_URL (abi_request None "0xBBB");
              LContract "0xBBB" (VStr "abi-BBB")] in
  let tr2 := [LHttp ETHERSCAN_URL (abi_request None AAVE_PROXY)] in
  let x := run w (_underlying_coin_address None 1 "0xBBB") (MState [] tt) in
  trace x = tr1 ++ LDir c :: tr2
              ++ [LContract "0xBBB" (VStr "abi-aave"); LCall c' "UNDERLYING_ASSET_ADDRESS"] ∧
  calls (trace x) = [(c', "UNDERLYING_ASSET_ADDRESS")] ∧
  outcome x = Returned (VStr "0xDDD") ∧
  (∃ tr, tr2 = LHttp ETHERSCAN_URL (abi_request None AAVE_PROXY) :: tr).
Proof.
  refine (proxy_override (demo "abi-aave") None 1 "0xBBB" (MState [] tt)
            (MState [abi_request None "0xBBB"] tt)
            (MState [abi_request None "0xBBB"; abi_request None AAVE_PROXY] tt)
            (Contract "0xBBB" (VStr "abi-BBB"))
            [LHttp ETHERSCAN_URL (abi_request None "0xBBB");
             LContract "0xBBB" (VStr "abi-BBB")]
            [LHttp ETHERSCAN_URL (abi_request None AAVE_PROXY)]
            (VStr "abi-aave") _ _ _ _ _).
  - vm_compute. reflexivity.
  - compute_done.
  - vm_compute. reflexivity.
  - reflexivity.
  - reflexivity.
Defined.

(** The end-to-end scenario: [0xAAA] and the proxy [0xBBB], under a
    schedule that lets the second task finish before the first starts. *)
Lemma batch_order_witness :
  let x := await (demo "abi-aave") (replicate 10 1 ++ replicate 7 0)
             (underlying_coin_addresses None 1 (AIter ["0xAAA"; "0xBBB"]))
             (MState [] tt) in
  outcome x = Returned (VList [VStr "0xCCC"; VStr "0xDDD"]).
Proof.
  assert (Forall2 (fun a v => outcome (run (demo "abi-aave")
                      (_underlying_coin_address None 1 a) (MState [] tt)) = Returned v)
            ["0xAAA"; "0xBBB"] [VStr "0xCCC"; VStr "0xDDD"]) as Halone.
  { repeat constructor; vm_compute; reflexivity. }
  apply (batch_order (demo "abi-aave") (demo_stateless "abi-aave") None 1
           ["0xAAA"; "0xBBB"] [VStr "0xCCC"; VStr "0xDDD"] (MState [] tt)
           (replicate 10 1 ++ replicate 7 0) Halone).
  intros [|[|i]] a Hi; cbn in Hi; simplify_eq; vm_compute; lia.
Defined.

(** The failure scenario: [0xEEE] has none of the candidates; its task
    raises at its seventh turn. *)
Lemma batch_failure_witness :
  let x := await (demo "abi-aave") ([0; 1; 1; 0; 1; 1; 1; 0; 1] ++ 1 :: [0; 0; 0; 0])
             (underlying_coin_addresses None 1 (AIter ["0xAAA"; "0xEEE"]))
             (MState [] tt) in
  (∀ v, outcome x ≠ Returned v) ∧
  outcome x = Raised (ValueError "Could not find underlying token for 0xEEE").
Proof.
  destruct (batch_failure (demo "abi-aave") (demo_stateless "abi-aave") None 1
              ["0xAAA"; "0xEEE"] 1 "0xEEE"
              (ValueError "Could not find underlying token for 0xEEE") (MState [] tt)
              ([0; 1; 1; 0; 1; 1; 1; 0; 1] ++ 1 :: [0; 0; 0; 0])
              eq_refl ltac:(vm_compute; reflexivity)) as (Hnone & _ & _ & Hfirst).
  split; [exact Hnone|].
  apply (Hfirst [0; 1; 1; 0; 1; 1; 1; 0; 1] [0; 0; 0; 0]);
    [reflexivity|vm_compute; reflexivity|].
  intros [|[|j]] a' e' Hj Ha' He'; cbn in Ha'; simplify_eq.
Defined.

(** What the batch raises is the resolver's own exception: in the failure
    scenario the [ValueError] for [0xEEE], and, when the accessor call of
    [0xBBB] fails in web3, web3's exception, which does not mention the
    address.  Neither is wrapped in another exception. *)
Lemma batch_failure_unwrapped :
  let st := MState [] tt in
  let sched := replicate 7 0 ++ replicate 14 1 in
  let x := await (demo "abi-aave") sched
             (underlying_coin_addresses None 1 (AIter ["0xAAA"; "0xEEE"])) st in
  let y := await (demo "") sched
             (underlying_coin_addresses None 1 (AIter ["0xAAA"; "0xBBB"])) st in
  outcome x = Raised (ValueError "Could not find underlying token for 0xEEE") ∧
  outcome x = outcome (run (demo "abi-aave") (_underlying_coin_address None 1 "0xEEE") st) ∧
  ¬ (∃ e, outcome x = Raised e ∧ exn_class e = "BatchError") ∧
  outcome y = Raised (External (Foreign "ABIFunctionNotFound" "UNDERLYING_ASSET_ADDRESS")) ∧
  outcome y = outcome (run (demo "") (_underlying_coin_address None 1 "0xBBB") st) ∧
  ¬ (∃ e, outcome y = Raised e ∧ exn_class e = "BatchError").
Proof.
  cbv zeta. repeat apply conj.
  - vm_compute. reflexivity.
  - vm_compute. reflexivity.
  - intros (e & He & Hc). vm_compute in He. injection He as <-. discriminate.
  - vm_compute. reflexivity.
  - vm_compute. reflexivity.
  - intros (e & He & Hc). vm_compute in He. injection He as <-. discriminate.
Qed.

Lemma flaky_settled (proxy_abi : string) :
  settled (flaky proxy_abi) (fun url d => fst (http_get (demo proxy_abi) tt url d)).
Proof.
  split; [|done]. intros n url d. cbn. destruct (Nat.even n); [right|by left].
  exists {[ "result" := VStr "Max rate limit reached" ]}, "Max rate limit reached".
  split_and!; [reflexivity|apply lookup_singleton_eq|reflexivity].
Qed.

(** The end-to-end scenario behind the throttling explorer, observed for
    two rounds of each query: whatever the schedule, the batch returns the
    two addresses in order or is not done.  It is done when the second task
    runs first and the first after it; when the tasks take turns, the first
    one is throttled in both of its rounds. *)
Lemma batch_order_flaky :
  let x sched := await (flaky "abi-aave") sched
                   (underlying_coin_addresses None 2 (AIter ["0xAAA"; "0xBBB"]))
                   (MState [] 0) in
  (∀ sched, outcome (x sched) = Returned (VList [VStr "0xCCC"; VStr "0xDDD"]) ∨
            outcome (x sched) = Pending) ∧
  outcome (x (replicate 20 1 ++ replicate 20 0))
    = Returned (VList [VStr "0xCCC"; VStr "0xDDD"]) ∧
  outcome (x (concat (replicate 20 [0; 1]))) = Pending.
Proof.
  split_and!.
  - intros sched.
    apply (batch_order_throttled (flaky "abi-aave") _ (flaky_settled "abi-aave") None 2
             ["0xAAA"; "0xBBB"] [VStr "0xCCC"; VStr "0xDDD"] (MState [] 0) sched).
    repeat constructor; vm_compute; reflexivity.
  - vm_compute. reflexivity.
  - vm_compute. reflexivity.
Qed.

(** ** More of the connector at work *)

(** The query for [0xAAA] returns the ABI. *)
Lemma explorer_result_unthrottled_witness :
  ∃ res, VStr "abi-AAA" = VStr res ∧ String.prefix "Max rate limit reached" res = false.
Proof.
  apply (explorer_result_unthrottled (demo "abi-aave") None 1 0
           (MState [abi_query "0xAAA"] tt) (VStr "abi-AAA")).
  vm_compute. reflexivity.
Defined.

(** Two rate-limited answers, then a listing: its [result] is a list. *)
Lemma explorer_malformed_answer_witness :
  let x := run scripted (explorer None 3 0)
             (MState [∅] (replicate 2 (answer "Max rate limit reached")
                          ++ inr {[ "result" := VList [VStr "tx"] ]} :: [])) in
  outcome x = Raised (AttributeError "startswith").
Proof.
  refine ((λ H, proj1 (proj2 (proj2 H)) {[ "result" := VList [VStr "tx"] ]}
                  (VList [VStr "tx"]) _ _)
            (explorer_malformed_answer None (replicate 2 (answer "Max rate limit reached"))
               [] 3 0 [∅] _ _)).
  - apply lookup_singleton_eq.
  - discriminate.
  - repeat constructor;
      exists {[ "result" := VStr "Max rate limit reached" ]}, "Max rate limit reached";
      (split_and!; [reflexivity|apply lookup_singleton_eq|reflexivity]).
  - cbn. lia.
Defined.

(** [0xEEE] has none of the candidates. *)
Lemma resolve_exceptions_witness :
  let e := ValueError "Could not find underlying token for 0xEEE" in
  e = ValueError ("Could not find underlying token for " +:+ "0xEEE") ∨
  e = KeyError "result" ∨ e = AttributeError "startswith" ∨ ∃ f, e = External f.
Proof.
  apply (resolve_exceptions (demo "abi-aave") None 1 "0xEEE" (MState [] tt)).
  vm_compute. reflexivity.
Defined.

(** [0xFFF] behind an explorer that answers the empty string for the Aave
    proxy address: three fetches, and the call goes to the contract object
    built from the ABI of [0xFFF]. *)
Lemma proxy_fallback_witness :
  let w := demo "" in
  let c := Contract "0xFFF" (VStr "abi-FFF") in
  let fetch := [LHttp ETHERSCAN_URL (abi_request None "0xFFF");
                LContract "0xFFF" (VStr "abi-FFF")] in
  let tr2 := [LHttp ETHERSCAN_URL (abi_request None AAVE_PROXY)] in
  let x := run w (_underlying_coin_address None 1 "0xFFF") (MState [] tt) in
  VStr "" = VStr "" ∧
  trace x = fetch ++ LDir c :: tr2 ++ fetch ++ [LCall c "UNDERLYING_ASSET_ADDRESS"] ∧
  calls (trace x) = [(c, "UNDERLYING_ASSET_ADDRESS")] ∧
  outcome x = Returned (VStr "0x999") ∧
  (∃ own, c = Contract "0xFFF" own ∧
          outcome (run w (ABI None 1 "0xFFF")
                     (MState [abi_request None "0xFFF"; abi_request None AAVE_PROXY] tt))
            = Returned own) ∧
  length (requests (trace x)) = 1 + 1 + 1.
Proof.
  refine (proxy_fallback (demo "") None 1 "0xFFF" (MState [] tt)
            (MState [abi_request None "0xFFF"] tt)
            (MState [abi_request None "0xFFF"; abi_request None AAVE_PROXY] tt)
            (MState [abi_request None "0xFFF"; abi_request None AAVE_PROXY;
                     abi_request None "0xFFF"] tt)
            (Contract "0xFFF" (VStr "abi-FFF")) (Contract "0xFFF" (VStr "abi-FFF"))
            [LHttp ETHERSCAN_URL (abi_request None "0xFFF");
             LContract "0xFFF" (VStr "abi-FFF")]
            [LHttp ETHERSCAN_URL (abi_request None AAVE_PROXY)]
            [LHttp ETHERSCAN_URL (abi_request None "0xFFF");
             LContract "0xFFF" (VStr "abi-FFF")]
            (VStr "") _ _ _ _ _).
  - vm_compute. reflexivity.
  - compute_done.
  - vm_compute. reflexivity.
  - reflexivity.
  - vm_compute. reflexivity.
Defined.

(** One address behind the explorer that throttles every other request:
    the first request is turned away, the second is answered. *)
Lemma batch_singleton_witness :
  let sched := [0; 3; 0; 0; 1; 0; 0; 0; 0; 0; 0; 0] in
  let x := await (flaky "abi-aave") sched
             (underlying_coin_addresses None 2 (AIter ["0xAAA"])) (MState [] 0) in
  let y := run (flaky "abi-aave") (_underlying_coin_address None 2 "0xAAA") (MState [] 0) in
  outcome x = gathered_alone (outcome y) ∧
  wst (final x) = wst (final y) ∧
  trace x = trace y ∧
  heap (final x) = [].
Proof.
  apply (batch_singleton (flaky "abi-aave") None 2 "0xAAA"
           [0; 3; 0; 0; 1; 0; 0; 0; 0; 0; 0; 0] (MState [] 0)).
  vm_compute. lia.
Defined.

(** ** The bonding curve tool at work *)

Section CurveExamples.
Import BondingCurve.

Lemma samples_length (start : Z) (stop : value) (num : Z) (xs : list value) :
  samples start stop num = inr xs → length xs = Z.to_nat num.
Proof.
  unfold samples. destruct (num <? 0)%Z; [discriminate|].
  destruct (as_float (Int start)) as [e|a]; [by destruct (as_float stop)|].
  destruct (as_float stop) as [e|b]; [discriminate|].
  intros [= <-]. by rewrite length_map, length_seq.
Qed.

(** Three coins: three pairs. *)
Lemma bonding_curve_keys_witness :
  ∃ d, outcome (bonding_curve three_coins None 2 false 0) = inr d ∧
       (∃ n, pool_n three_coins 0 = inr n ∧ keys d = index_pairs n ∧
             2 * length d = Z.to_nat n * (Z.to_nat n - 1)) ∧
       NoDup (keys d) ∧
       (∀ i j, (i, j) ∈ keys d → i < j).
Proof.
  eexists. split; [vm_compute; reflexivity|].
  apply (bonding_curve_keys three_coins None 2 false 0).
  vm_compute. reflexivity.
Defined.

(** A dictionary handed in for a pool. *)
Lemma bonding_curve_unsupported_witness :
  let x := bonding_curve stranger None 1000 true tt in
  (∀ d, outcome x ≠ inr d) ∧
  x = (inl (TypeError "Bonding curve calculation not supported for <class 'dict'>"),
       tt, [CallXp]).
Proof.
  apply (bonding_curve_unsupported stranger None 1000 true tt); reflexivity.
Defined.

(** Two thousand units in all: the curve starts at one unit. *)
Lemma truncation_point_witness :
  3%Z = 3%Z ∧
  ∃ D s2 p, D_source two_coins 0 D s2 ∧
            mul two_coins D (truncate_or_default two_coins None) = inr p ∧
            to_int two_coins p = inr (10 ^ 18)%Z.
Proof.
  apply (truncation_point two_coins None 3 true 0 (10 ^ 18)%Z (Int (10 ^ 24)) 3).
  vm_compute. apply list_elem_of_lookup_2 with 3. reflexivity.
Defined.

(** Three points a curve. *)
Lemma curve_points_witness :
  ∃ d, outcome (bonding_curve three_coins None 3 true 0) = inr d ∧
       Forall (fun kc => length kc.2 = 3) d ∧
       length (get_y_calls (trace (bonding_curve three_coins None 3 true 0)))
         = length d * 4.
Proof.
  eexists. split; [vm_compute; reflexivity|].
  apply (curve_points three_coins None 3 true 0).
  - intros a b xs. apply samples_length.
  - vm_compute. reflexivity.
Defined.

(** A truncation at zero: the pool divides by it. *)
Lemma bonding_curve_errors_witness :
  ∃ f, External (Foreign "ZeroDivisionError" "integer division or modulo by zero")
       = External f.
Proof.
  apply (bonding_curve_errors two_coins (Some (Int 0)) 3 0).
  - left. reflexivity.
  - intros xp [= <-]. vm_compute. lia.
  - discriminate.
  - vm_compute. reflexivity.
Defined.

Lemma example_squeezes (crypto : bool) (balances price_scale : list Z)
    (names : list string) :
  squeezes (example crypto balances price_scale names).
Proof.
  intros s n. cbn. destruct n as [|[|n]]; cbn; [done|done|].
  split; [lia|]. by rewrite length_seq.
Qed.

(** No sample asked for. *)
Lemma empty_curves_not_plotted_witness :
  ∃ d, outcome (bonding_curve two_coins None 0 false 0) = inr d ∧ d ≠ [] ∧
       let x := bonding_curve two_coins None 0 true 0 in
       Forall (fun kc => kc.2 = []) d ∧
       (∀ d', outcome x ≠ inr d') ∧
       (∀ e, outcome x = inl e →
             e = ValueError "not enough values to unpack (expected 2, got 0)" ∨
             ∃ f, e = External f) ∧
       plotted (trace x) = [] ∧
       CallShow ∉ trace x.
Proof.
  eexists. split; [vm_compute; reflexivity|]. split; [discriminate|].
  apply (empty_curves_not_plotted two_coins None 0 0).
  - apply example_squeezes.
  - intros a b xs Hxs%samples_length. by destruct xs.
  - vm_compute. reflexivity.
  - discriminate.
Defined.

(** Three curves, side by side. *)
Lemma plot_contents_witness :
  ∃ d, outcome (bonding_curve three_coins None 2 true 0) = inr d ∧
       let x := bonding_curve three_coins None 2 true 0 in
       let s' := final (bonding_curve three_coins None 2 false 0) in
       ∃ names,
         pool_coin_names three_coins s' = inr names ∧
         subplot_calls (trace x) = [(1, length d)] ∧
         Forall (fun kc => kc.2 ≠ []) d ∧
         plotted (trace x) = map (fun kc => transposed kc.2) d ∧
         length (scattered (trace x)) = length d ∧
         Forall2 (fun k l => match names with
                             | [] => l = coin_label k.1
                             | _ => names !! k.1 = Some l
                             end) (keys d) (xlabels (trace x)) ∧
         Forall2 (fun k l => match names with
                             | [] => l = coin_label k.2
                             | _ => names !! k.2 = Some l
                             end) (keys d) (ylabels (trace x)) ∧
         last (trace x) = Some CallShow.
Proof.
  eexists. split; [vm_compute; reflexivity|].
  apply (plot_contents three_coins None 2 0).
  - apply example_squeezes.
  - vm_compute. reflexivity.
Defined.

(** The first call for the pair [(0, 1)]: the limit, at one unit. *)
Lemma get_y_arguments_witness :
  1 ≠ 0 ∧ 1 < coins two_coins 0 ∧ 0 < coins two_coins 0 ∧
  (∃ ps, pairs_of two_coins 0 = inr ps ∧ ((1, 0) ∈ ps ∨ (0, 1) ∈ ps)) ∧
  (0 < 1 → ∃ D s2 p, D_source two_coins 0 D s2 ∧
                     mul two_coins D (truncate_or_default two_coins None) = inr p ∧
                     to_int two_coins p = inr (10 ^ 18)%Z).
Proof.
  apply (get_y_arguments two_coins None 3 true 0 1 0 (10 ^ 18)%Z
           (map Int [1000 * 10 ^ 18; 1000 * 10 ^ 18]%Z)).
  vm_compute. apply list_elem_of_lookup_2 with 2. reflexivity.
Defined.

End CurveExamples.
